(** * Chat session engine and live edit pipeline of the aide workbench

    A shallow embedding of
    - [ChatService] (request dispatcher: [sendRequest], [_sendRequestAsync],
      [cancelCurrentRequestForSession], [clearSession], [saveState],
      [deserializeChats], [hasSessions]), and
    - [ChatEditSessionService] / [LiveStrategy] / [undoModelUntil]
      (edit session coordinator and per-document edit strategy).

    Asynchronous methods are cut at their [await] points: every piece between
    two suspension points is a function on the service state, and the
    interleavings of the pieces are the traces of an event system. *)

From Stdlib Require Import ZArith NArith Lia Permutation Sorted Ascii.
From stdpp Require Import base option list sorting strings pretty gmap.
From Equations Require Import Equations.

Set Default Proof Using "Type".
Set Warnings "-register-all".
Set Warnings "-notation-overridden".
Set Warnings "-ambiguous-paths".
Local Open Scope Z_scope.

(* ===================================================================== *)
(** * JavaScript values that the services manipulate                       *)
(* ===================================================================== *)

(** The outcome of running a piece of JavaScript: a value, or a thrown error
    (for an [async] function: the promise fulfils or rejects). *)
Inductive Completion (A : Type) : Type :=
  | Returned (a : A)
  | Thrown (msg : string).
Arguments Returned {A} a.
Arguments Thrown {A} msg.

#[global] Instance Completion_ret : MRet Completion := fun _ a => Returned a.
#[global] Instance Completion_bind : MBind Completion := fun _ _ k c =>
  match c with
  | Returned a => k a
  | Thrown e => Thrown e
  end.

(** A JavaScript string is a sequence of UTF-16 code units. *)
Definition jsString := list N.

(** [WhiteSpace] and [LineTerminator] code points of ECMAScript, the ones
    [String.prototype.trim] strips; all of them are single code units. *)
Definition isWhiteSpaceOrLineTerminator (c : N) : bool :=
  ((9 <=? c) && (c <=? 13) ||
   (c =? 32) || (c =? 160) || (c =? 5760) ||
   (8192 <=? c) && (c <=? 8202) ||
   (c =? 8232) || (c =? 8233) || (c =? 8239) || (c =? 8287) ||
   (c =? 12288) || (c =? 65279))%N.

Fixpoint trimStart (s : jsString) : jsString :=
  match s with
  | [] => []
  | c :: s' => if isWhiteSpaceOrLineTerminator c then trimStart s' else s
  end.

Definition trimEnd (s : jsString) : jsString := rev (trimStart (rev s)).

(** [String.prototype.trim] *)
Definition trim (s : jsString) : jsString := trimEnd (trimStart s).

(** [!s] for a string: the empty string is the only falsy one. *)
Definition jsStringFalsy (s : jsString) : bool :=
  match s with [] => true | _ => false end.

(** JSON data after [JSON.parse] and [revive], together with the
    [MarkdownString] objects that [deserializeChats] puts into it.  The numeric
    payload is never inspected by the code below. *)
Inductive JsValue : Type :=
  | JUndefined
  | JNull
  | JBool (b : bool)
  | JNumber (n : Z)
  | JString (s : string)
  | JArray (elems : list JsValue)
  | JObject (fields : list (string * JsValue))
  | JMarkdownString (value : string).

(** [v[k]] for the property names the code reads ([requests], [response],
    [sessionId]): none of them exists on a primitive wrapper, an array or a
    MarkdownString, and reading a property of [null] / [undefined] throws. *)
Fixpoint lookupField (k : string) (fields : list (string * JsValue)) : JsValue :=
  match fields with
  | [] => JUndefined
  | (k', v) :: rest => if decide (k = k') then v else lookupField k rest
  end.

Definition getProp (v : JsValue) (k : string) : Completion JsValue :=
  match v with
  | JUndefined | JNull => Thrown "TypeError: Cannot read properties of undefined or null"
  | JObject fields => Returned (lookupField k fields)
  | _ => Returned JUndefined
  end.

(** [o[k] = v] on a plain object. *)
Fixpoint setField (k : string) (v : JsValue) (fields : list (string * JsValue))
  : list (string * JsValue) :=
  match fields with
  | [] => [(k, v)]
  | (k', w) :: rest =>
      if decide (k = k') then (k', v) :: rest else (k', w) :: setField k v rest
  end.

(** The values a [for (const x of v)] loop visits. *)
Definition iterate (v : JsValue) : Completion (list JsValue) :=
  match v with
  | JArray elems => Returned elems
  | JString s => Returned ((fun c => JString (String c EmptyString)) <$> String.list_ascii_of_string s)
  | _ => Thrown "TypeError: value is not iterable"
  end.

Definition setProp (v : JsValue) (k : string) (x : JsValue) : JsValue :=
  match v with
  | JObject fields => JObject (setField k x fields)
  | _ => v
  end.

(** [ToString], which turns a value into a property key.  An array is joined
    with commas, [null] and [undefined] elements giving the empty string. *)
Fixpoint toString (v : JsValue) : string :=
  match v with
  | JUndefined => "undefined"
  | JNull => "null"
  | JBool true => "true"
  | JBool false => "false"
  | JNumber n => pretty n
  | JString s => s
  | JArray elems =>
      (fix join (l : list JsValue) : string :=
         match l with
         | [] => EmptyString
         | e :: l' =>
             let se := match e with JUndefined | JNull => EmptyString | _ => toString e end in
             match l' with
             | [] => se
             | _ => se +:+ "," +:+ join l'
             end
         end) elems
  | JObject _ | JMarkdownString _ => "[object Object]"
  end.

(** [ToBoolean] *)
Definition toBoolean (v : JsValue) : bool :=
  match v with
  | JUndefined | JNull => false
  | JBool b => b
  | JNumber n => negb (n =? 0)
  | JString s => negb (bool_decide (s = EmptyString))
  | JArray _ | JObject _ | JMarkdownString _ => true
  end.

(** What the services write to [ILogService] and to telemetry. *)
Inductive LogEntry : Type :=
  | LogTrace (method message : string)
  | LogError (method message : string)
  | Telemetry (event result : string).

(* ===================================================================== *)
(** * ChatService: the request dispatcher                                  *)
(* ===================================================================== *)

Module ChatService.

Inductive AideChatAgentLocation := Panel | Terminal | Notebook | Editor.

#[global] Instance AideChatAgentLocation_eq_dec : EqDecision AideChatAgentLocation.
Proof. solve_decision. Defined.

(** [IChatResponseErrorDetails] *)
Record ErrorDetails := {
  message : string;
  responseIsIncomplete : option bool;
  responseIsFiltered : option bool;
}.

(** [IAideChatAgentResult]; its [timings] only feed telemetry and are left out. *)
Record AgentResult := { errorDetails : option ErrorDetails }.

(** [IAideChatProgress], a progress fragment *)
Inductive ChatProgress :=
  | MarkdownContent (value : string)
  | OtherProgress (kind : string).

Record ChatAgent := { agent_id : string; agent_name : jsString }.

(** [IParsedChatRequest]: the text and the three kinds of parts that
    [sendRequest] looks for with [parts.find]. *)
Record ParsedRequest := {
  text : jsString;
  agentPart : option ChatAgent;              (* ChatRequestAgentPart *)
  agentSubcommandPart : option string;       (* ChatRequestAgentSubcommandPart *)
  slashCommandPart : option string;          (* ChatRequestSlashCommandPart *)
}.

(** [IChatSendRequestOptions] *)
Record SendRequestOptions := {
  opt_location : option AideChatAgentLocation;
  opt_attempt : option Z;
  opt_agentId : option string;
  opt_slashCommand : option jsString;
  opt_noCommandDetection : bool;
  opt_parserContext : option ChatAgent;
}.

(** The services [ChatService] is constructed with, as far as [sendRequest]
    consults them. [parser] is [ChatRequestParser.parseChatRequest]. *)
Record Services := {
  getAgent : string -> option ChatAgent;
  getDefaultAgent : AideChatAgentLocation -> option ChatAgent;
  hasCommand : string -> bool;
  parser : string -> jsString -> AideChatAgentLocation -> option ChatAgent -> ParsedRequest;
}.

(** ** ChatModel *)

Record ChatResponseModel := {
  fragments : list ChatProgress;
  result : option AgentResult;
  isComplete : bool;
  isCanceled : bool;
}.

Record ChatRequestModel := {
  id : nat;
  parsed : ParsedRequest;
  attempt : Z;
  response : ChatResponseModel;
}.

Inductive InitState := Uninitialized | Initializing | Ready | Failed.

Record ChatModel := {
  sessionId : string;
  initialLocation : AideChatAgentLocation;
  creationDate : Z;
  requests : list ChatRequestModel;
  initState : InitState;
}.

Definition withRequests (f : list ChatRequestModel -> list ChatRequestModel) (m : ChatModel) : ChatModel :=
  {| sessionId := sessionId m; initialLocation := initialLocation m;
     creationDate := creationDate m; requests := f (requests m); initState := initState m |}.

Definition withInitState (s : InitState) (m : ChatModel) : ChatModel :=
  {| sessionId := sessionId m; initialLocation := initialLocation m;
     creationDate := creationDate m; requests := requests m; initState := s |}.

Definition withResponse (f : ChatResponseModel -> ChatResponseModel) (r : ChatRequestModel) : ChatRequestModel :=
  {| id := id r; parsed := parsed r; attempt := attempt r; response := f (response r) |}.

(** Apply [f] to the response of the request [rid], if the model owns it. *)
Definition onResponse (rid : nat) (f : ChatResponseModel -> ChatResponseModel) (m : ChatModel) : ChatModel :=
  withRequests (fmap (fun r => if decide (id r = rid) then withResponse f r else r)) m.

(** Modelled from the spec: the ChatModel class (SessionModel, section 4.1)
    is not among the sources.  [addRequest] appends a new Request with an empty
    Response and returns its handle. *)
Definition addRequest (rid : nat) (p : ParsedRequest) (att : Z) (m : ChatModel) : ChatModel :=
  withRequests (fun rs => rs ++ [ {| id := rid; parsed := p; attempt := att;
      response := {| fragments := []; result := None; isComplete := false; isCanceled := false |} |} ]) m.

(** Modelled from the spec: [acceptResponseProgress] appends a fragment to the
    request's Response, and does nothing if the request is not of this
    session. *)
Definition acceptResponseProgress (rid : nat) (p : ChatProgress) : ChatModel -> ChatModel :=
  onResponse rid (fun r => {| fragments := fragments r ++ [p]; result := result r;
                              isComplete := isComplete r; isCanceled := isCanceled r |}).

(** Modelled from the spec: [setResponse] attaches the terminal result. *)
Definition setResponse (rid : nat) (res : AgentResult) : ChatModel -> ChatModel :=
  onResponse rid (fun r => {| fragments := fragments r; result := Some res;
                              isComplete := isComplete r; isCanceled := isCanceled r |}).

(** Modelled from the spec: [completeResponse] sets the completion flag. *)
Definition completeResponse (rid : nat) : ChatModel -> ChatModel :=
  onResponse rid (fun r => {| fragments := fragments r; result := result r;
                              isComplete := true; isCanceled := isCanceled r |}).

(** Modelled from the spec: [cancelRequest] marks the response of a cancelled
    request complete and cancelled. *)
Definition cancelRequest (rid : nat) : ChatModel -> ChatModel :=
  onResponse rid (fun r => {| fragments := fragments r; result := result r;
                              isComplete := true; isCanceled := true |}).

Definition getRequest (rid : nat) (m : ChatModel) : option ChatRequestModel :=
  List.find (fun r => bool_decide (id r = rid)) (requests m).

(** [ISerializableChatData], as far as the service reads it; an entry written
    by an older version may lack [creationDate] and [initialLocation]. *)
Record SerializableChatData := {
  p_sessionId : string;
  p_creationDate : option Z;
  p_initialLocation : option AideChatAgentLocation;
  p_requests : list ChatRequestModel;
  p_isImported : bool;
}.

(** [JSON.parse(JSON.stringify(model))], the snapshot [toJSON] gives. *)
Definition toJSON (m : ChatModel) : SerializableChatData :=
  {| p_sessionId := sessionId m; p_creationDate := Some (creationDate m);
     p_initialLocation := Some (initialLocation m);
     p_requests := requests m; p_isImported := false |}.

(** An element of [allSessions] in [saveState]: [ChatModel | ISerializableChatData]. *)
Inductive SessionSnapshot :=
  | LiveSession (m : ChatModel)
  | PersistedSession (d : SerializableChatData).

(** ** Insertion-ordered maps ([Map], and objects used as tables) *)

Section OrderedMap.
Context {V : Type}.

Fixpoint om_get (k : string) (m : list (string * V)) : option V :=
  match m with
  | [] => None
  | (k', v) :: m' => if decide (k = k') then Some v else om_get k m'
  end.

Definition om_has (k : string) (m : list (string * V)) : bool :=
  match om_get k m with Some _ => true | None => false end.

(** [set] keeps the position of a key that is already present. *)
Fixpoint om_set (k : string) (v : V) (m : list (string * V)) : list (string * V) :=
  match m with
  | [] => [(k, v)]
  | (k', w) :: m' => if decide (k = k') then (k, v) :: m' else (k', w) :: om_set k v m'
  end.

Fixpoint om_delete (k : string) (m : list (string * V)) : list (string * V) :=
  match m with
  | [] => []
  | (k', w) :: m' => if decide (k = k') then m' else (k', w) :: om_delete k m'
  end.

Definition om_values (m : list (string * V)) : list V := snd <$> m.
End OrderedMap.

(** ** Service state *)

(** Where an activation of [sendRequestInternal] is suspended. *)
Inductive SendPhase :=
  | AwaitingActivation (agent : ChatAgent)  (* at [await activateByEvent], before [addRequest] *)
  | InvokingAgent                           (* at [await invokeAgent] *)
  | ExecutingCommand                        (* at [await executeCommand] *)
  | Settled                                 (* the promise has settled, its [finally] callback is queued *)
  | Finished.                               (* the [finally] callback has run *)

(** One activation of [sendRequestInternal] with the variables it closes over. *)
Record Send := {
  send_model : nat;                 (* [model] *)
  send_session : string;            (* [model.sessionId] *)
  send_parsed : ParsedRequest;      (* [parsedRequest] *)
  send_attempt : Z;                 (* [attempt] *)
  send_request : option nat;        (* [request], undefined until [addRequest] *)
  send_gotProgress : bool;          (* [gotProgress] *)
  send_phase : SendPhase;
}.

Definition withPhase (p : SendPhase) (s : Send) : Send :=
  {| send_model := send_model s; send_session := send_session s; send_parsed := send_parsed s;
     send_attempt := send_attempt s; send_request := send_request s;
     send_gotProgress := send_gotProgress s; send_phase := p |}.

Definition withRequest (r : nat) (s : Send) : Send :=
  {| send_model := send_model s; send_session := send_session s; send_parsed := send_parsed s;
     send_attempt := send_attempt s; send_request := Some r;
     send_gotProgress := send_gotProgress s; send_phase := send_phase s |}.

Definition withGotProgress (s : Send) : Send :=
  {| send_model := send_model s; send_session := send_session s; send_parsed := send_parsed s;
     send_attempt := send_attempt s; send_request := send_request s;
     send_gotProgress := true; send_phase := send_phase s |}.

(** The cancellation listener of a send is registered from its start until
    [listener.dispose()] in its [finally] block. *)
Definition listening (s : Send) : bool :=
  match send_phase s with
  | Settled | Finished => false
  | _ => true
  end.

(** A [sendRequest] call suspended at [await model.waitForInitialization()]. *)
Record SendRequestCall := {
  call_model : nat;
  call_sessionId : string;
  call_request : jsString;
  call_options : option SendRequestOptions;
}.

(** [IChatSendRequestData]; the promise is named by the token source of the send. *)
Record SendRequestData := {
  responseCompletePromise : nat;
  data_agent : option ChatAgent;
  data_slashCommand : option string;
}.

Record State := {
  (** ChatModel objects, by reference *)
  heap : gmap nat ChatModel;
  (** [_sessionModels]: session id to ChatModel, in insertion order *)
  sessionModels : list (string * nat);
  (** [_pendingRequests]: session id to CancellationTokenSource *)
  pendingRequests : gmap string nat;
  (** [_persistedSessions], in property order *)
  persistedSessions : list (string * SerializableChatData);
  (** every [new CancellationTokenSource()] of [_sendRequestAsync], with the session it was made for *)
  tokenSources : list (nat * string);
  (** token sources whose [cancel()] has run *)
  cancelled : list nat;
  (** token sources the DisposableMap has disposed, newest first *)
  disposed : list nat;
  (** activations of [sendRequestInternal], by token source *)
  sends : gmap nat Send;
  (** [sendRequest] calls suspended at [await model.waitForInitialization()] *)
  awaiting : list SendRequestCall;
  (** what [storageService.store(serializedChatKey, ...)] last wrote *)
  storage : option (list SessionSnapshot);
  (** log service and telemetry output, newest first *)
  log : list LogEntry;
  (** next fresh object identity *)
  nextId : nat
}.

Definition upd_heap (f : gmap nat ChatModel -> gmap nat ChatModel) (st : State) : State :=
  {| heap := f (heap st); sessionModels := sessionModels st; pendingRequests := pendingRequests st; persistedSessions := persistedSessions st; tokenSources := tokenSources st; cancelled := cancelled st; disposed := disposed st; sends := sends st; awaiting := awaiting st; storage := storage st; log := log st; nextId := nextId st |}.
Definition upd_sessionModels (f : list (string * nat) -> list (string * nat)) (st : State) : State :=
  {| heap := heap st; sessionModels := f (sessionModels st); pendingRequests := pendingRequests st; persistedSessions := persistedSessions st; tokenSources := tokenSources st; cancelled := cancelled st; disposed := disposed st; sends := sends st; awaiting := awaiting st; storage := storage st; log := log st; nextId := nextId st |}.
Definition upd_pendingRequests (f : gmap string nat -> gmap string nat) (st : State) : State :=
  {| heap := heap st; sessionModels := sessionModels st; pendingRequests := f (pendingRequests st); persistedSessions := persistedSessions st; tokenSources := tokenSources st; cancelled := cancelled st; disposed := disposed st; sends := sends st; awaiting := awaiting st; storage := storage st; log := log st; nextId := nextId st |}.
Definition upd_persistedSessions (f : list (string * SerializableChatData) -> list (string * SerializableChatData)) (st : State) : State :=
  {| heap := heap st; sessionModels := sessionModels st; pendingRequests := pendingRequests st; persistedSessions := f (persistedSessions st); tokenSources := tokenSources st; cancelled := cancelled st; disposed := disposed st; sends := sends st; awaiting := awaiting st; storage := storage st; log := log st; nextId := nextId st |}.
Definition upd_tokenSources (f : list (nat * string) -> list (nat * string)) (st : State) : State :=
  {| heap := heap st; sessionModels := sessionModels st; pendingRequests := pendingRequests st; persistedSessions := persistedSessions st; tokenSources := f (tokenSources st); cancelled := cancelled st; disposed := disposed st; sends := sends st; awaiting := awaiting st; storage := storage st; log := log st; nextId := nextId st |}.
Definition upd_cancelled (f : list nat -> list nat) (st : State) : State :=
  {| heap := heap st; sessionModels := sessionModels st; pendingRequests := pendingRequests st; persistedSessions := persistedSessions st; tokenSources := tokenSources st; cancelled := f (cancelled st); disposed := disposed st; sends := sends st; awaiting := awaiting st; storage := storage st; log := log st; nextId := nextId st |}.
Definition upd_disposed (f : list nat -> list nat) (st : State) : State :=
  {| heap := heap st; sessionModels := sessionModels st; pendingRequests := pendingRequests st; persistedSessions := persistedSessions st; tokenSources := tokenSources st; cancelled := cancelled st; disposed := f (disposed st); sends := sends st; awaiting := awaiting st; storage := storage st; log := log st; nextId := nextId st |}.
Definition upd_sends (f : gmap nat Send -> gmap nat Send) (st : State) : State :=
  {| heap := heap st; sessionModels := sessionModels st; pendingRequests := pendingRequests st; persistedSessions := persistedSessions st; tokenSources := tokenSources st; cancelled := cancelled st; disposed := disposed st; sends := f (sends st); awaiting := awaiting st; storage := storage st; log := log st; nextId := nextId st |}.
Definition upd_awaiting (f : list SendRequestCall -> list SendRequestCall) (st : State) : State :=
  {| heap := heap st; sessionModels := sessionModels st; pendingRequests := pendingRequests st; persistedSessions := persistedSessions st; tokenSources := tokenSources st; cancelled := cancelled st; disposed := disposed st; sends := sends st; awaiting := f (awaiting st); storage := storage st; log := log st; nextId := nextId st |}.
Definition upd_storage (f : option (list SessionSnapshot) -> option (list SessionSnapshot)) (st : State) : State :=
  {| heap := heap st; sessionModels := sessionModels st; pendingRequests := pendingRequests st; persistedSessions := persistedSessions st; tokenSources := tokenSources st; cancelled := cancelled st; disposed := disposed st; sends := sends st; awaiting := awaiting st; storage := f (storage st); log := log st; nextId := nextId st |}.
Definition upd_log (f : list LogEntry -> list LogEntry) (st : State) : State :=
  {| heap := heap st; sessionModels := sessionModels st; pendingRequests := pendingRequests st; persistedSessions := persistedSessions st; tokenSources := tokenSources st; cancelled := cancelled st; disposed := disposed st; sends := sends st; awaiting := awaiting st; storage := storage st; log := f (log st); nextId := nextId st |}.
Definition upd_nextId (f : nat -> nat) (st : State) : State :=
  {| heap := heap st; sessionModels := sessionModels st; pendingRequests := pendingRequests st; persistedSessions := persistedSessions st; tokenSources := tokenSources st; cancelled := cancelled st; disposed := disposed st; sends := sends st; awaiting := awaiting st; storage := storage st; log := log st; nextId := f (nextId st) |}.

Definition trace (method msg : string) : State -> State :=
  upd_log (cons (LogTrace method msg)).
Definition error (method msg : string) : State -> State :=
  upd_log (cons (LogError method msg)).
Definition publicLog2 (event res : string) : State -> State :=
  upd_log (cons (Telemetry event res)).

Definition fresh (st : State) : nat * State := (nextId st, upd_nextId S st).

Definition onModel (ref : nat) (f : ChatModel -> ChatModel) : State -> State :=
  upd_heap (alter f ref).

Definition onSend (t : nat) (f : Send -> Send) : State -> State :=
  upd_sends (alter f t).

(** *** DisposableMap
    The class is part of the base library ([vs/base/common/lifecycle]) and not
    among the sources; modelled after its contract: [set] disposes the value it
    overwrites, [deleteAndDispose] disposes the value it removes and does
    nothing for an absent key. *)
Definition pending_set (k : string) (t : nat) (st : State) : State :=
  let st := match pendingRequests st !! k with
            | Some old => upd_disposed (cons old) st
            | None => st
            end in
  upd_pendingRequests (insert k t) st.

Definition pending_deleteAndDispose (k : string) (st : State) : State :=
  match pendingRequests st !! k with
  | Some old => upd_pendingRequests (delete k) (upd_disposed (cons old) st)
  | None => st
  end.

Definition isCancellationRequested (t : nat) (st : State) : bool :=
  bool_decide (t ∈ cancelled st).

(** [source.cancel()]: the first call flips the token and fires the listener
    that [sendRequestInternal] registered, if it is still registered.  The
    listener calls [model.cancelRequest(request)]; before [addRequest] there is
    no request to cancel. *)
Definition cancelTokenSource (t : nat) (st : State) : State :=
  if isCancellationRequested t st then st
  else
    let st := upd_cancelled (cons t) st in
    match sends st !! t with
    | Some s =>
        if listening s then
          let st := trace "sendRequest" "Request for session was cancelled" st in
          let st := publicLog2 "aideChatProviderInvoked" "cancelled" st in
          match send_request s with
          | Some rid => onModel (send_model s) (cancelRequest rid) st
          | None => st
          end
        else st
    | None => st
    end.

Definition initialState : State :=
  {| heap := ∅; sessionModels := []; pendingRequests := ∅; persistedSessions := [];
     tokenSources := []; cancelled := []; disposed := []; sends := ∅; awaiting := [];
     storage := None; log := []; nextId := 0 |}.

(** ** The methods *)

(** [chatAgentLeader] and [chatSubcommandLeader] (csChatParserTypes) *)
Definition chatAgentLeader : jsString := [64%N].
Definition chatSubcommandLeader : jsString := [47%N].

Section Methods.
Context (svc : Services).

(** [parseChatRequest] *)
Definition parseChatRequest (sid : string) (request : jsString)
    (location : AideChatAgentLocation) (options : option SendRequestOptions)
  : Completion ParsedRequest :=
  let parserContext := options ≫= opt_parserContext in
  match options ≫= opt_agentId with
  | Some (String c rest as agentId) =>
      match getAgent svc agentId with
      | None => Thrown "Unknown agent"
      | Some agent =>
          let commandPart :=
            match options ≫= opt_slashCommand with
            | Some (c :: cs) => [32%N] ++ chatSubcommandLeader ++ (c :: cs)
            | _ => []
            end in
          let request := chatAgentLeader ++ agent_name agent ++ commandPart ++ [32%N] ++ request in
          Returned (parser svc sid request location (Some agent))
      end
  | _ => Returned (parser svc sid request location parserContext)
  end.

(** [_sendRequestAsync], up to its [return]: it creates the token source,
    runs [sendRequestInternal] until its first [await] (or to its end when
    the request cannot be handled), and then registers the token source as
    the pending request of the session. *)
Definition _sendRequestAsync (model : nat) (sid : string) (parsedRequest : ParsedRequest)
    (att : Z) (defaultAgent : option ChatAgent) (st : State) : nat * State :=
  let '(source, st) := fresh st in
  let st := upd_tokenSources (cons (source, sid)) st in
  let send phase req :=
    {| send_model := model; send_session := sid; send_parsed := parsedRequest;
       send_attempt := att; send_request := req; send_gotProgress := false;
       send_phase := phase |} in
  let st :=
    match agentPart parsedRequest, defaultAgent, slashCommandPart parsedRequest with
    | Some agent, _, _
    | None, Some agent, None =>
        (* await this.extensionService.activateByEvent(...) *)
        upd_sends (insert source (send (AwaitingActivation agent) None)) st
    | None, _, Some command =>
        if hasCommand svc command then
          let '(rid, st) := fresh st in
          let st := onModel model (addRequest rid parsedRequest att) st in
          (* await this.chatSlashCommandService.executeCommand(...) *)
          upd_sends (insert source (send ExecutingCommand (Some rid))) st
        else
          (* throw new Error(`Cannot handle request`), caught below; no request exists *)
          let st := publicLog2 "aideChatProviderInvoked" "error" st in
          let st := error "sendRequest" "Error while handling chat request" st in
          upd_sends (insert source (send Settled None)) st
    | None, None, None =>
        let st := publicLog2 "aideChatProviderInvoked" "error" st in
        let st := error "sendRequest" "Error while handling chat request" st in
        upd_sends (insert source (send Settled None)) st
    end in
  (source, pending_set sid source st).

(** [sendRequest], from the call to [await model.waitForInitialization()]. *)
Inductive SendRequestBegin :=
  | Done (r : Completion (option SendRequestData))
  | Suspended (call : SendRequestCall).

Definition sendRequest_begin (sid : string) (request : jsString)
    (options : option SendRequestOptions) (st : State) : State * SendRequestBegin :=
  let st := trace "sendRequest" "sessionId, message" st in
  if jsStringFalsy (trim request) then
    (trace "sendRequest" "Rejected empty message" st, Done (Returned None))
  else
    match om_get sid (sessionModels st) with
    | None => (st, Done (Thrown "Unknown session"))
    | Some model =>
        (st, Suspended {| call_model := model; call_sessionId := sid;
                          call_request := request; call_options := options |})
    end.

(** [sendRequest], after [await model.waitForInitialization()] has resolved. *)
Definition sendRequest_resume (call : SendRequestCall) (m : ChatModel) (st : State)
  : State * Completion (option SendRequestData) :=
  let sid := call_sessionId call in
  match pendingRequests st !! sid with
  | Some _ =>
      (trace "sendRequest" "Session already has a pending request" st, Returned None)
  | None =>
      let options := call_options call in
      let location := default (initialLocation m) (options ≫= opt_location) in
      let att := default 0 (options ≫= opt_attempt) in
      let defaultAgent := getDefaultAgent svc location in
      match parseChatRequest sid (call_request call) location options with
      | Thrown e => (st, Thrown e)
      | Returned parsedRequest =>
          let agent := match agentPart parsedRequest with
                       | Some a => Some a
                       | None => defaultAgent
                       end in
          let '(source, st) :=
            _sendRequestAsync (call_model call) sid parsedRequest att defaultAgent st in
          (st, Returned (Some {| responseCompletePromise := source; data_agent := agent;
                                 data_slashCommand := agentSubcommandPart parsedRequest |}))
      end
  end.

(** The continuation of a suspended call runs once the initialization
    promise of its model has settled; a failed initialization rejects the
    [await].  [None]: the promise is still pending. *)
Definition sendRequest_continue (call : SendRequestCall) (st : State)
  : option (State * Completion (option SendRequestData)) :=
  match heap st !! call_model call with
  | Some m =>
      match initState m with
      | Ready => Some (sendRequest_resume call m st)
      | Failed => Some (st, Thrown "No default agent")
      | _ => None
      end
  | None => None
  end.

(** [sendRequest] on a session whose initialization has already settled, run
    from call to return with nothing else scheduled in between. *)
Definition sendRequest (sid : string) (request : jsString)
    (options : option SendRequestOptions) (st : State)
  : option (State * Completion (option SendRequestData)) :=
  match sendRequest_begin sid request options st with
  | (st, Done r) => Some (st, r)
  | (st, Suspended call) => sendRequest_continue call st
  end.

(** *** The rest of [sendRequestInternal] *)

(** After [await activateByEvent]: the Request is created and the agent is
    invoked (variable resolution, which only feeds the agent, is left out). *)
Definition onActivated (t : nat) (st : State) : State :=
  match sends st !! t with
  | Some s =>
      match send_phase s with
      | AwaitingActivation agent =>
          let '(rid, st) := fresh st in
          let st := onModel (send_model s) (addRequest rid (send_parsed s) (send_attempt s)) st in
          onSend t (fun s => withPhase InvokingAgent (withRequest rid s)) st
      | _ => st
      end
  | None => st
  end.

(** [progressCallback] *)
Definition progressCallback (t : nat) (progress : ChatProgress) (st : State) : State :=
  match sends st !! t with
  | Some s =>
      if isCancellationRequested t st then st
      else
        let st := onSend t withGotProgress st in
        let st := trace "sendRequest" "Provider returned progress" st in
        match send_request s with
        | Some rid => onModel (send_model s) (acceptResponseProgress rid progress) st
        | None => st
        end
  | None => st
  end.

(** The classification that the completion of the agent computes. *)
Definition classify (rawResult : AgentResult) (gotProgress : bool) : string :=
  if default false (errorDetails rawResult ≫= responseIsFiltered) then "filtered"
  else if bool_decide (is_Some (errorDetails rawResult)) && gotProgress then "errorWithOutput"
  else if bool_decide (is_Some (errorDetails rawResult)) then "error"
  else "success".

Definition emptyResponse : AgentResult :=
  {| errorDetails := Some {| message := "Provider returned null response";
                             responseIsIncomplete := None; responseIsFiltered := None |} |}.

(** The code after the [if]/[else if] that awaited the agent or the command:
    from [if (token.isCancellationRequested)] to the end of the [try], then
    the [finally] block. *)
Definition completeRequest (t : nat) (rawResult : option AgentResult) (st : State) : State :=
  match sends st !! t with
  | Some s =>
      let st :=
        if isCancellationRequested t st then st
        else
          let '(rawResult, st) :=
            match rawResult with
            | Some r => (r, st)
            | None => (emptyResponse, trace "sendRequest" "Provider returned no response" st)
            end in
          let st := publicLog2 "aideChatProviderInvoked"
                      (classify rawResult (send_gotProgress s)) st in
          match send_request s with
          | Some rid =>
              let st := onModel (send_model s) (setResponse rid rawResult) st in
              let st := trace "sendRequest" "Provider returned response" st in
              onModel (send_model s) (completeResponse rid) st
          | None => st
          end in
      (* finally { listener.dispose(); } *)
      onSend t (withPhase Settled) st
  | None => st
  end.

(** The agent (or the slash command) has returned: [rawResult] is what
    [invokeAgent] resolved to, and [{}] for a slash command. *)
Definition onAgentReturned (t : nat) (agentResult : option AgentResult) (st : State) : State :=
  match sends st !! t with
  | Some s =>
      match send_phase s with
      | InvokingAgent => completeRequest t agentResult st
      | ExecutingCommand => completeRequest t (Some {| errorDetails := None |}) st
      | _ => st
      end
  | None => st
  end.

(** An [await] inside the [try] rejected: the [catch] block, then [finally]. *)
Definition onAgentThrew (t : nat) (errMessage : string) (st : State) : State :=
  match sends st !! t with
  | Some s =>
      match send_phase s with
      | Settled | Finished => st
      | _ =>
          let st := publicLog2 "aideChatProviderInvoked" "error" st in
          let st := error "sendRequest" "Error while handling chat request" st in
          let st :=
            match send_request s with
            | Some rid =>
                let rawResult := {| errorDetails := Some {| message := errMessage;
                    responseIsIncomplete := None; responseIsFiltered := None |} |} in
                let st := onModel (send_model s) (setResponse rid rawResult) st in
                onModel (send_model s) (completeResponse rid) st
            | None => st
            end in
          onSend t (withPhase Settled) st
      end
  | None => st
  end.

(** The callback of [rawResponsePromise.finally(...)]. *)
Definition onSettled (t : nat) (st : State) : State :=
  match sends st !! t with
  | Some s =>
      match send_phase s with
      | Settled =>
          onSend t (withPhase Finished) (pending_deleteAndDispose (send_session s) st)
      | _ => st
      end
  | None => st
  end.

(** [cancelCurrentRequestForSession] *)
Definition cancelCurrentRequestForSession (sid : string) (st : State) : State :=
  let st := trace "cancelCurrentRequestForSession" "sessionId" st in
  let st := match pendingRequests st !! sid with
            | Some t => cancelTokenSource t st
            | None => st
            end in
  pending_deleteAndDispose sid st.

(** *** Session life cycle *)

(** [_startSession]: [new ChatModel(someSessionHistory, location)] takes
    identity, creation date and requests from the history when there is one;
    then [initializeSession] runs up to its first [await]. *)
Definition _startSession (someSessionHistory : option SerializableChatData)
    (freshSessionId : string) (now : Z) (location : AideChatAgentLocation) (st : State)
  : nat * State :=
  let model :=
    match someSessionHistory with
    | Some d => {| sessionId := p_sessionId d; initialLocation := location;
                   creationDate := default now (p_creationDate d);
                   requests := p_requests d; initState := Initializing |}
    | None => {| sessionId := freshSessionId; initialLocation := location;
                 creationDate := now; requests := []; initState := Initializing |}
    end in
  let '(ref, st) := fresh st in
  let st := upd_heap (insert ref model) st in
  let st := upd_sessionModels (om_set (sessionId model) ref) st in
  (ref, trace "initializeSession" "Initialize session" st).

Definition startSession (freshSessionId : string) (now : Z)
    (location : AideChatAgentLocation) (st : State) : nat * State :=
  _startSession None freshSessionId now location (trace "startSession" EmptyString st).

(** [getOrRestoreSession]; the location of the restored session is
    [sessionData.initialLocation ?? AideChatAgentLocation.Panel]. *)
Definition getOrRestoreSession (sid : string) (now : Z) (st : State) : option nat * State :=
  let st := trace "getOrRestoreSession" "sessionId" st in
  match om_get sid (sessionModels st) with
  | Some model => (Some model, st)
  | None =>
      match om_get sid (persistedSessions st) with
      | None => (None, st)
      | Some sessionData =>
          let '(ref, st) :=
            _startSession (Some sessionData) sid now
              (default Panel (p_initialLocation sessionData)) st in
          (Some ref, st)
      end
  end.

(** [initializeSession] after its [await]s: [model.initialize(...)] *)
Definition onInitialized (ref : nat) (st : State) : State :=
  match heap st !! ref with
  | Some m =>
      match initState m with
      | Initializing => onModel ref (withInitState Ready) st
      | _ => st
      end
  | None => st
  end.

(** [initializeSession], its [catch] block *)
Definition onInitializationFailed (ref : nat) (st : State) : State :=
  match heap st !! ref with
  | Some m =>
      match initState m with
      | Initializing =>
          let st := trace "startSession" "initializeSession failed" st in
          let st := onModel ref (withInitState Failed) st in
          upd_sessionModels (om_delete (sessionId m)) st
      | _ => st
      end
  | None => st
  end.

(** [clearSession] *)
Definition clearSession (sid : string) (st : State) : State * Completion unit :=
  let st := trace "clearSession" "sessionId" st in
  match om_get sid (sessionModels st) with
  | None => (st, Thrown "Unknown session")
  | Some ref =>
      let st :=
        match heap st !! ref with
        | Some m =>
            if decide (initialLocation m = Panel)
            then upd_persistedSessions (om_set sid (toJSON m)) st
            else st
        | None => st
        end in
      let st := upd_sessionModels (om_delete sid) st in
      let st := match pendingRequests st !! sid with
                | Some t => cancelTokenSource t st
                | None => st
                end in
      (pending_deleteAndDispose sid st, Returned ())
  end.

(** *** Persistence *)

Definition maxPersistedSessions : nat := 25.

(** [s.creationDate ?? 0] *)
Definition creationDateOrZero (s : SessionSnapshot) : Z :=
  match s with
  | LiveSession m => creationDate m
  | PersistedSession d => default 0 (p_creationDate d)
  end.

Definition snapshotRequests (s : SessionSnapshot) : list ChatRequestModel :=
  match s with
  | LiveSession m => requests m
  | PersistedSession d => p_requests d
  end.

Definition snapshotId (s : SessionSnapshot) : string :=
  match s with
  | LiveSession m => sessionId m
  | PersistedSession d => p_sessionId d
  end.

(** [Array.prototype.sort] is stable; with the comparator
    [(a, b) => (b.creationDate ?? 0) - (a.creationDate ?? 0)] an element stays
    in front of the later elements that are not newer. *)
Fixpoint sortInsert (a : SessionSnapshot) (sorted : list SessionSnapshot) : list SessionSnapshot :=
  match sorted with
  | [] => [a]
  | b :: rest =>
      if (creationDateOrZero b - creationDateOrZero a <=? 0)
      then a :: b :: rest
      else b :: sortInsert a rest
  end.

Definition sortByCreationDate (l : list SessionSnapshot) : list SessionSnapshot :=
  foldr sortInsert [] l.

(** [Array.from(this._sessionModels.values())] *)
Definition liveModels (st : State) : list ChatModel :=
  omap (fun ref => heap st !! ref) (om_values (sessionModels st)).

(** The sessions [saveState] collects before sorting. *)
Definition sessionsToPersist (st : State) : list SessionSnapshot :=
  (LiveSession <$>
     filter (fun session => (0 < length (requests session))%nat)
       (filter (fun session => initialLocation session = Panel) (liveModels st)))
  ++
  (PersistedSession <$>
     filter (fun session => length (p_requests session) ≠ 0%nat)
       (filter (fun session => om_has (p_sessionId session) (sessionModels st) = false)
          (om_values (persistedSessions st)))).

(** [saveState], the handler of [storageService.onWillSaveState] *)
Definition saveState (st : State) : State :=
  let allSessions := sessionsToPersist st in
  let allSessions := sortByCreationDate allSessions in
  let allSessions := take maxPersistedSessions allSessions in
  let st := match allSessions with
            | [] => st
            | _ => trace "onWillSaveState" "Persisting chars"
                     (trace "onWillSaveState" "Persisting sessions" st)
            end in
  upd_storage (fun _ => Some allSessions) st.

(** [hasSessions]: [!!Object.values(this._persistedSessions)].  [Object.values]
    gives an array with one element per entry (an element's content has no
    part in [ToBoolean]). *)
Definition objectValues {A} (table : list (string * A)) : JsValue :=
  JArray ((fun _ => JObject []) <$> table).

Definition hasSessions (st : State) : bool :=
  negb (negb (toBoolean (objectValues (persistedSessions st)))).

(** *** Restoring persisted sessions *)

(** What [JSON.parse(sessionData)] makes of the stored string. *)
Inductive ParseResult :=
  | SyntaxError
  | Parsed (v : JsValue).

(** The body of the [for (const request of session.requests)] loop: string
    responses become [MarkdownString]s. *)
Definition reviveResponse (request : JsValue) : Completion JsValue :=
  response ← getProp request "response";
  match response with
  | JArray parts =>
      Returned (setProp request "response"
        (JArray ((fun r => match r with JString s => JMarkdownString s | _ => r end) <$> parts)))
  | JString s => Returned (setProp request "response" (JArray [JMarkdownString s]))
  | _ => Returned request
  end.

(** One step of the [reduce]: the loop over the requests of the session (the
    requests are updated in place), then [acc[session.sessionId] = session]. *)
Definition reviveSession (acc : gmap string JsValue) (session : JsValue)
  : Completion (gmap string JsValue) :=
  requests ← getProp session "requests";
  elems ← iterate requests;
  elems ← mapM reviveResponse elems;
  let session := match requests with
                 | JArray _ => setProp session "requests" (JArray elems)
                 | _ => session
                 end in
  sid ← getProp session "sessionId";
  Returned (<[toString sid := session]> acc).

Fixpoint reduceSessions (arrayOfSessions : list JsValue) (acc : gmap string JsValue)
  : Completion (gmap string JsValue) :=
  match arrayOfSessions with
  | [] => Returned acc
  | session :: rest => acc ← reviveSession acc session; reduceSessions rest acc
  end.

(** The [try] block of [deserializeChats] *)
Definition deserializeChats_try (sessionData : ParseResult) : Completion (gmap string JsValue) :=
  match sessionData with
  | SyntaxError => Thrown "SyntaxError"
  | Parsed (JArray arrayOfSessions) => reduceSessions arrayOfSessions ∅
  | Parsed _ => Thrown "Expected array"
  end.

(** [deserializeChats]: the table of sessions and what it logs. *)
Definition deserializeChats (sessionData : ParseResult) : gmap string JsValue * list LogEntry :=
  match deserializeChats_try sessionData with
  | Returned sessions => (sessions, [])
  | Thrown err => (∅, [LogError "deserializeChats" ("Malformed session data: " +:+ err)])
  end.

(** The part of the constructor that restores [_persistedSessions];
    [None] stands for an absent or empty stored string. *)
Definition restorePersistedSessions (sessionData : option ParseResult)
  : gmap string JsValue * list LogEntry :=
  match sessionData with
  | Some data =>
      let '(sessions, logged) := deserializeChats data in
      if decide (size sessions = 0)%nat then (sessions, logged)
      else (sessions, LogTrace "constructor" "Restored persisted sessions" :: logged)
  | None => (∅, [])
  end.

(** ** The event system
    Every event is one uninterrupted piece of JavaScript: a call of a public
    method up to its first suspension, or the continuation of a suspended
    activation.  An event that is not enabled leaves the state alone.

    The events are those of starting, restoring, initializing and clearing a
    session, of a send from [sendRequest] to its [finally] callback, of
    [cancelCurrentRequestForSession] and of [saveState].  The methods
    [resendRequest], [adoptRequest], [loadSessionFromContent] and the
    transfer of a session are no events: they are modelled further down, each
    as a function on states of its own, and a theorem over [reachable] says
    nothing about the states after one of them. *)
Inductive Event :=
  | EStartSession (freshSessionId : string) (now : Z) (location : AideChatAgentLocation)
  | ERestoreSession (sid : string) (now : Z)
  | EInitialized (model : nat)
  | EInitializationFailed (model : nat)
  | ESendRequest (sid : string) (request : jsString) (options : option SendRequestOptions)
  | EResumeSendRequest (i : nat)
  | EActivated (t : nat)
  | EProgress (t : nat) (progress : ChatProgress)
  | EAgentReturned (t : nat) (agentResult : option AgentResult)
  | EAgentThrew (t : nat) (errMessage : string)
  | ESettled (t : nat)
  | ECancel (sid : string)
  | EClearSession (sid : string)
  | ESaveState.

Definition step (st : State) (e : Event) : State :=
  match e with
  | EStartSession sid now location => (startSession sid now location st).2
  | ERestoreSession sid now => (getOrRestoreSession sid now st).2
  | EInitialized model => onInitialized model st
  | EInitializationFailed model => onInitializationFailed model st
  | ESendRequest sid request options =>
      match sendRequest_begin sid request options st with
      | (st, Done _) => st
      | (st, Suspended call) => upd_awaiting (fun l => l ++ [call]) st
      end
  | EResumeSendRequest i =>
      match awaiting st !! i with
      | Some call =>
          match sendRequest_continue call (upd_awaiting (delete i) st) with
          | Some (st, _) => st
          | None => st
          end
      | None => st
      end
  | EActivated t => onActivated t st
  | EProgress t progress => progressCallback t progress st
  | EAgentReturned t agentResult => onAgentReturned t agentResult st
  | EAgentThrew t errMessage => onAgentThrew t errMessage st
  | ESettled t => onSettled t st
  | ECancel sid => cancelCurrentRequestForSession sid st
  | EClearSession sid => (clearSession sid st).1
  | ESaveState => saveState st
  end.

Definition run (st : State) (es : list Event) : State := foldl step st es.

(** The states the service reaches through the events above, starting with
    the given persisted sessions and no live session. *)
Definition reachable (st : State) : Prop :=
  ∃ persisted es, st = run (upd_persistedSessions (fun _ => persisted) initialState) es.

End Methods.

(** The token sources of pending operations of a session: those created for
    it and not yet disposed. *)
Definition pendingOperations (st : State) (sid : string) : list nat :=
  fst <$> filter (fun p => p.2 = sid ∧ p.1 ∉ disposed st) (tokenSources st).

End ChatService.

(* ===================================================================== *)
(** * Live edits: text models, LiveStrategy, ChatEditSessionService        *)
(* ===================================================================== *)

Module Editing.

(** [IRange]; line numbers and columns start at 1. *)
Record Range := {
  startLineNumber : Z;
  startColumn : Z;
  endLineNumber : Z;
  endColumn : Z;
}.

#[global] Instance Range_eq_dec : EqDecision Range.
Proof. solve_decision. Defined.

(** [Number.MAX_VALUE] *)
Definition Number_MAX_VALUE : Z := 2 ^ 1024 - 2 ^ 971.

(** [ISingleEditOperation] *)
Record SingleEditOperation := { range : Range; text : option string }.

(** [IValidEditOperation], an inverse edit as the text model reports it: its
    range covers the text that the edit put into the document (the strategy
    reads nothing but the range). *)
Record ValidEditOperation := { v_range : Range }.

(** Modelled from the spec: the class [LineRange] of the editor is not among
    the sources.  A [LineRange] holds the lines from its [startLineNumber] up
    to, but not including, its [endLineNumberExclusive] (the field that
    [_updateSummaryMessage] reads), and [LineRange.fromRange(r)] is
    [new LineRange(r.startLineNumber, r.endLineNumber)]: [forEach] visits the
    lines [r.startLineNumber <= line < r.endLineNumber], so the last line of
    [r] is left out and a range within one line has no line at all. *)
Definition lineRangeOf (r : Range) : list Z :=
  seqZ (startLineNumber r) (endLineNumber r - startLineNumber r).

(** ** The text model and its editor
    [ITextModel] and [ICodeEditor] belong to the editor, which is not among
    the sources; the strategy uses them through this interface.  An undo takes
    an element off a finite undo stack, which is what [undo_pops] records. *)
Class TextModel (D : Type) := {
  getAlternativeVersionId : D -> Z;
  canUndo : D -> bool;
  undo : D -> D;
  isDisposed : D -> bool;
  pushUndoStop : D -> D;
  (** [editor.executeEdits(source, edits, cb)]: the edited document and the
      inverse edits handed to [cb] *)
  executeEdits : list SingleEditOperation -> D -> D * list ValidEditOperation;
  (** [performAsyncTextEdit(model, asProgressiveEdit(edit, ...), progress)]:
      the edited document and the inverse edits of each part, as they are
      reported to [progress] *)
  performAsyncTextEdit : SingleEditOperation -> D -> D * list (list ValidEditOperation);
  undoStackDepth : D -> nat;
  undo_pops : forall d, canUndo d = true -> (undoStackDepth (undo d) < undoStackDepth d)%nat;
}.

Definition inspect {A} (a : A) : {b | a = b} := exist _ a eq_refl.

Section Strategy.
Context {D : Type} `{TextModel D}.

(** [undoModelUntil] *)
Equations undoModelUntil (model : D) (targetAltVersion : Z) : D
  by wf (undoStackDepth model) lt :=
  undoModelUntil model targetAltVersion
    with inspect ((targetAltVersion <? getAlternativeVersionId model) && canUndo model) := {
    | exist _ true Hcond => undoModelUntil (undo model) targetAltVersion
    | exist _ false Hstop => model
    }.
Next Obligation.
  apply undo_pops. apply andb_true_iff in Hcond. tauto.
Qed.

(** The state of a [LiveStrategy]: the fields of [_models] it reads
    ([textModelN] is the document handed to its methods), the edit counter
    and the decorations collection with the current range of each
    decoration. *)
Record LiveStrategy := {
  textModelNAltVersion : Z;
  textModelNSnapshotAltVersion : option Z;
  _editCount : nat;
  _progressiveEditingDecorations : list Range;
}.

(** [getTextModels] on first touch, then [new LiveStrategy(...)] *)
Definition newLiveStrategy (textModelN : D) : LiveStrategy :=
  {| textModelNAltVersion := getAlternativeVersionId textModelN;
     textModelNSnapshotAltVersion := None;
     _editCount := 0;
     _progressiveEditingDecorations := [] |}.

Definition withDecorations (f : list Range -> list Range) (s : LiveStrategy) : LiveStrategy :=
  {| textModelNAltVersion := textModelNAltVersion s;
     textModelNSnapshotAltVersion := textModelNSnapshotAltVersion s;
     _editCount := _editCount s;
     _progressiveEditingDecorations := f (_progressiveEditingDecorations s) |}.

Definition withEditCount (n : nat) (s : LiveStrategy) : LiveStrategy :=
  {| textModelNAltVersion := textModelNAltVersion s;
     textModelNSnapshotAltVersion := textModelNSnapshotAltVersion s;
     _editCount := n;
     _progressiveEditingDecorations := _progressiveEditingDecorations s |}.

(** [_resetDiff] (the context keys and the render store hold no state that
    the strategy reads back) *)
Definition _resetDiff : LiveStrategy -> LiveStrategy := withDecorations (fun _ => []).

(** [Set.prototype.add] and [Set.prototype.delete] on a [Set<number>], which
    keeps insertion order *)
Definition setAdd (line : Z) (lines : list Z) : list Z :=
  if decide (line ∈ lines) then lines else lines ++ [line].
Definition setDelete (line : Z) (lines : list Z) : list Z :=
  filter (fun l => l ≠ line) lines.

(** The callback of the [Progress] object in [_makeChanges]. *)
Definition reportProgress (edits : list ValidEditOperation) (s : LiveStrategy) : LiveStrategy :=
  let newLines :=
    foldl (fun newLines edit => foldl (fun ls line => setAdd line ls) newLines (lineRangeOf (v_range edit)))
          [] edits in
  let existingRanges := lineRangeOf <$> _progressiveEditingDecorations s in
  let newLines :=
    foldl (fun newLines existingRange => foldl (fun ls line => setDelete line ls) newLines existingRange)
          newLines existingRanges in
  let newDecorations :=
    (fun line => {| startLineNumber := line; startColumn := 1;
                    endLineNumber := line; endColumn := Number_MAX_VALUE |}) <$> newLines in
  withDecorations (fun ds => ds ++ newDecorations) s.

(** [ProgressingEditsOptions]; the duration only sets the typing speed. *)
Record ProgressingEditsOptions := { duration : Z }.

(** [_makeChanges] *)
Definition _makeChanges (edits : list SingleEditOperation)
    (opts : option ProgressingEditsOptions) (s : LiveStrategy) (textModelN : D)
  : LiveStrategy * D :=
  (* push undo stop before first edit *)
  let s := withEditCount (S (_editCount s)) s in
  let textModelN := if decide (_editCount s = 1%nat) then pushUndoStop textModelN else textModelN in
  match opts with
  | Some _ =>
      (* ASYNC *)
      foldl (fun '(s, d) edit =>
               let '(d, reports) := performAsyncTextEdit edit d in
               (foldl (fun s undoEdits => reportProgress undoEdits s) s reports, d))
            (s, textModelN) edits
  | None =>
      (* SYNC *)
      let '(d, undoEdits) := executeEdits edits textModelN in
      (reportProgress undoEdits s, d)
  end.

Definition makeChanges (edits : list SingleEditOperation) :=
  _makeChanges edits None.
Definition makeProgressiveChanges (edits : list SingleEditOperation) (opts : ProgressingEditsOptions) :=
  _makeChanges edits (Some opts).

(** [apply] *)
Definition apply (s : LiveStrategy) (textModelN : D) : LiveStrategy * D :=
  let s := _resetDiff s in
  (s, if decide (0 < _editCount s)%nat then pushUndoStop textModelN else textModelN).

(** [cancel] *)
Definition cancel (s : LiveStrategy) (textModelN : D) : LiveStrategy * D :=
  let s := _resetDiff s in
  if isDisposed textModelN then (s, textModelN)
  else
    let targetAltVersion := default (textModelNAltVersion s) (textModelNSnapshotAltVersion s) in
    (s, undoModelUntil textModelN targetAltVersion).

(** [undoChanges] *)
Definition undoChanges (altVersionId : Z) (s : LiveStrategy) (textModelN : D) : LiveStrategy * D :=
  (s, undoModelUntil textModelN altVersionId).

(** The reports that the progress callback of [_makeChanges] receives while a
    batch is applied, in their order: one report for a synchronous batch, one
    for every part of every edit of a progressive batch. *)
Fixpoint asyncReports (edits : list SingleEditOperation) (textModelN : D)
  : list (list ValidEditOperation) :=
  match edits with
  | [] => []
  | edit :: rest =>
      let '(d, reports) := performAsyncTextEdit edit textModelN in
      reports ++ asyncReports rest d
  end.

Definition progressReports (edits : list SingleEditOperation)
    (opts : option ProgressingEditsOptions) (s : LiveStrategy) (textModelN : D)
  : list (list ValidEditOperation) :=
  let textModelN := if decide (S (_editCount s) = 1%nat) then pushUndoStop textModelN else textModelN in
  match opts with
  | Some _ => asyncReports edits textModelN
  | None => [(executeEdits edits textModelN).2]
  end.

(** [new Range(line, 1, line, Number.MAX_VALUE)], the range of the decoration
    that the progress callback makes for [line] *)
Definition lineDecoration (line : Z) : Range :=
  {| startLineNumber := line; startColumn := 1;
     endLineNumber := line; endColumn := Number_MAX_VALUE |}.

(** The line numbers that the ranges of a list of reported edits cover, from
    the first line of each range to its last. *)
Definition touchedLines (edits : list ValidEditOperation) : list Z :=
  edits ≫= (fun e => seqZ (startLineNumber (v_range e))
                          (endLineNumber (v_range e) + 1 - startLineNumber (v_range e))).

(** The line numbers that carry a decoration, one entry per decoration. *)
Definition decoratedLines (s : LiveStrategy) : list Z :=
  startLineNumber <$> _progressiveEditingDecorations s.

End Strategy.

(** ** A text model with an undo stack

    Modelled from the spec: the text buffer of the editor (the
    VersionedDocumentHandle of section 2, with the document handle contract of
    section 6) is not among the sources.  The document is a list of lines with
    a version counter and an alternate-version counter; an edit starts a new
    element of the undo stack unless the top element is still open, and an
    undo restores the lines and the alternate-version id recorded in the
    element it takes off the stack. *)

Record EditStackElement := {
  beforeLines : list string;
  beforeAltVersionId : Z;
}.

Record Document := {
  lines : list string;
  versionId : Z;
  alternativeVersionId : Z;
  undoStack : list EditStackElement;
  undoStackOpen : bool;          (* no undo stop since the top element was made *)
  disposed : bool;
}.

Fixpoint splitLines (s : string) : list string :=
  match s with
  | EmptyString => [EmptyString]
  | String c s' =>
      if decide (c = "010"%char) then EmptyString :: splitLines s'
      else match splitLines s' with
           | l :: ls => String c l :: ls
           | [] => [String c EmptyString]
           end
  end.

(** Replace the text of [range e] by [text e]; also the range of the new text. *)
Definition applyEdit (e : SingleEditOperation) (ls : list string)
  : list string * ValidEditOperation :=
  let r := range e in
  let txt := default EmptyString (text e) in
  let sl := Z.to_nat (startLineNumber r) in
  let el := Z.to_nat (endLineNumber r) in
  let sc := Z.to_nat (startColumn r) in
  let ec := Z.to_nat (endColumn r) in
  let firstLine := default EmptyString (ls !! (sl - 1)%nat) in
  let lastLine := default EmptyString (ls !! (el - 1)%nat) in
  let prefix := String.substring 0 (sc - 1) firstLine in
  let suffix := String.substring (ec - 1) (String.length lastLine - (ec - 1)) lastLine in
  let new := splitLines txt in
  let inserted := splitLines (prefix +:+ txt +:+ suffix) in
  let endLine := (startLineNumber r + Z.of_nat (length new) - 1)%Z in
  let endCol :=
    match new with
    | [_] => (startColumn r + Z.of_nat (String.length txt))%Z
    | _ => (Z.of_nat (String.length (default EmptyString (last new))) + 1)%Z
    end in
  (take (sl - 1) ls ++ inserted ++ drop el ls,
   {| v_range := {| startLineNumber := startLineNumber r; startColumn := startColumn r;
                    endLineNumber := endLine; endColumn := endCol |} |}).

Definition doc_executeEdits (edits : list SingleEditOperation) (d : Document)
  : Document * list ValidEditOperation :=
  let '(ls, undoEdits) :=
    foldl (fun '(ls, acc) e => let '(ls, v) := applyEdit e ls in (ls, acc ++ [v]))
          (lines d, []) edits in
  let stack :=
    match undoStackOpen d, undoStack d with
    | true, _ :: _ => undoStack d
    | _, _ => {| beforeLines := lines d; beforeAltVersionId := alternativeVersionId d |} :: undoStack d
    end in
  let version := match edits with [] => versionId d | _ => (versionId d + 1)%Z end in
  let alt := match edits with [] => alternativeVersionId d | _ => version end in
  ({| lines := ls; versionId := version; alternativeVersionId := alt;
      undoStack := stack; undoStackOpen := true; disposed := disposed d |},
   undoEdits).

Definition doc_pushUndoStop (d : Document) : Document :=
  {| lines := lines d; versionId := versionId d; alternativeVersionId := alternativeVersionId d;
     undoStack := undoStack d; undoStackOpen := false; disposed := disposed d |}.

Definition doc_canUndo (d : Document) : bool :=
  match undoStack d with [] => false | _ => true end.

Definition doc_undo (d : Document) : Document :=
  match undoStack d with
  | [] => d
  | e :: rest =>
      {| lines := beforeLines e; versionId := (versionId d + 1)%Z;
         alternativeVersionId := beforeAltVersionId e;
         undoStack := rest; undoStackOpen := false; disposed := disposed d |}
  end.

(** The progressive edit of the model types the text out in parts; here it
    arrives as a single part. *)
Definition doc_performAsyncTextEdit (e : SingleEditOperation) (d : Document)
  : Document * list (list ValidEditOperation) :=
  let '(d, undoEdits) := doc_executeEdits [e] d in (d, [undoEdits]).

Lemma doc_undo_pops (d : Document) :
  doc_canUndo d = true -> (length (undoStack (doc_undo d)) < length (undoStack d))%nat.
Proof.
  unfold doc_canUndo, doc_undo. destruct (undoStack d); [discriminate | simpl; lia].
Qed.

#[global] Instance Document_TextModel : TextModel Document := {|
  getAlternativeVersionId := alternativeVersionId;
  canUndo := doc_canUndo;
  undo := doc_undo;
  isDisposed := disposed;
  pushUndoStop := doc_pushUndoStop;
  executeEdits := doc_executeEdits;
  performAsyncTextEdit := doc_performAsyncTextEdit;
  undoStackDepth := fun d => length (undoStack d);
  undo_pops := doc_undo_pops;
|}.

(** ** ChatEditSessionService *)

(** [ICSChatAgentEditRequest] and the entries of its [context] *)
Record CodeblockContext := { code : string; codeBlockIndex : Z }.
Record EditRequest := { context : list CodeblockContext }.

(** [IChatResponseViewModel], the fields the service reads *)
Record ResponseViewModel := { vm_id : string; vm_sessionId : string }.

Section Service.
Context {D : Type} `{TextModel D}.

Record ServiceState := {
  activeResponse : option ResponseViewModel;
  editResponseIdInProgress : string;         (* context key, [''] when reset *)
  editCodeblockInProgress : Z;               (* context key, [-1] when reset *)
  pendingRequests : gmap string nat;         (* [_pendingRequests]: session id to promise *)
  textModels : gmap string (D * Z);          (* per URI: [textModel0] and [textModelNAltVersion] *)
  editStrategies : gmap string LiveStrategy; (* per URI *)
  documents : gmap string D;                 (* the live text models, per URI *)
  (** the calls of [recordEdits] on response view models:
      response id, codeblock index, whether a summary was passed *)
  recordedEdits : list (string * Z * bool);
  log : list LogEntry;
  nextPromise : nat;
}.

Definition withLog (e : LogEntry) (st : ServiceState) : ServiceState :=
  {| activeResponse := activeResponse st; editResponseIdInProgress := editResponseIdInProgress st;
     editCodeblockInProgress := editCodeblockInProgress st; pendingRequests := pendingRequests st;
     textModels := textModels st; editStrategies := editStrategies st; documents := documents st;
     recordedEdits := recordedEdits st; log := e :: log st; nextPromise := nextPromise st |}.

(** [_sendEditRequestAsync] up to its [return]: the cancelable promise is
    created (its executor runs to [await makeEdits]) and registered. *)
Definition _sendEditRequestAsync (responseVM : ResponseViewModel) (st : ServiceState)
  : nat * ServiceState :=
  let rawResponsePromise := nextPromise st in
  (rawResponsePromise,
   {| activeResponse := activeResponse st; editResponseIdInProgress := editResponseIdInProgress st;
      editCodeblockInProgress := editCodeblockInProgress st;
      pendingRequests := <[vm_sessionId responseVM := rawResponsePromise]> (pendingRequests st);
      textModels := textModels st; editStrategies := editStrategies st; documents := documents st;
      recordedEdits := recordedEdits st; log := log st; nextPromise := S (nextPromise st) |}).

(** The callback of [rawResponsePromise.finally(...)] *)
Definition onEditRequestSettled (responseVM : ResponseViewModel) (st : ServiceState) : ServiceState :=
  {| activeResponse := activeResponse st; editResponseIdInProgress := editResponseIdInProgress st;
     editCodeblockInProgress := editCodeblockInProgress st;
     pendingRequests := delete (vm_sessionId responseVM) (pendingRequests st);
     textModels := textModels st; editStrategies := editStrategies st; documents := documents st;
     recordedEdits := recordedEdits st; log := log st; nextPromise := nextPromise st |}.

(** [sendEditRequest]; the result is the [responseCompletePromise], or
    [None] for [undefined]. *)
Definition sendEditRequest (responseVM : ResponseViewModel) (request : EditRequest)
    (st : ServiceState) : ServiceState * option nat :=
  match context request with
  | [ctx] =>
      let st :=
        {| activeResponse := Some responseVM;
           editResponseIdInProgress := vm_id responseVM;
           editCodeblockInProgress := codeBlockIndex ctx;
           pendingRequests := pendingRequests st;
           textModels := textModels st; editStrategies := editStrategies st;
           documents := documents st;
           recordedEdits := (vm_id responseVM, codeBlockIndex ctx, false) :: recordedEdits st;
           log := log st; nextPromise := nextPromise st |} in
      match pendingRequests st !! vm_sessionId responseVM with
      | Some _ =>
          (withLog (LogTrace "sendRequest" "Session already has a pending request") st, None)
      | None =>
          let '(responseCompletePromise, st) := _sendEditRequestAsync responseVM st in
          (st, Some responseCompletePromise)
      end
  | _ =>
      (withLog (LogError "sendRequest" "Expected exactly one context") st, None)
  end.

End Service.

End Editing.

(* ===================================================================== *)
(** * Properties                                                           *)
(* ===================================================================== *)

Import ChatService.

(** ** Strings *)

Lemma trimStart_whitespace (s : jsString) :
  Forall (fun c => isWhiteSpaceOrLineTerminator c = true) s -> trimStart s = [].
Proof.
  induction 1 as [| c s Hc _ IH]; simpl; [done |]. by rewrite Hc.
Qed.

Lemma trim_whitespace (s : jsString) :
  Forall (fun c => isWhiteSpaceOrLineTerminator c = true) s -> trim s = [].
Proof.
  intros Hs. unfold trim, trimEnd. by rewrite (trimStart_whitespace s Hs).
Qed.

(** ** Blank requests *)

(** The fields of the service state that hold sessions, requests, pending
    operations and sends. *)
Definition sameSessions (st st' : State) : Prop :=
  heap st' = heap st ∧ sessionModels st' = sessionModels st ∧
  pendingRequests st' = pendingRequests st ∧ tokenSources st' = tokenSources st ∧
  disposed st' = disposed st ∧ cancelled st' = cancelled st ∧
  sends st' = sends st ∧ awaiting st' = awaiting st ∧
  persistedSessions st' = persistedSessions st ∧ storage st' = storage st.

(** C3. A request text that consists of whitespace only (the empty text
    included) makes [sendRequest] return [undefined] at once, in every state
    and for every session id: the call writes two trace lines and nothing
    else, so no Request and no pending operation comes into being. *)
Theorem sendRequest_blank (svc : Services) (st : State) (sid : string) (request : jsString)
    (options : option SendRequestOptions) :
  Forall (fun c => isWhiteSpaceOrLineTerminator c = true) request ->
  ∃ st', sendRequest svc sid request options st = Some (st', Returned None) ∧
         sendRequest_begin sid request options st = (st', Done (Returned None)) ∧
         sameSessions st st' ∧
         log st' = LogTrace "sendRequest" "Rejected empty message" ::
                   LogTrace "sendRequest" "sessionId, message" :: log st.
Proof.
  intros Hblank.
  unfold sendRequest, sendRequest_begin.
  rewrite (trim_whitespace request Hblank). simpl.
  eexists. repeat split; reflexivity.
Qed.

Lemma sendRequest_blank_witness :
  ∃ st', sendRequest
           {| getAgent := fun _ => None; getDefaultAgent := fun _ => None;
              hasCommand := fun _ => false;
              parser := fun _ t _ _ => {| text := t; agentPart := None;
                                          agentSubcommandPart := None; slashCommandPart := None |} |}
           "s1" [32%N; 32%N; 32%N] None initialState = Some (st', Returned None) ∧
         sendRequest_begin "s1" [32%N; 32%N; 32%N] None initialState = (st', Done (Returned None)) ∧
         sameSessions initialState st' ∧
         log st' = LogTrace "sendRequest" "Rejected empty message" ::
                   LogTrace "sendRequest" "sessionId, message" :: log initialState.
Proof.
  apply sendRequest_blank. repeat constructor.
Defined.

(** ** hasSessions *)

(** C10. [hasSessions] answers [true] in every state of the service, also
    when the table of persisted sessions is empty: [Object.values] gives an
    array, and every array is truthy. *)
Theorem hasSessions_always (st : State) :
  hasSessions st = true ∧
  (persistedSessions st = [] -> hasSessions st = true) ∧
  hasSessions initialState = true.
Proof. repeat split. Qed.

(** ** Edit requests without exactly one context *)

(** C9. An edit request whose context list does not have exactly one element
    makes [sendEditRequest] log an error and return [undefined]; the log line
    is the only change of the service state, so no pending edit request, no
    strategy, no text-model snapshot and no call of [recordEdits] is added and
    no document is changed. *)
Theorem sendEditRequest_context {D : Type}
    (responseVM : Editing.ResponseViewModel) (request : Editing.EditRequest)
    (st : @Editing.ServiceState D) :
  length (Editing.context request) ≠ 1%nat ->
  Editing.sendEditRequest responseVM request st =
    (Editing.withLog (LogError "sendRequest" "Expected exactly one context") st, None) ∧
  let st' := (Editing.sendEditRequest responseVM request st).1 in
  Editing.pendingRequests st' = Editing.pendingRequests st ∧
  Editing.editStrategies st' = Editing.editStrategies st ∧
  Editing.textModels st' = Editing.textModels st ∧
  Editing.documents st' = Editing.documents st ∧
  Editing.recordedEdits st' = Editing.recordedEdits st ∧
  Editing.activeResponse st' = Editing.activeResponse st ∧
  Editing.editResponseIdInProgress st' = Editing.editResponseIdInProgress st ∧
  Editing.editCodeblockInProgress st' = Editing.editCodeblockInProgress st.
Proof.
  intros Hlen. unfold Editing.sendEditRequest.
  destruct (Editing.context request) as [| c [| c' rest]]; simpl in *; try done.
Qed.

Definition emptyEditService : @Editing.ServiceState Editing.Document :=
  {| Editing.activeResponse := None; Editing.editResponseIdInProgress := EmptyString;
     Editing.editCodeblockInProgress := -1; Editing.pendingRequests := ∅;
     Editing.textModels := ∅; Editing.editStrategies := ∅; Editing.documents := ∅;
     Editing.recordedEdits := []; Editing.log := []; Editing.nextPromise := 0 |}.

Lemma sendEditRequest_context_witness :
  Editing.sendEditRequest {| Editing.vm_id := "r1"; Editing.vm_sessionId := "s1" |}
    {| Editing.context := [] |} emptyEditService =
  (Editing.withLog (LogError "sendRequest" "Expected exactly one context") emptyEditService, None).
Proof.
  apply (sendEditRequest_context {| Editing.vm_id := "r1"; Editing.vm_sessionId := "s1" |}
           {| Editing.context := [] |} emptyEditService).
  simpl. lia.
Defined.

(** ** Completion of the agent *)

(** The response of request [rid] of the model at [ref]. *)
Definition responseOf (st : State) (ref rid : nat) : option ChatResponseModel :=
  m ← heap st !! ref; r ← getRequest rid m; Some (response r).




#[local] Arguments onResponse : simpl never.

Lemma getRequest_onResponse (rid : nat) (f : ChatResponseModel -> ChatResponseModel)
    (m : ChatModel) (r : ChatRequestModel) :
  getRequest rid m = Some r ->
  getRequest rid (onResponse rid f m) = Some (withResponse f r).
Proof.
  unfold getRequest, onResponse. destruct m as [sid loc date rs ini]. simpl.
  induction rs as [| r0 rs IH]; simpl; [done |].
  destruct (decide (id r0 = rid)) as [Heq | Hne].
  - simpl. rewrite !bool_decide_eq_true_2 by done. by intros [= ->].
  - rewrite !bool_decide_eq_false_2 by done. exact IH.
Qed.

Lemma responseOf_onModel (st : State) (ref rid : nat)
    (f : ChatResponseModel -> ChatResponseModel) (resp : ChatResponseModel) :
  responseOf st ref rid = Some resp ->
  responseOf (onModel ref (onResponse rid f) st) ref rid = Some (f resp).
Proof.
  unfold responseOf, onModel. simpl.
  destruct (heap st !! ref) as [m |] eqn:Hm; simpl; [| done].
  destruct (getRequest rid m) as [r |] eqn:Hr; simpl; [| done].
  intros [= <-]. rewrite lookup_alter_eq, Hm. simpl.
  by rewrite (getRequest_onResponse rid f m r Hr).
Qed.




(** A dispatcher with one default agent and a parser that finds no parts. *)
Definition agent0 : ChatAgent := {| agent_id := "aide"; agent_name := [97%N] |}.

Definition svc0 : Services :=
  {| getAgent := fun _ => None;
     getDefaultAgent := fun _ => Some agent0;
     hasCommand := fun _ => false;
     parser := fun _ t _ _ => {| text := t; agentPart := None;
                                 agentSubcommandPart := None; slashCommandPart := None |} |}.

(** The text [hello] *)
Definition hello : jsString := [104%N; 101%N; 108%N; 108%N; 111%N].

(** Session [s1] is started and initialized, [hello] is sent and accepted
    (token source 1), the agent is activated (request 2) and reports one
    fragment. *)
Definition helloInFlight : State :=
  run svc0 initialState
    [EStartSession "s1" 100 Panel; EInitialized 0; ESendRequest "s1" hello None;
     EResumeSendRequest 0; EActivated 1; EProgress 1 (MarkdownContent "hi")].

Definition okResult : AgentResult := {| errorDetails := None |}.



(** ** Restoring persisted sessions *)












(** ** Decorations of a live strategy *)

Section Decorations.
Import Editing.
Context {D : Type} `{TextModel D}.

Lemma setAdd_spec (line : Z) (ls : list Z) :
  NoDup ls -> NoDup (setAdd line ls) ∧ ∀ x, x ∈ setAdd line ls ↔ x = line ∨ x ∈ ls.
Proof.
  intros Hnd. unfold setAdd. destruct (decide (line ∈ ls)) as [Hin | Hnin].
  - split; [done |]. intros x. split; [tauto |]. intros [-> | Hx]; done.
  - split.
    + apply NoDup_app. repeat split; [done | | apply NoDup_singleton].
      intros x Hx Hx'. apply list_elem_of_singleton in Hx'. by subst.
    + intros x. rewrite elem_of_app, list_elem_of_singleton. tauto.
Qed.

Lemma setAdd_fold (lines acc : list Z) :
  NoDup acc ->
  NoDup (foldl (fun ls line => setAdd line ls) acc lines) ∧
  ∀ x, x ∈ foldl (fun ls line => setAdd line ls) acc lines ↔ x ∈ acc ∨ x ∈ lines.
Proof.
  revert acc. induction lines as [| l lines IH]; intros acc Hnd; simpl.
  - split; [done |]. intros x. rewrite elem_of_nil. tauto.
  - destruct (setAdd_spec l acc Hnd) as [Hnd' Hin'].
    destruct (IH _ Hnd') as [Hnd'' Hin'']. split; [done |].
    intros x. rewrite Hin'', Hin', elem_of_cons. tauto.
Qed.

(** The lines that the callback visits in a report: for each of its ranges,
    those from the first line up to, not including, the last. *)
Definition visits (edits : list ValidEditOperation) (x : Z) : Prop :=
  ∃ e, e ∈ edits ∧ startLineNumber (v_range e) <= x < endLineNumber (v_range e).

Lemma lineRangeOf_spec (r : Range) (x : Z) :
  x ∈ lineRangeOf r ↔ startLineNumber r <= x < endLineNumber r.
Proof. unfold lineRangeOf. rewrite elem_of_seqZ. lia. Qed.

Lemma newLines_fold (edits : list ValidEditOperation) (acc : list Z) :
  NoDup acc ->
  let newLines :=
    foldl (fun newLines edit =>
             foldl (fun ls line => setAdd line ls) newLines (lineRangeOf (v_range edit)))
          acc edits in
  NoDup newLines ∧ ∀ x, x ∈ newLines ↔ x ∈ acc ∨ visits edits x.
Proof.
  revert acc. induction edits as [| e edits IH]; intros acc Hnd; simpl.
  - split; [done |]. intros x. split; [tauto |].
    intros [Hx | (e & He & _)]; [done |]. by apply elem_of_nil in He.
  - destruct (setAdd_fold (lineRangeOf (v_range e)) acc Hnd) as [Hnd' Hin'].
    destruct (IH _ Hnd') as [Hnd'' Hin'']. split; [exact Hnd'' |].
    intros x. rewrite Hin'', Hin', lineRangeOf_spec. unfold visits. split.
    + intros [[Hx | Hx] | (e' & He' & Hx)].
      * by left.
      * right. exists e. split; [apply elem_of_cons; by left | exact Hx].
      * right. exists e'. split; [apply elem_of_cons; by right | exact Hx].
    + intros [Hx | (e' & He' & Hx)]; [by left; left |].
      apply elem_of_cons in He' as [-> | He'].
      * left. by right.
      * right. by exists e'.
Qed.

(** The range of a line decoration has no line for [forEach] to visit, so the
    decorations that are there take nothing out of the new lines. *)
Lemma existing_fold (ls newLines : list Z) :
  foldl (fun newLines existingRange =>
           foldl (fun ls line => setDelete line ls) newLines existingRange)
        newLines (lineRangeOf <$> (lineDecoration <$> ls)) = newLines.
Proof.
  induction ls as [| l ls IH]; simpl; [done |].
  unfold lineRangeOf at 1. simpl. replace (l - l) with 0 by lia. exact IH.
Qed.

(** What one report adds to the decorations. *)
Definition added (newLines : list Z) (edits : list ValidEditOperation) : Prop :=
  NoDup newLines ∧ ∀ x, x ∈ newLines ↔ visits edits x.

Lemma reportProgress_appends (edits : list ValidEditOperation) (s : LiveStrategy) (ls : list Z) :
  _progressiveEditingDecorations s = lineDecoration <$> ls ->
  ∃ newLines,
    _progressiveEditingDecorations (reportProgress edits s) = lineDecoration <$> (ls ++ newLines) ∧
    added newLines edits.
Proof.
  intros Hds. unfold reportProgress.
  destruct (newLines_fold edits [] (NoDup_nil_2)) as [Hnd Hin].
  set (newLines := foldl _ [] edits) in *.
  exists newLines. split.
  - simpl. rewrite Hds, existing_fold, fmap_app. reflexivity.
  - split; [exact Hnd |]. intros x. rewrite Hin, elem_of_nil. tauto.
Qed.

Lemma reports_fold (reports : list (list ValidEditOperation)) (s : LiveStrategy) (ls : list Z) :
  _progressiveEditingDecorations s = lineDecoration <$> ls ->
  ∃ lss,
    _progressiveEditingDecorations (foldl (fun s undoEdits => reportProgress undoEdits s) s reports)
      = lineDecoration <$> (ls ++ mjoin lss) ∧
    Forall2 added lss reports.
Proof.
  revert s ls. induction reports as [| r reports IH]; intros s ls Hds; simpl.
  - exists []. simpl. rewrite app_nil_r. split; [exact Hds | constructor].
  - destruct (reportProgress_appends r s ls Hds) as (newLines & Hds' & Hadded).
    destruct (IH _ _ Hds') as (lss & Hds'' & Hall).
    exists (newLines :: lss). simpl. rewrite Hds'', <- app_assoc. split; [done |].
    by constructor.
Qed.

Lemma async_fold (edits : list SingleEditOperation) (s : LiveStrategy) (d : D) (ls : list Z) :
  _progressiveEditingDecorations s = lineDecoration <$> ls ->
  ∃ lss,
    _progressiveEditingDecorations
      (foldl (fun '(s, d) edit =>
                let '(d, reports) := performAsyncTextEdit edit d in
                (foldl (fun s undoEdits => reportProgress undoEdits s) s reports, d))
             (s, d) edits).1
      = lineDecoration <$> (ls ++ mjoin lss) ∧
    Forall2 added lss (asyncReports edits d).
Proof.
  revert s d ls. induction edits as [| e edits IH]; intros s d ls Hds; simpl.
  - exists []. simpl. rewrite app_nil_r. split; [exact Hds | constructor].
  - destruct (performAsyncTextEdit e d) as [d' reports].
    destruct (reports_fold reports s ls Hds) as (lss1 & Hds' & Hall1).
    destruct (IH _ d' _ Hds') as (lss2 & Hds'' & Hall2).
    exists (lss1 ++ lss2). rewrite Hds'', join_app, app_assoc. split; [done |].
    by apply Forall2_app.
Qed.

(** A batch of edits takes no decoration away and appends, for each report
    of the editor, one decoration for every line that the report visits,
    whether or not the line is decorated already. *)
Lemma makeChanges_decorations (edits : list SingleEditOperation)
    (opts : option ProgressingEditsOptions) (s : LiveStrategy) (d : D) (ls : list Z) :
  _progressiveEditingDecorations s = lineDecoration <$> ls ->
  ∃ lss,
    _progressiveEditingDecorations (_makeChanges edits opts s d).1
      = lineDecoration <$> (ls ++ mjoin lss) ∧
    Forall2 added lss (progressReports edits opts s d).
Proof.
  intros Hds. unfold _makeChanges, progressReports. simpl.
  destruct opts as [o |].
  - apply (async_fold edits (withEditCount (S (_editCount s)) s)). exact Hds.
  - destruct (executeEdits edits _) as [d' undoEdits]. simpl.
    destruct (reportProgress_appends undoEdits (withEditCount (S (_editCount s)) s) ls Hds)
      as (newLines & Hds' & Hadded).
    exists [newLines]. simpl. rewrite app_nil_r. split; [exact Hds' |].
    constructor; [exact Hadded | constructor].
Qed.

(** Two batches applied through one strategy: the decorations are those of
    the reports of the first batch followed by those of the reports of the
    second, each report with the lines it visits. *)
Lemma two_batches_decorations (d0 : D) (edits1 edits2 : list SingleEditOperation)
    (opts1 opts2 : option ProgressingEditsOptions) :
  let s0 := newLiveStrategy d0 in
  let s1 := (_makeChanges edits1 opts1 s0 d0).1 in
  let d1 := (_makeChanges edits1 opts1 s0 d0).2 in
  let s2 := (_makeChanges edits2 opts2 s1 d1).1 in
  ∃ lss1 lss2,
    _progressiveEditingDecorations s2 = lineDecoration <$> (mjoin lss1 ++ mjoin lss2) ∧
    Forall2 added lss1 (progressReports edits1 opts1 s0 d0) ∧
    Forall2 added lss2 (progressReports edits2 opts2 s1 d1).
Proof.
  intros s0 s1 d1 s2.
  destruct (makeChanges_decorations edits1 opts1 s0 d0 [] eq_refl) as (lss1 & Hds1 & Hall1).
  destruct (makeChanges_decorations edits2 opts2 s1 d1 _ Hds1) as (lss2 & Hds2 & Hall2).
  exists lss1, lss2. done.
Qed.

End Decorations.

(** A document of three lines, and the edit that writes three lines over
    them. *)
Definition threeLines : Editing.Document :=
  {| Editing.lines := ["a"; "b"; "c"]; Editing.versionId := 1;
     Editing.alternativeVersionId := 1; Editing.undoStack := [];
     Editing.undoStackOpen := false; Editing.disposed := false |}.

Definition newline : string := String "010"%char EmptyString.

Definition rewriteThree : Editing.SingleEditOperation :=
  {| Editing.range := {| Editing.startLineNumber := 1; Editing.startColumn := 1;
                         Editing.endLineNumber := 3; Editing.endColumn := 2 |};
     Editing.text := Some ("x" +:+ newline +:+ "y" +:+ newline +:+ "z") |}.

(** Replace [a], the first line, by [x]. *)
Definition rewriteFirst : Editing.SingleEditOperation :=
  {| Editing.range := {| Editing.startLineNumber := 1; Editing.startColumn := 1;
                         Editing.endLineNumber := 1; Editing.endColumn := 2 |};
     Editing.text := Some "x" |}.

(** C5, the code at a failing input.  The batch [rewriteThree] is applied
    twice through one strategy to a document of three lines; both times the
    editor reports an edit on the lines 1 to 3.  The claim asks for one
    decoration on each of the lines 1, 2 and 3.  The strategy ends with four
    decorations: the lines 1 and 2 are decorated twice and line 3 is not
    decorated.  An edit within one line ([rewriteFirst]) leaves no decoration
    at all. *)
Theorem decorations_repeat_on_overlapping_batches :
  let s0 := Editing.newLiveStrategy threeLines in
  let s1 := (Editing.makeChanges [rewriteThree] s0 threeLines).1 in
  let d1 := (Editing.makeChanges [rewriteThree] s0 threeLines).2 in
  let s2 := (Editing.makeChanges [rewriteThree] s1 d1).1 in
  Editing.lines d1 = ["x"; "y"; "z"] ∧
  Editing.touchedLines (mjoin (Editing.progressReports [rewriteThree] None s0 threeLines)) = [1; 2; 3] ∧
  Editing.touchedLines (mjoin (Editing.progressReports [rewriteThree] None s1 d1)) = [1; 2; 3] ∧
  Editing._progressiveEditingDecorations s1
    = [Editing.lineDecoration 1; Editing.lineDecoration 2] ∧
  Editing._progressiveEditingDecorations s2
    = [Editing.lineDecoration 1; Editing.lineDecoration 2;
       Editing.lineDecoration 1; Editing.lineDecoration 2] ∧
  Editing.decoratedLines s2 = [1; 2; 1; 2] ∧
  ¬ NoDup (Editing.decoratedLines s2) ∧
  ¬ (3 ∈ Editing.decoratedLines s2) ∧
  Editing.touchedLines
    (mjoin (Editing.progressReports [rewriteFirst] None s0 threeLines)) = [1] ∧
  Editing._progressiveEditingDecorations (Editing.makeChanges [rewriteFirst] s0 threeLines).1 = [].
Proof.
  intros s0 s1 d1 s2.
  assert (Hlines : Editing.decoratedLines s2 = [1; 2; 1; 2]) by (vm_compute; reflexivity).
  repeat split; try (vm_compute; reflexivity).
  - rewrite Hlines. intros Hnd. apply NoDup_cons in Hnd as [Hnin _].
    apply Hnin. apply elem_of_cons. right. apply elem_of_cons. by left.
  - rewrite Hlines. intros Hin.
    repeat (apply elem_of_cons in Hin as [Hin | Hin]; [discriminate Hin |]).
    by apply elem_of_nil in Hin.
Qed.

(** ** Rolling a document back to its checkpoint *)

Section Rollback.
Import Editing.
Context {D : Type} `{TextModel D}.

(** The condition of the loop in [undoModelUntil]. *)
Definition keepsUndoing (targetAltVersion : Z) (model : D) : bool :=
  (targetAltVersion <? getAlternativeVersionId model) && canUndo model.

Lemma undoModelUntil_step (model : D) (target : Z) :
  undoModelUntil model target =
    if keepsUndoing target model then undoModelUntil (undo model) target else model.
Proof.
  unfold keepsUndoing. funelim (undoModelUntil model target).
  - by rewrite Hcond.
  - by rewrite Hstop.
Qed.

(** [undoModelUntil] calls [undo] as long as the alternate-version id is
    above the target and an undo is available, and not once more. *)
Lemma undoModelUntil_iter (model : D) (target : Z) :
  ∃ n : nat,
    undoModelUntil model target = Nat.iter n undo model ∧
    (∀ i : nat, (i < n)%nat -> keepsUndoing target (Nat.iter i undo model) = true) ∧
    keepsUndoing target (Nat.iter n undo model) = false.
Proof.
  remember (undoStackDepth model) as k eqn:Hk.
  revert model Hk. induction (lt_wf k) as [k _ IH]. intros model ->.
  rewrite undoModelUntil_step.
  destruct (keepsUndoing target model) eqn:Hcond.
  - assert (Hlt : (undoStackDepth (undo model) < undoStackDepth model)%nat).
    { apply undo_pops. unfold keepsUndoing in Hcond.
      apply andb_true_iff in Hcond. tauto. }
    destruct (IH _ Hlt (undo model) eq_refl) as (n & Heq & Hbefore & Hstop).
    exists (S n). rewrite !Nat.iter_succ_r. split; [done |]. split; [| done].
    intros [| i] Hi; [done |]. rewrite Nat.iter_succ_r. apply Hbefore. lia.
  - exists 0%nat. simpl. split; [done |]. split; [intros i Hi; lia | done].
Qed.


End Rollback.

Section Checkpoint.
Import Editing.


(** The undo element that the first edit after the checkpoint creates. *)
Definition checkpointElement (d0 : Document) : EditStackElement :=
  {| beforeLines := lines d0; beforeAltVersionId := alternativeVersionId d0 |}.

(** No edit has reached the document since the checkpoint [d0]. *)
Definition untouched (d0 d : Document) : Prop :=
  lines d = lines d0 ∧ alternativeVersionId d = alternativeVersionId d0 ∧
  undoStack d = undoStack d0 ∧ disposed d = false ∧
  alternativeVersionId d <= versionId d.

(** The edits since the checkpoint [d0] form the top element of the undo
    stack. *)
Definition touched (d0 d : Document) : Prop :=
  undoStack d = checkpointElement d0 :: undoStack d0 ∧ undoStackOpen d = true ∧
  disposed d = false ∧ alternativeVersionId d <= versionId d ∧
  ((lines d = lines d0 ∧ alternativeVersionId d = alternativeVersionId d0) ∨
   alternativeVersionId d0 < alternativeVersionId d).

Lemma executeEdits_after_stop (d0 d : Document) (edits : list SingleEditOperation) :
  untouched d0 d -> undoStackOpen d = false ->
  touched d0 (doc_executeEdits edits d).1.
Proof.
  intros (Hl & Ha & Hs & Hd & Hv) Hopen. unfold doc_executeEdits, touched.
  destruct edits as [| e edits].
  - simpl. rewrite Hopen, Hs, Hl, Ha. unfold checkpointElement.
    repeat split; try done; [lia | by left].
  - destruct (foldl _ _ (e :: edits)) as [ls undoEdits]. simpl.
    rewrite Hopen, Hs, Hl, Ha. unfold checkpointElement.
    repeat split; try done. right. lia.
Qed.

Lemma executeEdits_touched (d0 d : Document) (edits : list SingleEditOperation) :
  touched d0 d -> touched d0 (doc_executeEdits edits d).1.
Proof.
  intros (Hs & Hopen & Hd & Hv & Hcase). unfold doc_executeEdits, touched.
  destruct edits as [| e edits].
  - simpl. rewrite Hopen, Hs. tauto.
  - destruct (foldl _ _ (e :: edits)) as [ls undoEdits]. simpl.
    rewrite Hopen, Hs. repeat split; try done; lia.
Qed.

Lemma async_edits_touched (d0 : Document) (edits : list SingleEditOperation)
    (s : LiveStrategy) (d : Document) :
  (untouched d0 d ∧ undoStackOpen d = false) ∨ touched d0 d ->
  let d' := (foldl (fun '(s, d) edit =>
                      let '(d, reports) := performAsyncTextEdit edit d in
                      (foldl (fun s undoEdits => reportProgress undoEdits s) s reports, d))
                   (s, d) edits).2 in
  (untouched d0 d' ∧ undoStackOpen d' = false) ∨ touched d0 d'.
Proof.
  revert s d. induction edits as [| e edits IH]; intros s d Hd; cbn [foldl]; [done |].
  cbn [performAsyncTextEdit Document_TextModel]. unfold doc_performAsyncTextEdit.
  destruct (doc_executeEdits [e] d) as [d1 undoEdits] eqn:Hexec.
  apply IH. right.
  replace d1 with (doc_executeEdits [e] d).1 by (by rewrite Hexec).
  destruct Hd as [[Hu Hopen] | Ht].
  - by apply executeEdits_after_stop.
  - by apply executeEdits_touched.
Qed.

(** What holds for a strategy and its document between the first touch of
    the document [d0] and the end of the edit session. *)
Definition sinceCheckpoint (d0 : Document) (s : LiveStrategy) (d : Document) : Prop :=
  textModelNAltVersion s = alternativeVersionId d0 ∧
  textModelNSnapshotAltVersion s = None ∧
  ((untouched d0 d ∧ (_editCount s = 0%nat ∨ undoStackOpen d = false)) ∨
   (touched d0 d ∧ (0 < _editCount s)%nat)).

Lemma makeChanges_sinceCheckpoint (d0 : Document) (edits : list SingleEditOperation)
    (opts : option ProgressingEditsOptions) (s : LiveStrategy) (d : Document) :
  sinceCheckpoint d0 s d ->
  sinceCheckpoint d0 (_makeChanges edits opts s d).1 (_makeChanges edits opts s d).2.
Proof.
  intros (Halt & Hsnap & Hcase).
  assert (Hfields : ∀ sd : LiveStrategy * Document,
            textModelNAltVersion sd.1 = alternativeVersionId d0 ->
            textModelNSnapshotAltVersion sd.1 = None ->
            (0 < _editCount sd.1)%nat ->
            (untouched d0 sd.2 ∧ undoStackOpen sd.2 = false) ∨ touched d0 sd.2 ->
            sinceCheckpoint d0 sd.1 sd.2).
  { intros [s' d'] ? ? ? [[? ?] | ?]; unfold sinceCheckpoint; simpl in *; tauto. }
  set (s1 := withEditCount (S (_editCount s)) s).
  set (d1 := if decide (_editCount s1 = 1%nat) then pushUndoStop d else d).
  assert (Hd1 : (untouched d0 d1 ∧ undoStackOpen d1 = false) ∨ touched d0 d1).
  { subst d1 s1. simpl. destruct Hcase as [[Hu [Hzero | Hopen]] | [Ht Hpos]].
    - rewrite Hzero. simpl. left. split; [exact Hu | done].
    - left. destruct (decide _); [| done]. split; [exact Hu | done].
    - right. destruct (decide _) as [Heq | _]; [lia | done]. }
  (* every report leaves the strategy fields of the checkpoint alone *)
  assert (Hrep : ∀ undoEdits s', textModelNAltVersion (reportProgress undoEdits s') = textModelNAltVersion s' ∧
            textModelNSnapshotAltVersion (reportProgress undoEdits s') = textModelNSnapshotAltVersion s' ∧
            _editCount (reportProgress undoEdits s') = _editCount s') by done.
  unfold _makeChanges. fold s1. fold d1.
  destruct opts as [o |].
  - pose proof (async_edits_touched d0 edits s1 d1 Hd1) as Hd'. simpl in Hd'.
    assert (Hs' : ∀ (es : list SingleEditOperation) (s' : LiveStrategy) (d' : Document),
              let r := foldl (fun '(s, d) edit =>
                          let '(d, reports) := performAsyncTextEdit edit d in
                          (foldl (fun s undoEdits => reportProgress undoEdits s) s reports, d))
                        (s', d') es in
              textModelNAltVersion r.1 = textModelNAltVersion s' ∧
              textModelNSnapshotAltVersion r.1 = textModelNSnapshotAltVersion s' ∧
              _editCount r.1 = _editCount s').
    { induction es as [| e es IHes]; intros s' d'; cbn [foldl]; [done |].
      destruct (performAsyncTextEdit e d') as [d2 reports].
      destruct (IHes (foldl (fun s undoEdits => reportProgress undoEdits s) s' reports) d2)
        as (-> & -> & ->).
      clear. revert s'. induction reports as [| r rs IHr]; intros s'; cbn [foldl]; [done |].
      destruct (IHr (reportProgress r s')) as (-> & -> & ->). done. }
    destruct (Hs' edits s1 d1) as (Ha' & Hsn' & Hc').
    apply Hfields; [by rewrite Ha' | by rewrite Hsn' | rewrite Hc'; simpl; lia | exact Hd'].
  - destruct (executeEdits edits d1) as [d2 undoEdits] eqn:Hexec.
    apply Hfields; simpl; [done | done | lia |].
    right. replace d2 with (doc_executeEdits edits d1).1
      by (change (doc_executeEdits edits d1) with (executeEdits edits d1); by rewrite Hexec).
    destruct Hd1 as [[Hu Hopen] | Ht].
    + by apply executeEdits_after_stop.
    + by apply executeEdits_touched.
Qed.


End Checkpoint.

Section CheckpointRoundTrip.
Import Editing.

Lemma keepsUndoing_true (target : Z) (d : Document) :
  keepsUndoing target d = true ↔
  target < getAlternativeVersionId d ∧ canUndo d = true.
Proof. unfold keepsUndoing. rewrite andb_true_iff, Z.ltb_lt. done. Qed.

Lemma cancel_sinceCheckpoint (d0 : Document) (s : LiveStrategy) (d : Document) :
  sinceCheckpoint d0 s d ->
  let d' := (cancel s d).2 in
  lines d' = lines d0 ∧ alternativeVersionId d' = alternativeVersionId d0 ∧
  disposed d' = false ∧
  d' = undoModelUntil d (alternativeVersionId d0).
Proof.
  intros (Halt & Hsnap & Hcase). unfold cancel.
  assert (Hdisp : disposed d = false).
  { destruct Hcase as [[(_ & _ & _ & Hd & _) _] | [(_ & _ & Hd & _) _]]; exact Hd. }
  cbn [isDisposed Document_TextModel]. rewrite Hdisp. simpl.
  rewrite Hsnap, Halt. simpl.
  rewrite undoModelUntil_step.
  destruct (keepsUndoing (alternativeVersionId d0) d) eqn:Hcond.
  - apply keepsUndoing_true in Hcond as [Hlt Hcan]. simpl in Hlt.
    destruct Hcase as [[(_ & Ha & _) _] | [(Hs & _ & _ & _ & Hc) _]]; [lia |].
    destruct Hc as [[_ Ha] | _]; [lia |].
    rewrite undoModelUntil_step.
    assert (Hundo : undo d = {| lines := lines d0; versionId := versionId d + 1;
                                alternativeVersionId := alternativeVersionId d0;
                                undoStack := undoStack d0; undoStackOpen := false;
                                disposed := disposed d |}).
    { cbn [undo Document_TextModel]. unfold doc_undo. by rewrite Hs. }
    rewrite Hundo. unfold keepsUndoing. simpl. rewrite Z.ltb_irrefl. simpl. done.
  - assert (Hnot : ¬ (alternativeVersionId d0 < getAlternativeVersionId d ∧ canUndo d = true)).
    { rewrite <- keepsUndoing_true. by rewrite Hcond. }
    simpl in Hnot. unfold doc_canUndo in Hnot.
    destruct Hcase as [[(Hl & Ha & _) _] | [(Hs & _ & _ & _ & Hc) _]]; [done |].
    destruct Hc as [[Hl Ha] | Hlt]; [done |].
    exfalso. apply Hnot. by rewrite Hs.
Qed.


(** A document with one line and one undoable earlier edit. *)
Definition editedBefore : Document :=
  {| lines := ["one"]; versionId := 2; alternativeVersionId := 2;
     undoStack := [ {| beforeLines := [EmptyString]; beforeAltVersionId := 1 |} ];
     undoStackOpen := false; disposed := false |}.

(** Replace [one] by [two]. *)
Definition oneToTwo : SingleEditOperation :=
  {| range := {| startLineNumber := 1; startColumn := 1; endLineNumber := 1; endColumn := 4 |};
     text := Some "two" |}.



End CheckpointRoundTrip.

(** ** Persisting sessions *)

(** [a] may stand before [b] in the stored list: [a] is not older than [b]. *)
Definition notOlder (a b : SessionSnapshot) : Prop :=
  creationDateOrZero b <= creationDateOrZero a.

Lemma sortInsert_Permutation (a : SessionSnapshot) (l : list SessionSnapshot) :
  sortInsert a l ≡ₚ a :: l.
Proof.
  induction l as [| b l IH]; simpl; [done |].
  destruct (_ <=? 0); [done |]. rewrite IH. apply Permutation_swap.
Qed.

Lemma sortByCreationDate_Permutation (l : list SessionSnapshot) :
  sortByCreationDate l ≡ₚ l.
Proof.
  induction l as [| a l IH]; simpl; [done |].
  rewrite sortInsert_Permutation. by rewrite IH.
Qed.

Lemma sortInsert_sorted (a : SessionSnapshot) (l : list SessionSnapshot) :
  StronglySorted notOlder l -> StronglySorted notOlder (sortInsert a l).
Proof.
  induction 1 as [| b l Hsorted IH Hall]; simpl.
  - repeat constructor.
  - destruct (creationDateOrZero b - creationDateOrZero a <=? 0) eqn:Hcmp.
    + apply Z.leb_le in Hcmp. constructor; [by constructor |].
      constructor; [unfold notOlder; lia |].
      eapply Forall_impl; [exact Hall |]. unfold notOlder. intros c Hc. lia.
    + apply Z.leb_gt in Hcmp. constructor; [exact IH |].
      rewrite sortInsert_Permutation. constructor; [unfold notOlder; lia | exact Hall].
Qed.

Lemma sortByCreationDate_sorted (l : list SessionSnapshot) :
  StronglySorted notOlder (sortByCreationDate l).
Proof.
  induction l as [| a l IH]; simpl; [constructor | by apply sortInsert_sorted].
Qed.

Lemma saveState_storage (st : State) :
  storage (saveState st) =
    Some (take maxPersistedSessions (sortByCreationDate (sessionsToPersist st))).
Proof.
  unfold saveState. by destruct (take _ _).
Qed.

(** C7, as amended.  [saveState] collects the live sessions of the panel that
    have at least one request and the persisted sessions that are not live and
    have at least one request (a live session of another location is not
    collected, whatever its requests), sorts them by creation date, newest
    first, and writes the first 25: what is written is sorted, holds at most 25
    sessions and exactly 25 when more are eligible, and no session left out is
    newer than a session written. *)
Theorem saveState_persists_newest (st : State) :
  let eligible := sessionsToPersist st in
  let dropped := drop maxPersistedSessions (sortByCreationDate eligible) in
  ∃ stored,
    storage (saveState st) = Some stored ∧
    (∀ x, x ∈ eligible ↔
          (∃ m, x = LiveSession m ∧ m ∈ liveModels st ∧
                initialLocation m = Panel ∧ (0 < length (requests m))%nat) ∨
          (∃ d, x = PersistedSession d ∧ d ∈ om_values (persistedSessions st) ∧
                om_has (p_sessionId d) (sessionModels st) = false ∧
                length (p_requests d) ≠ 0%nat)) ∧
    stored ++ dropped ≡ₚ eligible ∧
    StronglySorted notOlder stored ∧
    length stored = (maxPersistedSessions `min` length eligible)%nat ∧
    maxPersistedSessions = 25%nat ∧
    (∀ a b, a ∈ stored -> b ∈ dropped -> notOlder a b) ∧
    (∀ a, a ∈ stored -> (0 < length (snapshotRequests a))%nat).
Proof.
  intros eligible dropped.
  exists (take maxPersistedSessions (sortByCreationDate eligible)).
  assert (Helig : ∀ x, x ∈ eligible ↔
          (∃ m, x = LiveSession m ∧ m ∈ liveModels st ∧
                initialLocation m = Panel ∧ (0 < length (requests m))%nat) ∨
          (∃ d, x = PersistedSession d ∧ d ∈ om_values (persistedSessions st) ∧
                om_has (p_sessionId d) (sessionModels st) = false ∧
                length (p_requests d) ≠ 0%nat)).
  { intros x. unfold eligible, sessionsToPersist.
    rewrite elem_of_app, !list_elem_of_fmap.
    setoid_rewrite list_elem_of_filter. setoid_rewrite list_elem_of_filter.
    split.
    - intros [(m & -> & Hreq & Hloc & Hin) | (d & -> & Hreq & Hlive & Hin)].
      + left. eauto 10.
      + right. eauto 10.
    - intros [(m & -> & Hin & Hloc & Hreq) | (d & -> & Hin & Hlive & Hreq)].
      + left. eauto 10.
      + right. eauto 10. }
  assert (Hsorted : StronglySorted notOlder
            (take maxPersistedSessions (sortByCreationDate eligible) ++ dropped)).
  { unfold dropped. rewrite take_drop. apply sortByCreationDate_sorted. }
  split; [apply saveState_storage |]. split; [exact Helig |]. split.
  { unfold dropped. rewrite take_drop. apply sortByCreationDate_Permutation. }
  split; [eapply StronglySorted_app_1_l; exact Hsorted |]. split.
  { rewrite length_take. by rewrite (Permutation_length (sortByCreationDate_Permutation eligible)). }
  split; [done |]. split.
  { intros a b Ha Hb. eapply StronglySorted_app_1_elem_of; eauto. }
  intros a Ha.
  assert (Hin : a ∈ eligible).
  { rewrite <- (sortByCreationDate_Permutation eligible). eapply subseteq_take, Ha. }
  apply Helig in Hin as [(m & -> & _ & _ & Hreq) | (d & -> & _ & _ & Hreq)]; simpl; lia.
Qed.

(** A session of the editor location with one request, about to be saved. *)
Definition editorSessionInFlight : State :=
  run svc0 initialState
    [EStartSession "e1" 100 Editor; EInitialized 0; ESendRequest "e1" hello None;
     EResumeSendRequest 0; EActivated 1].

(** C7, the claim as stated fails: a live session that has a request but was
    started in the editor is not written by [saveState]. *)
Lemma saveState_skips_editor_session_counterexample :
  om_get "e1" (sessionModels editorSessionInFlight) = Some 0%nat ∧
  (fun m => (initialLocation m, length (requests m))) <$> heap editorSessionInFlight !! 0%nat
    = Some (Editor, 1%nat) ∧
  storage (saveState editorSessionInFlight) = Some [].
Proof.
  repeat split; vm_compute; reflexivity.
Qed.

(** ** Pending operations: the invariant of the dispatcher *)

(** How token sources, the pending-request map, the disposals and the sends
    hang together in every state of the service. *)
Record TokensInv (st : State) : Prop := {
  inv_fresh : ∀ t s, (t, s) ∈ tokenSources st -> (t < nextId st)%nat;
  inv_nodup : NoDup (tokenSources st).*1;
  inv_pending : ∀ s t, pendingRequests st !! s = Some t ->
                       (t, s) ∈ tokenSources st ∧ t ∉ disposed st;
  inv_live : ∀ t s, (t, s) ∈ tokenSources st -> t ∉ disposed st ->
                    pendingRequests st !! s = Some t;
  inv_disposed_nodup : NoDup (disposed st);
  inv_disposed_created : ∀ t, t ∈ disposed st -> t ∈ (tokenSources st).*1;
  inv_sends : ∀ t send, sends st !! t = Some send ->
                        (t, send_session send) ∈ tokenSources st ∧
                        (send_phase send = Finished -> t ∈ disposed st);
}.

(** The sends of [st'] are those of [st], none of them moved to another
    session or newly finished. *)
Definition sendsRefine (st st' : State) : Prop :=
  ∀ t send', sends st' !! t = Some send' ->
    ∃ send, sends st !! t = Some send ∧ send_session send' = send_session send ∧
            (send_phase send' = Finished -> send_phase send = Finished).

Lemma sendsRefine_refl (st st' : State) : sends st' = sends st -> sendsRefine st st'.
Proof. intros Heq t send' Hs. rewrite Heq in Hs. eauto. Qed.

Lemma sendsRefine_alter (st st' : State) (t : nat) (f : Send -> Send) :
  sends st' = alter f t (sends st) ->
  (∀ s, send_session (f s) = send_session s ∧
        (send_phase (f s) = Finished -> send_phase s = Finished)) ->
  sendsRefine st st'.
Proof.
  intros Heq Hf t' send' Hs. rewrite Heq in Hs.
  destruct (decide (t = t')) as [<- | Hne].
  - rewrite lookup_alter_eq in Hs.
    destruct (sends st !! t) as [send |]; simpl in Hs; [| done].
    injection Hs as <-. exists send. split; [done |]. apply Hf.
  - rewrite lookup_alter_ne in Hs by done. eauto.
Qed.

Lemma TokensInv_frame (st st' : State) :
  TokensInv st ->
  tokenSources st' = tokenSources st ->
  pendingRequests st' = pendingRequests st ->
  disposed st' = disposed st ->
  (nextId st <= nextId st')%nat ->
  sendsRefine st st' ->
  TokensInv st'.
Proof.
  intros [Hfresh Hnd Hpend Hlive Hdnd Hdc Hsends] Ht Hp Hd Hn Hs.
  constructor; rewrite ?Ht, ?Hp, ?Hd; try done.
  - intros t s Hin. specialize (Hfresh t s Hin). lia.
  - intros t send' Hsend'. destruct (Hs t send' Hsend') as (send & Hsend & -> & Hfin).
    destruct (Hsends t send Hsend) as [Hin Hdisp]. split; [done |]. auto.
Qed.

Lemma TokensInv_upd_log (f : list LogEntry -> list LogEntry) (st : State) :
  TokensInv st -> TokensInv (upd_log f st).
Proof. intros Hinv. by apply (TokensInv_frame st); [| | | | | apply sendsRefine_refl]. Qed.

Lemma TokensInv_trace (m msg : string) (st : State) : TokensInv st -> TokensInv (trace m msg st).
Proof. apply TokensInv_upd_log. Qed.

Lemma TokensInv_error (m msg : string) (st : State) : TokensInv st -> TokensInv (error m msg st).
Proof. apply TokensInv_upd_log. Qed.

Lemma TokensInv_publicLog2 (m msg : string) (st : State) :
  TokensInv st -> TokensInv (publicLog2 m msg st).
Proof. apply TokensInv_upd_log. Qed.

Lemma TokensInv_upd_heap (f : gmap nat ChatModel -> gmap nat ChatModel) (st : State) :
  TokensInv st -> TokensInv (upd_heap f st).
Proof. intros Hinv. by apply (TokensInv_frame st); [| | | | | apply sendsRefine_refl]. Qed.

Lemma TokensInv_onModel (ref : nat) (f : ChatModel -> ChatModel) (st : State) :
  TokensInv st -> TokensInv (onModel ref f st).
Proof. apply TokensInv_upd_heap. Qed.

Lemma TokensInv_upd_sessionModels (f : list (string * nat) -> list (string * nat)) (st : State) :
  TokensInv st -> TokensInv (upd_sessionModels f st).
Proof. intros Hinv. by apply (TokensInv_frame st); [| | | | | apply sendsRefine_refl]. Qed.

Lemma TokensInv_upd_persistedSessions
    (f : list (string * SerializableChatData) -> list (string * SerializableChatData)) (st : State) :
  TokensInv st -> TokensInv (upd_persistedSessions f st).
Proof. intros Hinv. by apply (TokensInv_frame st); [| | | | | apply sendsRefine_refl]. Qed.

Lemma TokensInv_upd_cancelled (f : list nat -> list nat) (st : State) :
  TokensInv st -> TokensInv (upd_cancelled f st).
Proof. intros Hinv. by apply (TokensInv_frame st); [| | | | | apply sendsRefine_refl]. Qed.

Lemma TokensInv_upd_awaiting (f : list SendRequestCall -> list SendRequestCall) (st : State) :
  TokensInv st -> TokensInv (upd_awaiting f st).
Proof. intros Hinv. by apply (TokensInv_frame st); [| | | | | apply sendsRefine_refl]. Qed.

Lemma TokensInv_upd_storage
    (f : option (list SessionSnapshot) -> option (list SessionSnapshot)) (st : State) :
  TokensInv st -> TokensInv (upd_storage f st).
Proof. intros Hinv. by apply (TokensInv_frame st); [| | | | | apply sendsRefine_refl]. Qed.

Lemma TokensInv_upd_nextId (st : State) : TokensInv st -> TokensInv (upd_nextId S st).
Proof.
  intros Hinv. apply (TokensInv_frame st); try done; [simpl; lia | by apply sendsRefine_refl].
Qed.

Lemma TokensInv_onSend (t : nat) (f : Send -> Send) (st : State) :
  (∀ s, send_session (f s) = send_session s ∧
        (send_phase (f s) = Finished -> send_phase s = Finished)) ->
  TokensInv st -> TokensInv (onSend t f st).
Proof.
  intros Hf Hinv. apply (TokensInv_frame st); try done.
  by apply (sendsRefine_alter st _ t f).
Qed.

(** Two sessions never share a token source. *)
Lemma pending_inj (st : State) (s1 s2 : string) (t : nat) :
  TokensInv st ->
  pendingRequests st !! s1 = Some t -> pendingRequests st !! s2 = Some t -> s1 = s2.
Proof.
  intros Hinv H1 H2.
  destruct (inv_pending st Hinv s1 t H1) as [Hin1 _].
  destruct (inv_pending st Hinv s2 t H2) as [Hin2 _].
  pose proof (inv_nodup st Hinv) as Hnd.
  apply list_elem_of_lookup in Hin1 as [i Hi], Hin2 as [j Hj].
  assert (i = j) as ->.
  { eapply NoDup_lookup; [exact Hnd | |]; rewrite list_lookup_fmap.
    - by rewrite Hi.
    - by rewrite Hj. }
  congruence.
Qed.

Lemma TokensInv_deleteAndDispose (k : string) (st : State) :
  TokensInv st -> TokensInv (pending_deleteAndDispose k st).
Proof.
  intros Hinv. unfold pending_deleteAndDispose.
  destruct (pendingRequests st !! k) as [old |] eqn:Hk; [| done].
  destruct (inv_pending st Hinv k old Hk) as [Hin Hnd].
  constructor; simpl.
  - apply (inv_fresh st Hinv).
  - apply (inv_nodup st Hinv).
  - intros s t Hs. destruct (decide (k = s)) as [-> | Hne].
    + by rewrite lookup_delete_eq in Hs.
    + rewrite lookup_delete_ne in Hs by done.
      destruct (inv_pending st Hinv s t Hs) as [Hin' Hnd']. split; [done |].
      rewrite not_elem_of_cons. split; [| done].
      intros ->. apply Hne. by apply (pending_inj st k s old).
  - intros t s Hin' Hnd'. apply not_elem_of_cons in Hnd' as [Hne Hnd'].
    pose proof (inv_live st Hinv t s Hin' Hnd') as Hs.
    destruct (decide (k = s)) as [-> | Hks]; [congruence |].
    by rewrite lookup_delete_ne.
  - constructor; [done | apply (inv_disposed_nodup st Hinv)].
  - intros t [-> | Ht]%elem_of_cons.
    + apply list_elem_of_fmap. by exists (old, k).
    + by apply (inv_disposed_created st Hinv).
  - intros t send Hs. destruct (inv_sends st Hinv t send Hs) as [Hin' Hfin].
    split; [done |]. intros Hf. apply elem_of_cons. right. auto.
Qed.

Lemma TokensInv_cancelTokenSource (t : nat) (st : State) :
  TokensInv st -> TokensInv (cancelTokenSource t st).
Proof.
  intros Hinv. unfold cancelTokenSource.
  destruct (isCancellationRequested t st); [done |].
  cbn [sends upd_cancelled].
  destruct (sends st !! t) as [s |]; [| by apply TokensInv_upd_cancelled].
  destruct (listening s); [| by apply TokensInv_upd_cancelled].
  destruct (send_request s).
  - by apply TokensInv_onModel, TokensInv_publicLog2, TokensInv_trace, TokensInv_upd_cancelled.
  - by apply TokensInv_publicLog2, TokensInv_trace, TokensInv_upd_cancelled.
Qed.

Lemma sendRequestAsync_effect (svc : Services) (model : nat) (sid : string)
    (parsedRequest : ParsedRequest) (att : Z) (defaultAgent : option ChatAgent) (st : State) :
  let source := nextId st in
  let st' := (_sendRequestAsync svc model sid parsedRequest att defaultAgent st).2 in
  (_sendRequestAsync svc model sid parsedRequest att defaultAgent st).1 = source ∧
  tokenSources st' = (source, sid) :: tokenSources st ∧
  pendingRequests st' = <[sid := source]> (pendingRequests st) ∧
  disposed st' = match pendingRequests st !! sid with
                 | Some old => old :: disposed st
                 | None => disposed st
                 end ∧
  (nextId st < nextId st')%nat ∧
  ∃ send, sends st' = <[source := send]> (sends st) ∧
          send_session send = sid ∧ send_phase send ≠ Finished.
Proof.
  unfold _sendRequestAsync, pending_set. simpl.
  destruct (agentPart parsedRequest) as [agent |], defaultAgent as [agent' |],
    (slashCommandPart parsedRequest) as [command |]; simpl;
    try destruct (hasCommand svc command); simpl;
    destruct (pendingRequests st !! sid); simpl;
    (split; [done |]); (split; [done |]); (split; [done |]); (split; [done |]);
    (split; [lia |]); eexists; (split; [reflexivity |]); split; done.
Qed.

Lemma TokensInv_sendRequestAsync (svc : Services) (model : nat) (sid : string)
    (parsedRequest : ParsedRequest) (att : Z) (defaultAgent : option ChatAgent) (st : State) :
  TokensInv st ->
  TokensInv (_sendRequestAsync svc model sid parsedRequest att defaultAgent st).2.
Proof.
  intros Hinv.
  destruct (sendRequestAsync_effect svc model sid parsedRequest att defaultAgent st)
    as (_ & Ht & Hp & Hd & Hn & send & Hs & Hsession & Hphase).
  set (st' := (_sendRequestAsync svc model sid parsedRequest att defaultAgent st).2) in *.
  assert (Hnew : ∀ s, (nextId st, s) ∉ tokenSources st).
  { intros s Hin. pose proof (inv_fresh st Hinv _ _ Hin). lia. }
  assert (Hnewd : nextId st ∉ disposed st).
  { intros Hin. apply (inv_disposed_created st Hinv) in Hin.
    apply list_elem_of_fmap in Hin as ([t s] & Heq & Hin). simpl in Heq. subst t.
    by apply (Hnew s). }
  assert (Hsub : ∀ t, t ∈ disposed st -> t ∈ disposed st').
  { intros t Hin. rewrite Hd. destruct (pendingRequests st !! sid); [| done].
    apply elem_of_cons. by right. }
  constructor; rewrite ?Ht, ?Hp.
  - intros t s [[= -> ->] | Hin]%elem_of_cons; [done |].
    pose proof (inv_fresh st Hinv _ _ Hin). lia.
  - rewrite fmap_cons. simpl. constructor; [| apply (inv_nodup st Hinv)].
    intros ([t s] & Heq & Hin)%list_elem_of_fmap. simpl in Heq. subst t. by apply (Hnew s).
  - intros s t Hl. destruct (decide (sid = s)) as [<- | Hne].
    + rewrite lookup_insert_eq in Hl. injection Hl as <-.
      split; [apply elem_of_cons; by left |].
      rewrite Hd. destruct (pendingRequests st !! sid) as [old |] eqn:Hold; [| done].
      apply not_elem_of_cons. split; [| done]. intros <-.
      destruct (inv_pending st Hinv sid _ Hold) as [Hin _]. by apply (Hnew sid).
    + rewrite lookup_insert_ne in Hl by done.
      destruct (inv_pending st Hinv s t Hl) as [Hin Hnd].
      split; [apply elem_of_cons; by right |].
      rewrite Hd. destruct (pendingRequests st !! sid) as [old |] eqn:Hold; [| done].
      apply not_elem_of_cons. split; [| done]. intros ->.
      apply Hne. by apply (pending_inj st sid s old).
  - intros t s [[= -> ->] | Hin]%elem_of_cons Hnd; [by rewrite lookup_insert_eq |].
    assert (Hnd0 : t ∉ disposed st) by (intros Hx; by apply Hnd, Hsub).
    pose proof (inv_live st Hinv t s Hin Hnd0) as Hl.
    destruct (decide (sid = s)) as [<- | Hne]; [| by rewrite lookup_insert_ne].
    exfalso. apply Hnd. rewrite Hd, Hl. apply elem_of_cons. by left.
  - rewrite Hd. destruct (pendingRequests st !! sid) as [old |] eqn:Hold;
      [| apply (inv_disposed_nodup st Hinv)].
    constructor; [| apply (inv_disposed_nodup st Hinv)].
    by destruct (inv_pending st Hinv sid old Hold).
  - intros t. rewrite Hd, fmap_cons.
    intros Hin. apply elem_of_cons. right.
    destruct (pendingRequests st !! sid) as [old |] eqn:Hold.
    + apply elem_of_cons in Hin as [-> | Hin].
      * destruct (inv_pending st Hinv sid old Hold) as [Hin _].
        apply list_elem_of_fmap. by exists (old, sid).
      * by apply (inv_disposed_created st Hinv).
    + by apply (inv_disposed_created st Hinv).
  - intros t send' Hl. rewrite Hs in Hl.
    destruct (decide (nextId st = t)) as [<- | Hne].
    + rewrite lookup_insert_eq in Hl. injection Hl as <-.
      rewrite Hsession. split; [apply elem_of_cons; by left | done].
    + rewrite lookup_insert_ne in Hl by done.
      destruct (inv_sends st Hinv t send' Hl) as [Hin Hfin].
      split; [apply elem_of_cons; by right | auto].
Qed.

(** After [deleteAndDispose] for its session, a token source is disposed. *)
Lemma deleteAndDispose_disposes (st : State) (t : nat) (k : string) :
  TokensInv st -> (t, k) ∈ tokenSources st ->
  t ∈ disposed (pending_deleteAndDispose k st) ∧
  pendingRequests (pending_deleteAndDispose k st) !! k = None.
Proof.
  intros Hinv Hin. unfold pending_deleteAndDispose.
  destruct (pendingRequests st !! k) as [old |] eqn:Hk; simpl.
  - split; [| apply lookup_delete_eq].
    destruct (decide (t ∈ disposed st)) as [Hd | Hnd]; [apply elem_of_cons; by right |].
    pose proof (inv_live st Hinv t k Hin Hnd) as Hl. rewrite Hk in Hl. injection Hl as ->.
    apply elem_of_cons. by left.
  - split; [| done].
    destruct (decide (t ∈ disposed st)) as [Hd | Hnd]; [done |].
    pose proof (inv_live st Hinv t k Hin Hnd) as Hl. congruence.
Qed.

Lemma TokensInv_finish (st : State) (t : nat) :
  TokensInv st -> t ∈ disposed st -> TokensInv (onSend t (withPhase Finished) st).
Proof.
  intros [Hfresh Hnd Hpend Hlive Hdnd Hdc Hsends] Hd.
  constructor; simpl; try done.
  intros t' send' Hl. destruct (decide (t = t')) as [<- | Hne].
  - rewrite lookup_alter_eq in Hl.
    destruct (sends st !! t) as [send |] eqn:Hsend; simpl in Hl; [| done].
    injection Hl as <-. simpl. destruct (Hsends t send Hsend) as [Hin _]. done.
  - rewrite lookup_alter_ne in Hl by done. by apply Hsends.
Qed.

Lemma TokensInv_onSettled (t : nat) (st : State) :
  TokensInv st -> TokensInv (onSettled t st).
Proof.
  intros Hinv. unfold onSettled.
  destruct (sends st !! t) as [s |] eqn:Hs; [| done].
  destruct (send_phase s); try done.
  destruct (inv_sends st Hinv t s Hs) as [Hin _].
  apply TokensInv_finish; [by apply TokensInv_deleteAndDispose |].
  by apply deleteAndDispose_disposes.
Qed.

(** A chain of state updates that each keep the invariant. *)
Ltac inv_chain :=
  repeat first
    [ assumption
    | apply TokensInv_trace | apply TokensInv_error | apply TokensInv_publicLog2
    | apply TokensInv_onModel | apply TokensInv_upd_heap
    | apply TokensInv_upd_sessionModels | apply TokensInv_upd_persistedSessions
    | apply TokensInv_upd_cancelled | apply TokensInv_upd_awaiting
    | apply TokensInv_upd_storage | apply TokensInv_upd_nextId
    | apply TokensInv_deleteAndDispose | apply TokensInv_cancelTokenSource
    | apply TokensInv_sendRequestAsync | apply TokensInv_onSettled
    | apply TokensInv_onSend; [intros ?; simpl; split; [reflexivity | solve [discriminate | auto]] |] ].

Lemma TokensInv_completeRequest (t : nat) (rawResult : option AgentResult) (st : State) :
  TokensInv st -> TokensInv (completeRequest t rawResult st).
Proof.
  intros Hinv. unfold completeRequest.
  destruct (sends st !! t) as [s |]; [| done].
  destruct (isCancellationRequested t st); [inv_chain |].
  destruct rawResult, (send_request s); simpl; inv_chain.
Qed.

#[local] Arguments _sendRequestAsync : simpl never.
#[local] Arguments pending_deleteAndDispose : simpl never.
#[local] Arguments cancelTokenSource : simpl never.
#[local] Arguments completeRequest : simpl never.
#[local] Arguments onSettled : simpl never.

(** Case analysis on the branches of a piece of code, then [inv_chain]. *)
Ltac inv_cases :=
  simpl; repeat (case_match; simpl in *);
  repeat match goal with
         | Heq : (_, _) = (_, _) |- _ => injection Heq as ? ?
         end;
  subst;
  try match goal with
      | Heq : _sendRequestAsync ?svc ?a ?b ?c ?d ?e ?st = (_, ?st') |- TokensInv ?st' =>
          change st' with (_sendRequestAsync svc a b c d e st).2 ||
          replace st' with (_sendRequestAsync svc a b c d e st).2 by (by rewrite Heq)
      end;
  inv_chain.

Lemma TokensInv_sendRequest_resume (svc : Services) (call : SendRequestCall)
    (m : ChatModel) (st : State) :
  TokensInv st -> TokensInv (sendRequest_resume svc call m st).1.
Proof.
  intros Hinv. unfold sendRequest_resume.
  destruct (pendingRequests st !! call_sessionId call); [by apply TokensInv_trace |].
  destruct (parseChatRequest _ _ _ _ _) as [parsedRequest | err]; [| done].
  match goal with
  | |- context [_sendRequestAsync ?a ?b ?c ?d ?e ?f ?g] =>
      pose proof (TokensInv_sendRequestAsync a b c d e f g Hinv) as Hsend;
      destruct (_sendRequestAsync a b c d e f g) as [source st']
  end.
  exact Hsend.
Qed.

Lemma TokensInv_step (svc : Services) (st : State) (e : Event) :
  TokensInv st -> TokensInv (step svc st e).
Proof.
  intros Hinv. destruct e; simpl.
  - unfold startSession, _startSession. inv_cases.
  - unfold getOrRestoreSession, _startSession. inv_cases.
  - unfold onInitialized. inv_cases.
  - unfold onInitializationFailed. inv_cases.
  - unfold sendRequest_begin. inv_cases.
  - destruct (awaiting st !! i) as [call |]; [| done].
    unfold sendRequest_continue.
    change (heap (upd_awaiting (delete i) st)) with (heap st).
    destruct (heap st !! call_model call) as [m |]; [| done].
    destruct (initState m); try done; [| inv_chain].
    apply TokensInv_sendRequest_resume. inv_chain.
  - unfold onActivated. inv_cases.
  - unfold progressCallback. inv_cases.
  - unfold onAgentReturned. inv_cases; by apply TokensInv_completeRequest.
  - unfold onAgentThrew. inv_cases.
  - inv_chain.
  - unfold cancelCurrentRequestForSession. inv_cases.
  - unfold clearSession. inv_cases.
  - unfold saveState. inv_cases.
Qed.

Lemma TokensInv_reachable (svc : Services) (st : State) :
  reachable svc st -> TokensInv st.
Proof.
  intros (persisted & es & ->).
  assert (Hinit : TokensInv (upd_persistedSessions (fun _ => persisted) initialState)).
  { constructor; simpl; try done; try apply NoDup_nil_2;
      intros ? ?; try rewrite lookup_empty; try rewrite elem_of_nil; done. }
  revert Hinit. generalize (upd_persistedSessions (fun _ => persisted) initialState).
  induction es as [| e es IH]; intros st Hinv; [done |].
  simpl. apply IH. by apply TokensInv_step.
Qed.

(** ** At most one pending operation per session *)

Lemma NoDup_all_equal {A} (l : list A) (a : A) :
  NoDup l -> (∀ x, x ∈ l -> x = a) -> l = [] ∨ l = [a].
Proof.
  intros Hnd Hall. destruct l as [| x [| y l]]; [by left | right |].
  - f_equal. apply Hall. by left.
  - exfalso. assert (x = a) as -> by (apply Hall; by left).
    assert (y = a) as -> by (apply Hall; right; by left).
    apply NoDup_cons in Hnd as [Hnin _]. apply Hnin. by left.
Qed.

(** The pending operations of a session are the entry of the session in the
    pending-request map. *)
Lemma pendingOperations_entry (st : State) (sid : string) :
  TokensInv st ->
  pendingOperations st sid = option_list (pendingRequests st !! sid).
Proof.
  intros Hinv. unfold pendingOperations.
  set (L := filter _ (tokenSources st)).
  assert (Hnd : NoDup L.*1).
  { eapply sublist_NoDup; [apply (inv_nodup st Hinv) |].
    apply fmap_sublist, sublist_filter. }
  assert (Hall : ∀ t, t ∈ L.*1 -> pendingRequests st !! sid = Some t).
  { intros t ([t' s] & -> & Hin)%list_elem_of_fmap.
    apply list_elem_of_filter in Hin as [[Hs Hd] Hin]. simpl in *. subst s.
    by apply (inv_live st Hinv). }
  destruct (pendingRequests st !! sid) as [t |] eqn:Hp; simpl.
  - destruct (NoDup_all_equal L.*1 t Hnd) as [Hnil | Hone]; [| | done].
    + intros x Hx. specialize (Hall x Hx). congruence.
    + exfalso. destruct (inv_pending st Hinv sid t Hp) as [Hin Hd].
      assert (Hmem : t ∈ L.*1).
      { apply list_elem_of_fmap. exists (t, sid). split; [done |].
        apply list_elem_of_filter. split; [by split | done]. }
      rewrite Hnil in Hmem. by apply elem_of_nil in Hmem.
  - destruct L.*1 as [| x l] eqn:HL; [done |].
    specialize (Hall x ltac:(by left)). discriminate.
Qed.

Lemma sendRequest_begin_sameSessions (sid : string) (request : jsString)
    (options : option SendRequestOptions) (st : State) :
  sameSessions st (sendRequest_begin sid request options st).1 ∧
  ∀ d, (sendRequest_begin sid request options st).2 ≠ Done (Returned (Some d)).
Proof.
  unfold sendRequest_begin, sameSessions.
  destruct (jsStringFalsy (trim request)); simpl; [by repeat split |].
  destruct (om_get sid (sessionModels st)); by repeat split.
Qed.

Lemma sendRequest_continue_pending (svc : Services) (call : SendRequestCall) (st st' : State)
    (r : Completion (option SendRequestData)) :
  is_Some (pendingRequests st !! call_sessionId call) ->
  sendRequest_continue svc call st = Some (st', r) ->
  sameSessions st st' ∧ ∀ d, r ≠ Returned (Some d).
Proof.
  intros [t Ht]. unfold sendRequest_continue, sendRequest_resume.
  destruct (heap st !! call_model call) as [m |]; [| done].
  destruct (initState m); try done; rewrite ?Ht; intros [= <- <-];
    unfold sameSessions; by repeat split.
Qed.

(** C1. In every state of the dispatcher a session has at most one pending
    operation (a token source created for it and not yet disposed), the one
    entered for it in the pending-request map.  While a session has such an
    entry, [sendRequest] for the session, in whichever piece it runs, returns
    [undefined] (or throws) and creates no Request, no send and no pending
    operation.  [sendEditRequest] gives the same answer to an edit request for
    a session that has a pending edit request: it returns [undefined] and
    registers nothing. *)
Theorem at_most_one_pending_operation (svc : Services) (st : State) :
  reachable svc st ->
  (∀ sid, pendingOperations st sid = option_list (pendingRequests st !! sid) ∧
          (length (pendingOperations st sid) <= 1)%nat) ∧
  (∀ sid, is_Some (pendingRequests st !! sid) ->
     (∀ request options st' r,
        sendRequest svc sid request options st = Some (st', r) ->
        sameSessions st st' ∧ ∀ d, r ≠ Returned (Some d)) ∧
     (∀ call st' r,
        call_sessionId call = sid ->
        sendRequest_continue svc call st = Some (st', r) ->
        sameSessions st st' ∧ ∀ d, r ≠ Returned (Some d))) ∧
  (∀ (D : Type) (est : @Editing.ServiceState D)
     (responseVM : Editing.ResponseViewModel) (request : Editing.EditRequest),
     is_Some (Editing.pendingRequests est !! Editing.vm_sessionId responseVM) ->
     (Editing.sendEditRequest responseVM request est).2 = None ∧
     Editing.pendingRequests (Editing.sendEditRequest responseVM request est).1
       = Editing.pendingRequests est ∧
     Editing.nextPromise (Editing.sendEditRequest responseVM request est).1
       = Editing.nextPromise est).
Proof.
  intros Hreach. pose proof (TokensInv_reachable svc st Hreach) as Hinv.
  split; [| split].
  - intros sid. rewrite (pendingOperations_entry st sid Hinv).
    split; [done |]. destruct (pendingRequests st !! sid); simpl; lia.
  - intros sid Hpending. split.
    + intros request options st' r. unfold sendRequest.
      pose proof (sendRequest_begin_sameSessions sid request options st) as [Hsame Hnot].
      destruct (sendRequest_begin sid request options st) as [st1 [r1 | call]] eqn:Hbegin;
        simpl in *.
      * intros [= <- <-]. split; [done |]. intros d ->. by apply (Hnot d).
      * intros Hcont.
        assert (Hcall : call_sessionId call = sid).
        { unfold sendRequest_begin in Hbegin.
          destruct (jsStringFalsy (trim request)); [done |].
          simpl in Hbegin. destruct (om_get sid (sessionModels st)); [| done].
          by injection Hbegin as <- <-. }
        destruct Hsame as (H1 & H2 & H3 & H4 & H5 & H6 & H7 & H8 & H9 & H10).
        destruct (sendRequest_continue_pending svc call st1 st' r) as [Hsame' Hnot'];
          [by rewrite Hcall, H3 | done |].
        split; [| done].
        destruct Hsame' as (G1 & G2 & G3 & G4 & G5 & G6 & G7 & G8 & G9 & G10).
        unfold sameSessions. repeat split; congruence.
    + intros call st' r <- Hcont. by eapply sendRequest_continue_pending.
  - intros D est responseVM request [p Hp]. unfold Editing.sendEditRequest.
    destruct (Editing.context request) as [| ctx [| ctx' rest]]; simpl; [done | | done].
    by rewrite Hp.
Qed.

(** The edit service while session [s1] has a pending edit request. *)
Definition editPending : @Editing.ServiceState Editing.Document :=
  (Editing._sendEditRequestAsync {| Editing.vm_id := "r1"; Editing.vm_sessionId := "s1" |}
     emptyEditService).2.

Lemma helloInFlight_reachable : reachable svc0 helloInFlight.
Proof. unfold reachable, helloInFlight. eexists [], _. reflexivity. Qed.

Lemma at_most_one_pending_operation_witness :
  pendingOperations helloInFlight "s1" = [1%nat] ∧
  (∀ st' r, sendRequest svc0 "s1" hello None helloInFlight = Some (st', r) ->
            sameSessions helloInFlight st' ∧ ∀ d, r ≠ Returned (Some d)) ∧
  (Editing.sendEditRequest {| Editing.vm_id := "r2"; Editing.vm_sessionId := "s1" |}
     {| Editing.context := [ {| Editing.code := "x"; Editing.codeBlockIndex := 0 |} ] |}
     editPending).2 = None.
Proof.
  destruct (at_most_one_pending_operation svc0 helloInFlight helloInFlight_reachable)
    as (Hone & Hsend & Hedit).
  split; [| split].
  - destruct (Hone "s1") as [-> _]. vm_compute. reflexivity.
  - assert (Hp : is_Some (pendingRequests helloInFlight !! "s1"))
      by (exists 1%nat; vm_compute; reflexivity).
    destruct (Hsend "s1" Hp) as [Hwhole _]. apply Hwhole.
  - apply (Hedit Editing.Document editPending).
    exists 0%nat. vm_compute. reflexivity.
Defined.

(** ** Removal of the pending operation *)



(** How the internal promise of a send comes to settle. *)
Inductive Outcome :=
  | AgentReturns (agentResult : option AgentResult)
  | AgentThrows (errMessage : string)
  | CannotHandle.        (* the request could not be handled: settled at the start *)

(** The outcomes that a send can still have. *)
Definition canSettle (o : Outcome) (s : Send) : Prop :=
  match o, send_phase s with
  | AgentReturns _, (InvokingAgent | ExecutingCommand) => True
  | AgentThrows _, (AwaitingActivation _ | InvokingAgent | ExecutingCommand) => True
  | CannotHandle, Settled => True
  | _, _ => False
  end.

(** The events of an outcome: the agent returns or throws, and then the
    [finally] callback of the promise runs. *)
Definition settling (t : nat) (o : Outcome) : list Event :=
  match o with
  | AgentReturns agentResult => [EAgentReturned t agentResult; ESettled t]
  | AgentThrows errMessage => [EAgentThrew t errMessage; ESettled t]
  | CannotHandle => [ESettled t]
  end.


Lemma sends_completeRequest (t : nat) (rawResult : option AgentResult) (st : State) (s : Send) :
  sends st !! t = Some s ->
  sends (completeRequest t rawResult st) !! t = Some (withPhase Settled s).
Proof.
  intros Hs. unfold completeRequest. rewrite Hs.
  destruct (isCancellationRequested t st), rawResult, (send_request s); simpl;
    by rewrite lookup_alter_eq, Hs.
Qed.







(** The send of [helloInFlight]. *)
Definition helloSend : Send :=
  {| send_model := 0; send_session := "s1";
     send_parsed := {| text := hello; agentPart := None;
                       agentSubcommandPart := None; slashCommandPart := None |};
     send_attempt := 0; send_request := Some 2%nat; send_gotProgress := true;
     send_phase := InvokingAgent |}.


(* ===================================================================== *)
(** * Further properties of the dispatcher                                 *)
(* ===================================================================== *)

(** ** Insertion-ordered maps *)

Section OrderedMapFacts.
Context {V : Type}.
Implicit Types (m : list (string * V)) (k : string) (v : V).

Lemma om_get_set_eq m k v : om_get k (om_set k v m) = Some v.
Proof.
  induction m as [| [k' w] m IH]; simpl.
  - by rewrite decide_True.
  - destruct (decide (k = k')) as [-> | Hne]; simpl.
    + by rewrite decide_True.
    + by rewrite decide_False.
Qed.

Lemma om_get_set_ne m k k' v : k ≠ k' -> om_get k' (om_set k v m) = om_get k' m.
Proof.
  intros Hne. induction m as [| [k0 w] m IH]; simpl.
  - by rewrite decide_False.
  - destruct (decide (k = k0)) as [-> | Hne0]; simpl.
    + by rewrite !decide_False.
    + destruct (decide (k' = k0)); [done | exact IH].
Qed.

Lemma om_get_None m k : om_get k m = None ↔ k ∉ m.*1.
Proof.
  induction m as [| [k' w] m IH]; simpl.
  - split; [intros _; apply not_elem_of_nil | done].
  - rewrite not_elem_of_cons. destruct (decide (k = k')) as [-> | Hne].
    + split; [done | tauto].
    + rewrite IH. tauto.
Qed.

Lemma om_get_Some_elem_of m k v : om_get k m = Some v -> (k, v) ∈ m.
Proof.
  induction m as [| [k' w] m IH]; simpl; [done |].
  destruct (decide (k = k')) as [-> | Hne].
  - intros [= ->]. by left.
  - intros Hget. right. by apply IH.
Qed.

Lemma om_keys_set m k v : (om_set k v m).*1 = m.*1 ∨ (om_set k v m).*1 = m.*1 ++ [k] ∧ k ∉ m.*1.
Proof.
  induction m as [| [k' w] m IH]; cbn [om_set].
  - right. split; [done | apply not_elem_of_nil].
  - destruct (decide (k = k')) as [-> | Hne]; rewrite !fmap_cons; cbn [fst]; [by left |].
    destruct IH as [-> | [-> Hnin]]; [by left |].
    right. split; [done |]. rewrite not_elem_of_cons. tauto.
Qed.

Lemma om_set_NoDup m k v : NoDup m.*1 -> NoDup (om_set k v m).*1.
Proof.
  intros Hnd. destruct (om_keys_set m k v) as [-> | [-> Hnin]]; [done |].
  apply NoDup_app. repeat split; [done | | apply NoDup_singleton].
  intros x Hx ->%list_elem_of_singleton. done.
Qed.

Lemma om_delete_subseteq m k : (om_delete k m).*1 ⊆ m.*1.
Proof.
  induction m as [| [k' w] m IH]; simpl; [done |].
  destruct (decide (k = k')); simpl.
  - intros x Hx. by right.
  - intros x [-> | Hx]%elem_of_cons; [by left | right; by apply IH].
Qed.

Lemma om_delete_NoDup m k : NoDup m.*1 -> NoDup (om_delete k m).*1.
Proof.
  induction m as [| [k' w] m IH]; simpl; [done |].
  intros [Hnin Hnd]%NoDup_cons. destruct (decide (k = k')); simpl; [done |].
  constructor; [| by apply IH]. intros Hin. by apply Hnin, (om_delete_subseteq m k).
Qed.

Lemma om_get_delete_eq m k : NoDup m.*1 -> om_get k (om_delete k m) = None.
Proof.
  induction m as [| [k' w] m IH]; simpl; [done |].
  intros [Hnin Hnd]%NoDup_cons. destruct (decide (k = k')) as [-> | Hne]; simpl.
  - by apply om_get_None.
  - rewrite decide_False by done. by apply IH.
Qed.

Lemma om_get_delete_ne m k k' : k ≠ k' -> om_get k' (om_delete k m) = om_get k' m.
Proof.
  intros Hne. induction m as [| [k0 w] m IH]; simpl; [done |].
  destruct (decide (k = k0)) as [-> | Hne0]; simpl.
  - by rewrite decide_False.
  - destruct (decide (k' = k0)); [done | exact IH].
Qed.

End OrderedMapFacts.

(** ** The session table *)

(** Unfold one piece of the dispatcher down to the field updates. *)
Ltac unfold_step :=
  unfold startSession, getOrRestoreSession, _startSession, onInitialized,
    onInitializationFailed, sendRequest_begin, sendRequest_continue, sendRequest_resume,
    _sendRequestAsync, pending_set, onActivated, progressCallback, onAgentReturned,
    completeRequest, onAgentThrew, onSettled, cancelCurrentRequestForSession,
    clearSession, cancelTokenSource, pending_deleteAndDispose, saveState, fresh in *.

(** Sending touches neither the session table nor the persisted sessions,
    the cancellations or the storage. *)
Lemma sendRequestAsync_frame (svc : Services) (model : nat) (sid : string)
    (parsedRequest : ParsedRequest) (att : Z) (defaultAgent : option ChatAgent) (st : State) :
  let st' := (_sendRequestAsync svc model sid parsedRequest att defaultAgent st).2 in
  sessionModels st' = sessionModels st ∧ persistedSessions st' = persistedSessions st ∧
  cancelled st' = cancelled st ∧ storage st' = storage st ∧ awaiting st' = awaiting st.
Proof.
  unfold _sendRequestAsync, pending_set. simpl.
  destruct (agentPart parsedRequest), defaultAgent, (slashCommandPart parsedRequest); simpl;
    try destruct (hasCommand svc _); simpl;
    destruct (pendingRequests st !! sid); simpl; done.
Qed.

Lemma sendRequest_resume_frame (svc : Services) (call : SendRequestCall)
    (m : ChatModel) (st : State) :
  let st' := (sendRequest_resume svc call m st).1 in
  sessionModels st' = sessionModels st ∧ persistedSessions st' = persistedSessions st ∧
  cancelled st' = cancelled st ∧ storage st' = storage st ∧ awaiting st' = awaiting st.
Proof.
  unfold sendRequest_resume.
  destruct (pendingRequests st !! call_sessionId call); [done |].
  destruct (parseChatRequest _ _ _ _ _) as [parsedRequest | err]; [| done].
  match goal with
  | |- context [_sendRequestAsync ?a ?b ?c ?d ?e ?f ?g] =>
      pose proof (sendRequestAsync_frame a b c d e f g) as Hframe;
      destruct (_sendRequestAsync a b c d e f g) as [source st']
  end.
  exact Hframe.
Qed.

Lemma sessionModels_step_NoDup (svc : Services) (st : State) (e : Event) :
  NoDup (sessionModels st).*1 -> NoDup (sessionModels (step svc st e)).*1.
Proof.
  intros Hnd. destruct e; cbn [step];
    try (unfold_step; simpl; repeat (case_match; simpl in *);
         repeat match goal with
                | Heq : (_, _) = (_, _) |- _ => injection Heq as ? ?
                end; subst; simpl;
         first [done | by apply om_set_NoDup | by apply om_delete_NoDup]).
  destruct (awaiting st !! i) as [call |]; [| done].
  unfold sendRequest_continue.
  change (heap (upd_awaiting (delete i) st)) with (heap st).
  destruct (heap st !! call_model call) as [m |]; [| done].
  destruct (initState m); try done.
  pose proof (sendRequest_resume_frame svc call m (upd_awaiting (delete i) st)) as Hframe.
  destruct (sendRequest_resume svc call m (upd_awaiting (delete i) st)) as [st' r].
  simpl in Hframe. destruct Hframe as [-> _]. done.
Qed.

(** In every state of the dispatcher the session table has one entry per
    session id. *)
Lemma sessionModels_NoDup (svc : Services) (st : State) :
  reachable svc st -> NoDup (sessionModels st).*1.
Proof.
  intros (persisted & es & ->).
  assert (Hinit : NoDup (sessionModels (upd_persistedSessions (fun _ => persisted) initialState)).*1)
    by apply NoDup_nil_2.
  revert Hinit. generalize (upd_persistedSessions (fun _ => persisted) initialState).
  induction es as [| e es IH]; intros st Hnd; [done |].
  simpl. apply IH. by apply sessionModels_step_NoDup.
Qed.

(** ** clearSession and getOrRestoreSession *)

Lemma cancelTokenSource_frame (t : nat) (st : State) :
  let st' := cancelTokenSource t st in
  sessionModels st' = sessionModels st ∧ persistedSessions st' = persistedSessions st ∧
  pendingRequests st' = pendingRequests st ∧ disposed st' = disposed st ∧
  nextId st' = nextId st ∧ t ∈ cancelled st'.
Proof.
  unfold cancelTokenSource, isCancellationRequested.
  case_bool_decide as Hc; [done |]. simpl.
  assert (Hin : t ∈ t :: cancelled st) by (by left).
  destruct (sends st !! t) as [s |]; [| done].
  destruct (listening s); [| done]. by destruct (send_request s).
Qed.

Lemma deleteAndDispose_frame (k : string) (st : State) :
  let st' := pending_deleteAndDispose k st in
  sessionModels st' = sessionModels st ∧ persistedSessions st' = persistedSessions st ∧
  cancelled st' = cancelled st ∧ heap st' = heap st ∧ nextId st' = nextId st ∧
  pendingRequests st' = delete k (pendingRequests st) ∧
  (∀ t, pendingRequests st !! k = Some t -> t ∈ disposed st').
Proof.
  unfold pending_deleteAndDispose.
  destruct (pendingRequests st !! k) as [old |] eqn:Hk; simpl.
  - repeat split; try done. intros t [= ->]. by left.
  - repeat split; try done. symmetry. by apply delete_id.
Qed.

(** Clearing a live session removes it from the session table, cancels and
    removes its pending operation, and keeps a snapshot of it in the table of
    persisted sessions if and only if it is a session of the panel; the other
    sessions keep their entries. *)
Theorem clearSession_removes_session (svc : Services) (st : State) (sid : string)
    (ref : nat) (m : ChatModel) :
  reachable svc st ->
  om_get sid (sessionModels st) = Some ref ->
  heap st !! ref = Some m ->
  let st' := (clearSession sid st).1 in
  (clearSession sid st).2 = Returned () ∧
  om_get sid (sessionModels st') = None ∧
  pendingRequests st' !! sid = None ∧
  (∀ t, pendingRequests st !! sid = Some t -> t ∈ cancelled st' ∧ t ∈ disposed st') ∧
  persistedSessions st' =
    (if decide (initialLocation m = Panel)
     then om_set sid (toJSON m) (persistedSessions st)
     else persistedSessions st) ∧
  (∀ sid', sid' ≠ sid ->
     om_get sid' (sessionModels st') = om_get sid' (sessionModels st) ∧
     pendingRequests st' !! sid' = pendingRequests st !! sid').
Proof.
  intros Hreach Hget Hm st'. subst st'.
  pose proof (sessionModels_NoDup svc st Hreach) as Hnd.
  unfold clearSession. simpl. rewrite Hget, Hm. simpl.
  set (st0 := if decide (initialLocation m = Panel) then _ else _).
  assert (Hst0 : sessionModels st0 = sessionModels st ∧
                 pendingRequests st0 = pendingRequests st ∧
                 persistedSessions st0 =
                   (if decide (initialLocation m = Panel)
                    then om_set sid (toJSON m) (persistedSessions st)
                    else persistedSessions st)).
  { subst st0. by destruct (decide (initialLocation m = Panel)). }
  destruct Hst0 as (Hs0 & Hp0 & Hps0). rewrite Hp0.
  set (st1 := upd_sessionModels (om_delete sid) st0).
  assert (Hst1 : sessionModels st1 = om_delete sid (sessionModels st) ∧
                 pendingRequests st1 = pendingRequests st ∧
                 persistedSessions st1 =
                   (if decide (initialLocation m = Panel)
                    then om_set sid (toJSON m) (persistedSessions st)
                    else persistedSessions st)).
  { subst st1. simpl. by rewrite Hs0, Hp0, Hps0. }
  destruct Hst1 as (Hs1 & Hp1 & Hps1).
  set (st2 := match pendingRequests st !! sid with
              | Some t => cancelTokenSource t st1
              | None => st1
              end).
  assert (Hst2 : sessionModels st2 = sessionModels st1 ∧
                 persistedSessions st2 = persistedSessions st1 ∧
                 pendingRequests st2 = pendingRequests st1 ∧
                 (∀ t, pendingRequests st !! sid = Some t -> t ∈ cancelled st2)).
  { subst st2. destruct (pendingRequests st !! sid) as [t |]; [| done].
    destruct (cancelTokenSource_frame t st1) as (-> & -> & -> & _ & _ & Hc).
    repeat split. by intros ? [= <-]. }
  destruct Hst2 as (Hs2 & Hps2 & Hp2 & Hc2).
  destruct (deleteAndDispose_frame sid st2) as (-> & -> & -> & _ & _ & -> & Hd).
  rewrite Hs2, Hs1, Hps2, Hps1, Hp2, Hp1.
  split; [done |]. split; [by apply om_get_delete_eq |].
  split; [apply lookup_delete_eq |]. split.
  - intros t Ht. split; [by apply Hc2 |]. apply Hd. by rewrite Hp2, Hp1.
  - split; [done |]. intros sid' Hne.
    split; [by apply om_get_delete_ne | by apply lookup_delete_ne].
Qed.

Lemma clearSession_removes_session_witness :
  let st' := (clearSession "s1" helloInFlight).1 in
  om_get "s1" (sessionModels st') = None ∧ pendingRequests st' !! "s1" = None ∧
  (1%nat ∈ cancelled st' ∧ 1%nat ∈ disposed st').
Proof.
  intros st'.
  destruct (clearSession_removes_session svc0 helloInFlight "s1" 0
              {| sessionId := "s1"; initialLocation := Panel; creationDate := 100;
                 requests := [ {| id := 2; parsed := send_parsed helloSend; attempt := 0;
                     response := {| fragments := [MarkdownContent "hi"]; result := None;
                                    isComplete := false; isCanceled := false |} |} ];
                 initState := Ready |}
              helloInFlight_reachable ltac:(vm_compute; reflexivity)
              ltac:(vm_compute; reflexivity))
    as (_ & Hgone & Hnone & Htoken & _).
  split; [exact Hgone |]. split; [exact Hnone |].
  apply Htoken. vm_compute. reflexivity.
Defined.

Lemma clearSession_nextId (sid : string) (st : State) :
  nextId (clearSession sid st).1 = nextId st.
Proof.
  unfold clearSession, cancelTokenSource, pending_deleteAndDispose. simpl.
  repeat (case_match; simpl); done.
Qed.

(** A cleared session of the panel can be restored: [getOrRestoreSession]
    makes a new model with the identity, the creation date and the requests of
    the cleared one, and enters it into the session table. *)
Theorem clearSession_restore_round_trip (svc : Services) (st : State) (sid : string)
    (ref : nat) (m : ChatModel) (now : Z) :
  reachable svc st ->
  om_get sid (sessionModels st) = Some ref ->
  heap st !! ref = Some m ->
  initialLocation m = Panel ->
  let st1 := (clearSession sid st).1 in
  let restored := {| sessionId := sessionId m; initialLocation := Panel;
                     creationDate := creationDate m; requests := requests m;
                     initState := Initializing |} in
  (getOrRestoreSession sid now st1).1 = Some (nextId st) ∧
  heap (getOrRestoreSession sid now st1).2 !! nextId st = Some restored ∧
  om_get (sessionId m) (sessionModels (getOrRestoreSession sid now st1).2) = Some (nextId st).
Proof.
  intros Hreach Hget Hm Hpanel st1 restored.
  destruct (clearSession_removes_session svc st sid ref m Hreach Hget Hm)
    as (_ & Hgone & _ & _ & Hpersisted & _).
  fold st1 in Hgone, Hpersisted. rewrite decide_True in Hpersisted by done.
  assert (Hnext : nextId st1 = nextId st) by apply clearSession_nextId.
  unfold getOrRestoreSession, _startSession. simpl.
  rewrite Hgone, Hpersisted, om_get_set_eq. simpl. rewrite Hnext, Hpanel.
  split; [done |]. split; [apply lookup_insert_eq | apply om_get_set_eq].
Qed.

Lemma clearSession_restore_round_trip_witness :
  let st1 := (clearSession "s1" helloInFlight).1 in
  (getOrRestoreSession "s1" 500 st1).1 = Some 3%nat ∧
  (requests <$> heap (getOrRestoreSession "s1" 500 st1).2 !! 3%nat) =
    (requests <$> heap helloInFlight !! 0%nat).
Proof.
  intros st1.
  destruct (clearSession_restore_round_trip svc0 helloInFlight "s1" 0
              {| sessionId := "s1"; initialLocation := Panel; creationDate := 100;
                 requests := [ {| id := 2; parsed := send_parsed helloSend; attempt := 0;
                     response := {| fragments := [MarkdownContent "hi"]; result := None;
                                    isComplete := false; isCanceled := false |} |} ];
                 initState := Ready |} 500
              helloInFlight_reachable ltac:(vm_compute; reflexivity)
              ltac:(vm_compute; reflexivity) eq_refl)
    as (Hret & Hheap & _).
  split; [exact Hret |].
  change (nextId helloInFlight) with 3%nat in Hheap. fold st1 in Hheap.
  rewrite Hheap. vm_compute. reflexivity.
Defined.

(** ** The history of persisted sessions *)

(** [IChatDetail] *)
Record ChatDetail := { detail_sessionId : string; detail_title : string }.

(** [sessions.sort((a, b) => (b.creationDate ?? 0) - (a.creationDate ?? 0))]
    on persisted sessions (the sort is stable). *)
Fixpoint sortInsertPersisted (a : SerializableChatData) (sorted : list SerializableChatData)
  : list SerializableChatData :=
  match sorted with
  | [] => [a]
  | b :: rest =>
      if (default 0 (p_creationDate b) - default 0 (p_creationDate a) <=? 0)
      then a :: b :: rest
      else b :: sortInsertPersisted a rest
  end.

Definition sortPersisted (l : list SerializableChatData) : list SerializableChatData :=
  foldr sortInsertPersisted [] l.

Section History.
(** [ChatModel.getDefaultTitle], which is not among the sources *)
Context (getDefaultTitle : list ChatRequestModel -> string).

(** The persisted sessions that [getHistory] lists, before they are turned
    into details. *)
Definition historySessions (st : State) : list SerializableChatData :=
  let sessions := filter (fun session => (0 < length (p_requests session))%nat)
                         (om_values (persistedSessions st)) in
  let sessions := sortPersisted sessions in
  filter (fun session => p_isImported session = false)
    (filter (fun session => om_has (p_sessionId session) (sessionModels st) = false) sessions).

(** [getHistory] *)
Definition getHistory (st : State) : list ChatDetail :=
  (fun item => {| detail_sessionId := p_sessionId item;
                  detail_title := getDefaultTitle (p_requests item) |})
    <$> historySessions st.

(** [removeHistoryEntry] *)
Definition removeHistoryEntry (sid : string) (st : State) : State :=
  saveState (upd_persistedSessions (om_delete sid) st).

(** [clearAllHistoryEntries] *)
Definition clearAllHistoryEntries (st : State) : State :=
  saveState (upd_persistedSessions (fun _ => []) st).

Definition persistedNotOlder (a b : SerializableChatData) : Prop :=
  default 0 (p_creationDate b) <= default 0 (p_creationDate a).

Lemma sortInsertPersisted_Permutation (a : SerializableChatData) (l : list SerializableChatData) :
  sortInsertPersisted a l ≡ₚ a :: l.
Proof.
  induction l as [| b l IH]; simpl; [done |].
  destruct (_ <=? 0); [done |]. rewrite IH. apply Permutation_swap.
Qed.

Lemma sortPersisted_Permutation (l : list SerializableChatData) : sortPersisted l ≡ₚ l.
Proof.
  induction l as [| a l IH]; simpl; [done |].
  rewrite sortInsertPersisted_Permutation. by rewrite IH.
Qed.

Lemma sortInsertPersisted_sorted (a : SerializableChatData) (l : list SerializableChatData) :
  StronglySorted persistedNotOlder l -> StronglySorted persistedNotOlder (sortInsertPersisted a l).
Proof.
  induction 1 as [| b l Hsorted IH Hall]; simpl.
  - repeat constructor.
  - destruct (default 0 (p_creationDate b) - default 0 (p_creationDate a) <=? 0) eqn:Hcmp.
    + apply Z.leb_le in Hcmp. constructor; [by constructor |].
      constructor; [unfold persistedNotOlder; lia |].
      eapply Forall_impl; [exact Hall |]. unfold persistedNotOlder. intros c Hc. lia.
    + apply Z.leb_gt in Hcmp. constructor; [exact IH |].
      rewrite sortInsertPersisted_Permutation.
      constructor; [unfold persistedNotOlder; lia | exact Hall].
Qed.

Lemma sortPersisted_sorted (l : list SerializableChatData) :
  StronglySorted persistedNotOlder (sortPersisted l).
Proof.
  induction l as [| a l IH]; simpl; [constructor | by apply sortInsertPersisted_sorted].
Qed.

Lemma StronglySorted_filter {A} (R : relation A) (P : A -> Prop) `{∀ x, Decision (P x)}
    (l : list A) :
  StronglySorted R l -> StronglySorted R (filter P l).
Proof.
  induction 1 as [| x l Hsorted IH Hall]; [constructor |].
  rewrite filter_cons. destruct (decide (P x)); [| done].
  constructor; [done |]. apply Forall_forall. intros y [_ Hy]%list_elem_of_filter.
  rewrite Forall_forall in Hall. by apply Hall.
Qed.

(** The history lists exactly the persisted sessions that have a request,
    are not live and were not imported, each as often as it is persisted,
    newest first; no entry is a live session. *)
Theorem getHistory_lists_idle_sessions (st : State) :
  (∃ sessions,
     getHistory st =
       (fun item => {| detail_sessionId := p_sessionId item;
                       detail_title := getDefaultTitle (p_requests item) |}) <$> sessions ∧
     StronglySorted persistedNotOlder sessions ∧
     sessions ≡ₚ
       filter (fun session => (0 < length (p_requests session))%nat ∧
                              om_has (p_sessionId session) (sessionModels st) = false ∧
                              p_isImported session = false)
              (om_values (persistedSessions st))) ∧
  (∀ detail, detail ∈ getHistory st ->
     om_get (detail_sessionId detail) (sessionModels st) = None).
Proof.
  split.
  - exists (historySessions st). split; [done |]. split.
    + unfold historySessions. do 2 apply StronglySorted_filter. apply sortPersisted_sorted.
    + unfold historySessions. rewrite sortPersisted_Permutation.
      generalize (om_values (persistedSessions st)). intros l.
      induction l as [| d l IH]; [done |].
      rewrite !filter_cons.
      destruct (decide (0 < length (p_requests d))%nat) as [Hreq | Hreq].
      * rewrite filter_cons.
        destruct (decide (om_has (p_sessionId d) (sessionModels st) = false)) as [Hlive | Hlive].
        -- rewrite filter_cons.
           destruct (decide (p_isImported d = false)) as [Himp | Himp].
           ++ rewrite decide_True by done. by rewrite IH.
           ++ rewrite decide_False by tauto. exact IH.
        -- rewrite decide_False by tauto. exact IH.
      * rewrite decide_False by tauto. exact IH.
  - intros detail (d & -> & Hin)%list_elem_of_fmap. simpl.
    unfold historySessions in Hin.
    apply list_elem_of_filter in Hin as [_ Hin].
    apply list_elem_of_filter in Hin as [Hlive _].
    unfold om_has in Hlive. by destruct (om_get _ _).
Qed.

(** Once all history entries are cleared the history is empty, and what is
    stored holds live sessions only. *)
Theorem clearAllHistoryEntries_empties_history (st : State) :
  getHistory (clearAllHistoryEntries st) = [] ∧
  persistedSessions (clearAllHistoryEntries st) = [] ∧
  sessionModels (clearAllHistoryEntries st) = sessionModels st ∧
  ∃ stored, storage (clearAllHistoryEntries st) = Some stored ∧
            ∀ x, x ∈ stored ->
                 ∃ m, x = LiveSession m ∧ m ∈ liveModels st ∧ initialLocation m = Panel.
Proof.
  unfold clearAllHistoryEntries.
  assert (Hfields : ∀ st0, persistedSessions (saveState st0) = persistedSessions st0 ∧
                           sessionModels (saveState st0) = sessionModels st0).
  { intros st0. unfold saveState. by destruct (take _ _). }
  destruct (Hfields (upd_persistedSessions (fun _ => []) st)) as [Hp Hs].
  split; [| split; [exact Hp | split; [exact Hs |]]].
  - unfold getHistory, historySessions. by rewrite Hp.
  - rewrite saveState_storage. eexists. split; [reflexivity |].
    intros x Hx. apply subseteq_take in Hx.
    rewrite sortByCreationDate_Permutation in Hx.
    unfold sessionsToPersist in Hx. simpl in Hx. rewrite app_nil_r in Hx.
    apply list_elem_of_fmap in Hx as (m & -> & Hm).
    apply list_elem_of_filter in Hm as [_ Hm].
    apply list_elem_of_filter in Hm as [Hloc Hm]. eauto.
Qed.

(** The persisted table is an object keyed by session id: every key occurs
    once and is the id of its session. *)
Definition persistedWellKeyed (st : State) : Prop :=
  NoDup (persistedSessions st).*1 ∧
  ∀ key d, (key, d) ∈ persistedSessions st -> p_sessionId d = key.

(** Removing a history entry takes the session out of the persisted table
    and out of the history and keeps every other persisted session. *)
Theorem removeHistoryEntry_removes (st : State) (sid : string) :
  persistedWellKeyed st ->
  let st' := removeHistoryEntry sid st in
  om_get sid (persistedSessions st') = None ∧
  (∀ sid', sid' ≠ sid ->
     om_get sid' (persistedSessions st') = om_get sid' (persistedSessions st)) ∧
  (∀ detail, detail ∈ getHistory st' -> detail_sessionId detail ≠ sid) ∧
  persistedWellKeyed st'.
Proof.
  intros [Hnd Hkeys] st'.
  assert (Hp : persistedSessions st' = om_delete sid (persistedSessions st)).
  { subst st'. unfold removeHistoryEntry, saveState. by destruct (take _ _). }
  assert (Hsub : ∀ x, x ∈ om_delete sid (persistedSessions st) -> x ∈ persistedSessions st).
  { generalize (persistedSessions st). intros l. induction l as [| [k w] l IH]; simpl; [done |].
    destruct (decide (sid = k)).
    - intros x Hx. by right.
    - intros x [-> | Hx]%elem_of_cons; [by left | right; by apply IH]. }
  rewrite Hp. split; [by apply om_get_delete_eq |].
  split; [intros sid' Hne; by apply om_get_delete_ne |]. split.
  - intros detail (d & -> & Hin)%list_elem_of_fmap. simpl. intros Heq.
    unfold historySessions in Hin. rewrite Hp in Hin.
    apply list_elem_of_filter in Hin as [_ Hin].
    apply list_elem_of_filter in Hin as [_ Hin].
    rewrite sortPersisted_Permutation in Hin.
    apply list_elem_of_filter in Hin as [_ Hin].
    apply list_elem_of_fmap in Hin as ([key d'] & Hd & Hin). simpl in Hd. subst d'.
    pose proof (Hkeys key _ (Hsub _ Hin)) as Hkey.
    assert (Hnone : om_get sid (om_delete sid (persistedSessions st)) = None)
      by (by apply om_get_delete_eq).
    apply om_get_None in Hnone. apply Hnone.
    apply list_elem_of_fmap. exists (key, d).
    split; [simpl; congruence | done].
  - unfold persistedWellKeyed. rewrite Hp.
    split; [by apply om_delete_NoDup |]. intros key d Hin. by apply Hkeys, Hsub.
Qed.

End History.

(** A request with its finished response, as a persisted session holds it. *)
Definition helloRequest : ChatRequestModel :=
  {| id := 2; parsed := send_parsed helloSend; attempt := 0;
     response := {| fragments := [MarkdownContent "hi"]; result := Some okResult;
                    isComplete := true; isCanceled := false |} |}.

(** Two persisted sessions, the older one first, and no live session. *)
Definition twoPersisted : State :=
  upd_persistedSessions
    (fun _ => [("old", {| p_sessionId := "old"; p_creationDate := Some 10;
                          p_initialLocation := Some Panel;
                          p_requests := [helloRequest]; p_isImported := false |});
               ("new", {| p_sessionId := "new"; p_creationDate := Some 20;
                          p_initialLocation := Some Panel;
                          p_requests := [helloRequest]; p_isImported := false |})])
    initialState.

Lemma twoPersisted_wellKeyed : persistedWellKeyed twoPersisted.
Proof.
  split.
  - apply NoDup_ListNoDup. vm_compute. repeat constructor; simpl; intuition discriminate.
  - intros key d Hin. vm_compute in Hin.
    repeat (apply elem_of_cons in Hin as [Hin | Hin]; [by inversion Hin |]).
    by apply elem_of_nil in Hin.
Qed.

Lemma removeHistoryEntry_removes_witness :
  om_get "old" (persistedSessions (removeHistoryEntry "old" twoPersisted)) = None ∧
  ∀ detail, detail ∈ getHistory (fun _ => "title") (removeHistoryEntry "old" twoPersisted) ->
            detail_sessionId detail ≠ "old".
Proof.
  destruct (removeHistoryEntry_removes (fun _ => "title") twoPersisted "old"
              twoPersisted_wellKeyed) as (Hgone & _ & Hhistory & _).
  split; [exact Hgone | exact Hhistory].
Defined.

(** ** The session table and the models *)

(** Every entry of the session table names a model that exists and carries
    the session id it is entered under; model references are never reused. *)
Record SessionsInv (st : State) : Prop := {
  sinv_nodup : NoDup (sessionModels st).*1;
  sinv_heap : ∀ ref, is_Some (heap st !! ref) -> (ref < nextId st)%nat;
  sinv_keyed : ∀ sid ref, om_get sid (sessionModels st) = Some ref ->
                          ∃ m, heap st !! ref = Some m ∧ sessionId m = sid;
}.

Lemma SessionsInv_frame (st st' : State) :
  SessionsInv st ->
  sessionModels st' = sessionModels st ->
  heap st' = heap st ->
  (nextId st <= nextId st')%nat ->
  SessionsInv st'.
Proof.
  intros [Hnd Hheap Hkeyed] Hs Hh Hn.
  constructor; rewrite ?Hs, ?Hh; [done | | done].
  intros ref Href. specialize (Hheap ref Href). lia.
Qed.

Lemma SessionsInv_upd_log (f : list LogEntry -> list LogEntry) (st : State) :
  SessionsInv st -> SessionsInv (upd_log f st).
Proof. intros Hinv. by apply (SessionsInv_frame st). Qed.

Lemma SessionsInv_trace (m msg : string) (st : State) :
  SessionsInv st -> SessionsInv (trace m msg st).
Proof. apply SessionsInv_upd_log. Qed.

Lemma SessionsInv_error (m msg : string) (st : State) :
  SessionsInv st -> SessionsInv (error m msg st).
Proof. apply SessionsInv_upd_log. Qed.

Lemma SessionsInv_publicLog2 (m msg : string) (st : State) :
  SessionsInv st -> SessionsInv (publicLog2 m msg st).
Proof. apply SessionsInv_upd_log. Qed.

Lemma SessionsInv_upd_pendingRequests (f : gmap string nat -> gmap string nat) (st : State) :
  SessionsInv st -> SessionsInv (upd_pendingRequests f st).
Proof. intros Hinv. by apply (SessionsInv_frame st). Qed.

Lemma SessionsInv_upd_persistedSessions
    (f : list (string * SerializableChatData) -> list (string * SerializableChatData)) (st : State) :
  SessionsInv st -> SessionsInv (upd_persistedSessions f st).
Proof. intros Hinv. by apply (SessionsInv_frame st). Qed.

Lemma SessionsInv_upd_tokenSources (f : list (nat * string) -> list (nat * string)) (st : State) :
  SessionsInv st -> SessionsInv (upd_tokenSources f st).
Proof. intros Hinv. by apply (SessionsInv_frame st). Qed.

Lemma SessionsInv_upd_cancelled (f : list nat -> list nat) (st : State) :
  SessionsInv st -> SessionsInv (upd_cancelled f st).
Proof. intros Hinv. by apply (SessionsInv_frame st). Qed.

Lemma SessionsInv_upd_disposed (f : list nat -> list nat) (st : State) :
  SessionsInv st -> SessionsInv (upd_disposed f st).
Proof. intros Hinv. by apply (SessionsInv_frame st). Qed.

Lemma SessionsInv_upd_sends (f : gmap nat Send -> gmap nat Send) (st : State) :
  SessionsInv st -> SessionsInv (upd_sends f st).
Proof. intros Hinv. by apply (SessionsInv_frame st). Qed.

Lemma SessionsInv_onSend (t : nat) (f : Send -> Send) (st : State) :
  SessionsInv st -> SessionsInv (onSend t f st).
Proof. apply SessionsInv_upd_sends. Qed.

Lemma SessionsInv_upd_awaiting (f : list SendRequestCall -> list SendRequestCall) (st : State) :
  SessionsInv st -> SessionsInv (upd_awaiting f st).
Proof. intros Hinv. by apply (SessionsInv_frame st). Qed.

Lemma SessionsInv_upd_storage
    (f : option (list SessionSnapshot) -> option (list SessionSnapshot)) (st : State) :
  SessionsInv st -> SessionsInv (upd_storage f st).
Proof. intros Hinv. by apply (SessionsInv_frame st). Qed.

Lemma SessionsInv_upd_nextId (st : State) : SessionsInv st -> SessionsInv (upd_nextId S st).
Proof. intros Hinv. apply (SessionsInv_frame st); simpl; try done. lia. Qed.

(** The methods of a model keep its session id. *)
Lemma SessionsInv_onModel (ref : nat) (f : ChatModel -> ChatModel) (st : State) :
  (∀ m, sessionId (f m) = sessionId m) ->
  SessionsInv st -> SessionsInv (onModel ref f st).
Proof.
  intros Hf [Hnd Hheap Hkeyed]. constructor; simpl; [done | |].
  - intros r Hr. apply Hheap. by apply lookup_alter_is_Some in Hr.
  - intros sid r Hget. destruct (Hkeyed sid r Hget) as (m & Hm & Hid).
    destruct (decide (r = ref)) as [-> |].
    + exists (f m). rewrite lookup_alter_eq, Hm. split; [done |]. by rewrite Hf.
    + exists m. by rewrite lookup_alter_ne.
Qed.

Lemma SessionsInv_delete (sid : string) (st : State) :
  SessionsInv st -> SessionsInv (upd_sessionModels (om_delete sid) st).
Proof.
  intros [Hnd Hheap Hkeyed]. constructor; simpl; [by apply om_delete_NoDup | done |].
  intros sid' ref Hget. apply Hkeyed.
  destruct (decide (sid = sid')) as [<- | Hne].
  - by rewrite om_get_delete_eq in Hget.
  - by rewrite om_get_delete_ne in Hget.
Qed.

Lemma SessionsInv_startSession (someSessionHistory : option SerializableChatData)
    (freshSessionId : string) (now : Z) (location : AideChatAgentLocation) (st : State) :
  SessionsInv st ->
  SessionsInv (_startSession someSessionHistory freshSessionId now location st).2.
Proof.
  intros [Hnd Hheap Hkeyed]. unfold _startSession, fresh. simpl.
  set (model := match someSessionHistory with Some _ => _ | None => _ end).
  constructor; simpl.
  - by apply om_set_NoDup.
  - intros ref Href. destruct (decide (ref = nextId st)) as [-> | Hne]; [lia |].
    rewrite lookup_insert_ne in Href by done. specialize (Hheap ref Href). lia.
  - intros sid ref Hget. destruct (decide (sessionId model = sid)) as [<- | Hne].
    + rewrite om_get_set_eq in Hget. injection Hget as <-.
      exists model. by rewrite lookup_insert_eq.
    + rewrite om_get_set_ne in Hget by done.
      destruct (Hkeyed sid ref Hget) as (m & Hm & Hid). exists m. split; [| done].
      rewrite lookup_insert_ne; [done |].
      intros <-. assert (nextId st < nextId st)%nat by (apply Hheap; eauto). lia.
Qed.

Ltac sinv_chain :=
  repeat first
    [ assumption
    | apply SessionsInv_trace | apply SessionsInv_error | apply SessionsInv_publicLog2
    | apply SessionsInv_upd_log | apply SessionsInv_upd_pendingRequests
    | apply SessionsInv_upd_persistedSessions | apply SessionsInv_upd_tokenSources
    | apply SessionsInv_upd_cancelled | apply SessionsInv_upd_disposed
    | apply SessionsInv_upd_sends | apply SessionsInv_onSend
    | apply SessionsInv_upd_awaiting | apply SessionsInv_upd_storage
    | apply SessionsInv_upd_nextId | apply SessionsInv_delete
    | apply SessionsInv_onModel; [intros ?; reflexivity |] ].

Ltac sinv_cases :=
  simpl; repeat (case_match; simpl in *);
  repeat match goal with
         | Heq : (_, _) = (_, _) |- _ => injection Heq as ? ?
         end;
  subst; sinv_chain.

Lemma SessionsInv_deleteAndDispose (k : string) (st : State) :
  SessionsInv st -> SessionsInv (pending_deleteAndDispose k st).
Proof. intros Hinv. unfold pending_deleteAndDispose. sinv_cases. Qed.

Lemma SessionsInv_cancelTokenSource (t : nat) (st : State) :
  SessionsInv st -> SessionsInv (cancelTokenSource t st).
Proof. intros Hinv. unfold cancelTokenSource. sinv_cases. Qed.

Lemma SessionsInv_sendRequestAsync (svc : Services) (model : nat) (sid : string)
    (parsedRequest : ParsedRequest) (att : Z) (defaultAgent : option ChatAgent) (st : State) :
  SessionsInv st ->
  SessionsInv (_sendRequestAsync svc model sid parsedRequest att defaultAgent st).2.
Proof. intros Hinv. unfold _sendRequestAsync, pending_set, fresh. sinv_cases. Qed.

Lemma SessionsInv_completeRequest (t : nat) (rawResult : option AgentResult) (st : State) :
  SessionsInv st -> SessionsInv (completeRequest t rawResult st).
Proof. intros Hinv. unfold completeRequest. sinv_cases. Qed.

Lemma SessionsInv_sendRequest_resume (svc : Services) (call : SendRequestCall)
    (m : ChatModel) (st : State) :
  SessionsInv st -> SessionsInv (sendRequest_resume svc call m st).1.
Proof.
  intros Hinv. unfold sendRequest_resume.
  destruct (pendingRequests st !! call_sessionId call); [simpl; sinv_chain |].
  destruct (parseChatRequest _ _ _ _ _) as [parsedRequest | err]; [| done].
  match goal with
  | |- context [_sendRequestAsync ?a ?b ?c ?d ?e ?f ?g] =>
      pose proof (SessionsInv_sendRequestAsync a b c d e f g Hinv) as Hinv';
      destruct (_sendRequestAsync a b c d e f g) as [source st']
  end.
  exact Hinv'.
Qed.

Lemma SessionsInv_step (svc : Services) (st : State) (e : Event) :
  SessionsInv st -> SessionsInv (step svc st e).
Proof.
  intros Hinv. destruct e; cbn [step].
  - unfold startSession. apply SessionsInv_startSession. sinv_chain.
  - unfold getOrRestoreSession. cbn zeta.
    change (sessionModels (trace "getOrRestoreSession" "sessionId" st)) with (sessionModels st).
    change (persistedSessions (trace "getOrRestoreSession" "sessionId" st))
      with (persistedSessions st).
    destruct (om_get sid (sessionModels st)); [simpl; sinv_chain |].
    destruct (om_get sid (persistedSessions st)) as [d |]; [| simpl; sinv_chain].
    pose proof (SessionsInv_startSession (Some d) sid now (default Panel (p_initialLocation d))
                  (trace "getOrRestoreSession" "sessionId" st)) as Hstart.
    destruct (_startSession _ _ _ _ _) as [ref st']. simpl. apply Hstart. sinv_chain.
  - unfold onInitialized. sinv_cases.
  - unfold onInitializationFailed. sinv_cases.
  - unfold sendRequest_begin. sinv_cases.
  - destruct (awaiting st !! i) as [call |]; [| done].
    unfold sendRequest_continue.
    change (heap (upd_awaiting (delete i) st)) with (heap st).
    destruct (heap st !! call_model call) as [m |]; [| done].
    destruct (initState m); try done; [| sinv_chain].
    apply SessionsInv_sendRequest_resume. sinv_chain.
  - unfold onActivated, fresh. sinv_cases.
  - unfold progressCallback. sinv_cases.
  - unfold onAgentReturned. sinv_cases; by apply SessionsInv_completeRequest.
  - unfold onAgentThrew. sinv_cases.
  - unfold onSettled. sinv_cases; by apply SessionsInv_deleteAndDispose.
  - unfold cancelCurrentRequestForSession. sinv_cases;
      apply SessionsInv_deleteAndDispose; try apply SessionsInv_cancelTokenSource; sinv_chain.
  - unfold clearSession. sinv_cases;
      apply SessionsInv_deleteAndDispose; try apply SessionsInv_cancelTokenSource; sinv_chain.
  - unfold saveState. sinv_cases.
Qed.

Lemma SessionsInv_reachable (svc : Services) (st : State) :
  reachable svc st -> SessionsInv st.
Proof.
  intros (persisted & es & ->).
  assert (Hinit : SessionsInv (upd_persistedSessions (fun _ => persisted) initialState)).
  { constructor; simpl; [apply NoDup_nil_2 | |].
    - intros ref [m Hm]. by rewrite lookup_empty in Hm.
    - by intros sid ref. }
  revert Hinit. generalize (upd_persistedSessions (fun _ => persisted) initialState).
  induction es as [| e es IH]; intros st Hinv; [done |].
  simpl. apply IH. by apply SessionsInv_step.
Qed.

Lemma om_get_elem_of {V} (m : list (string * V)) (k : string) (v : V) :
  NoDup m.*1 -> (k, v) ∈ m -> om_get k m = Some v.
Proof.
  induction m as [| [k' v'] m IH]; [by intros _ ?%elem_of_nil |].
  rewrite fmap_cons, NoDup_cons. simpl. intros [Hk Hnd] Hin.
  apply elem_of_cons in Hin as [[= <- <-] | Hin]; [by rewrite decide_True |].
  rewrite decide_False; [by apply IH |].
  intros ->. apply Hk. apply list_elem_of_fmap. by exists (k', v).
Qed.

(** In every state of the dispatcher each entry of the session table names
    an existing model that carries the session id of the entry, and every
    live model is found under its own session id. *)
Theorem session_table_is_keyed_by_session_id (svc : Services) (st : State) :
  reachable svc st ->
  NoDup (sessionModels st).*1 ∧
  (∀ sid ref, om_get sid (sessionModels st) = Some ref ->
              ∃ m, heap st !! ref = Some m ∧ sessionId m = sid) ∧
  (∀ m, m ∈ liveModels st -> om_has (sessionId m) (sessionModels st) = true).
Proof.
  intros [Hnd Hheap Hkeyed]%SessionsInv_reachable.
  split; [done |]. split; [done |].
  intros m Hm. unfold liveModels in Hm.
  apply list_elem_of_omap in Hm as (ref & Href & Hm).
  apply list_elem_of_fmap in Href as ([sid ref'] & -> & Hin). simpl in Hm.
  pose proof (om_get_elem_of _ _ _ Hnd Hin) as Hget.
  destruct (Hkeyed sid ref' Hget) as (m' & Hm' & Hid).
  rewrite Hm' in Hm. injection Hm as <-. unfold om_has. by rewrite Hid, Hget.
Qed.

Lemma session_table_is_keyed_by_session_id_witness :
  ∃ m, heap helloInFlight !! 0%nat = Some m ∧ sessionId m = "s1".
Proof.
  destruct (session_table_is_keyed_by_session_id svc0 helloInFlight helloInFlight_reachable)
    as (_ & Hkeyed & _).
  apply Hkeyed. vm_compute. reflexivity.
Defined.

(** ** Cancellation *)

(** A cancelled token source stays cancelled. *)
Lemma cancelled_step (svc : Services) (st : State) (e : Event) (t : nat) :
  t ∈ cancelled st -> t ∈ cancelled (step svc st e).
Proof.
  intros Hc. destruct e; cbn [step];
    try (unfold_step; simpl; repeat (case_match; simpl in *);
         repeat match goal with
                | Heq : (_, _) = (_, _) |- _ => injection Heq as ? ?
                end; subst; simpl;
         first [done | by right]).
  destruct (awaiting st !! i) as [call |]; [| done].
  unfold sendRequest_continue.
  change (heap (upd_awaiting (delete i) st)) with (heap st).
  destruct (heap st !! call_model call) as [m |]; [| done].
  destruct (initState m); try done.
  pose proof (sendRequest_resume_frame svc call m (upd_awaiting (delete i) st)) as Hframe.
  destruct (sendRequest_resume svc call m (upd_awaiting (delete i) st)) as [st' r].
  simpl in Hframe. destruct Hframe as (_ & _ & -> & _). done.
Qed.

Lemma cancelled_run (svc : Services) (es : list Event) (st : State) (t : nat) :
  t ∈ cancelled st -> t ∈ cancelled (run svc st es).
Proof.
  revert st. induction es as [| e es IH]; intros st Hc; [done |].
  simpl. apply IH. by apply cancelled_step.
Qed.

(** Once the pending request of a session is cancelled, whatever happens
    afterwards, progress that its agent still reports is dropped: it is not
    logged, it does not count as output and it does not reach the model. *)
Theorem progress_after_cancel_is_dropped (svc : Services) (st : State) (sid : string) (t : nat) :
  pendingRequests st !! sid = Some t ->
  ∀ (es : list Event) (progress : ChatProgress),
    let st' := run svc (cancelCurrentRequestForSession sid st) es in
    isCancellationRequested t st' = true ∧
    progressCallback t progress st' = st' ∧
    step svc st' (EProgress t progress) = st'.
Proof.
  intros Hp es progress st'.
  assert (Hc : t ∈ cancelled st').
  { subst st'. apply cancelled_run. unfold cancelCurrentRequestForSession.
    change (pendingRequests (trace "cancelCurrentRequestForSession" "sessionId" st))
      with (pendingRequests st). rewrite Hp.
    destruct (deleteAndDispose_frame sid
                (cancelTokenSource t (trace "cancelCurrentRequestForSession" "sessionId" st)))
      as (_ & _ & -> & _).
    apply cancelTokenSource_frame. }
  assert (Hflag : isCancellationRequested t st' = true)
    by (unfold isCancellationRequested; by rewrite bool_decide_eq_true).
  split; [done |].
  assert (Hdrop : progressCallback t progress st' = st').
  { unfold progressCallback. rewrite Hflag. by destruct (sends st' !! t). }
  split; [exact Hdrop | exact Hdrop].
Qed.

Lemma progress_after_cancel_is_dropped_witness :
  let st' := run svc0 (cancelCurrentRequestForSession "s1" helloInFlight)
               [EProgress 1 (MarkdownContent "late")] in
  progressCallback 1 (MarkdownContent "more") st' = st'.
Proof.
  intros st'.
  destruct (progress_after_cancel_is_dropped svc0 helloInFlight "s1" 1
              ltac:(vm_compute; reflexivity) [EProgress 1 (MarkdownContent "late")]
              (MarkdownContent "more")) as (_ & Hdrop & _).
  exact Hdrop.
Defined.

(** ** The callback that ends a send *)

(** The callback that runs when a send has settled removes and disposes the
    pending request that the session has at that moment, whichever send it
    belongs to: a newer send of the same session loses its entry although it
    has not settled and its token was not cancelled, so that the session
    accepts the next request while that send is still running. *)
Theorem settled_send_removes_pending_of_session (svc : Services) (st : State)
    (t t' : nat) (s s' : Send) :
  reachable svc st ->
  sends st !! t = Some s ->
  send_phase s = Settled ->
  pendingRequests st !! send_session s = Some t' ->
  sends st !! t' = Some s' ->
  t' ≠ t ->
  let st' := onSettled t st in
  pendingRequests st' !! send_session s = None ∧
  pendingOperations st' (send_session s) = [] ∧
  t' ∈ disposed st' ∧
  sends st' !! t' = Some s' ∧
  (t' ∈ cancelled st' ↔ t' ∈ cancelled st) ∧
  send_phase <$> sends st' !! t = Some Finished.
Proof.
  intros Hreach Ht Hphase Hp Ht' Hne st'.
  pose proof (TokensInv_reachable svc st Hreach) as Hinv.
  assert (Hinv' : TokensInv st') by (by apply TokensInv_onSettled).
  subst st'. unfold onSettled in *. rewrite Ht, Hphase in *.
  destruct (deleteAndDispose_frame (send_session s) st) as (_ & _ & Hc & _ & _ & Hpend & Hd).
  split; [| split; [| split; [| split; [| split]]]].
  - change (pendingRequests (onSend t (withPhase Finished)
              (pending_deleteAndDispose (send_session s) st)))
      with (pendingRequests (pending_deleteAndDispose (send_session s) st)).
    rewrite Hpend. apply lookup_delete_eq.
  - rewrite (pendingOperations_entry _ _ Hinv').
    change (pendingRequests (onSend t (withPhase Finished)
              (pending_deleteAndDispose (send_session s) st)))
      with (pendingRequests (pending_deleteAndDispose (send_session s) st)).
    rewrite Hpend. by rewrite lookup_delete_eq.
  - by apply Hd.
  - simpl. rewrite lookup_alter_ne by done.
    unfold pending_deleteAndDispose. by rewrite Hp.
  - change (cancelled (onSend t (withPhase Finished)
              (pending_deleteAndDispose (send_session s) st)))
      with (cancelled (pending_deleteAndDispose (send_session s) st)).
    by rewrite Hc.
  - simpl. rewrite lookup_alter_eq.
    unfold pending_deleteAndDispose. rewrite Hp. simpl. by rewrite Ht.
Qed.

(** The first send of [s1] is cancelled, a second one is accepted and
    started, then the agent of the first one gives up. *)
Definition helloAgain : State :=
  run svc0 helloInFlight
    [ECancel "s1"; ESendRequest "s1" hello None; EResumeSendRequest 0; EActivated 3;
     EAgentThrew 1 "Canceled"].

Lemma helloAgain_reachable : reachable svc0 helloAgain.
Proof.
  unfold reachable, helloAgain, helloInFlight, run. eexists [], _.
  rewrite <- foldl_app. reflexivity.
Qed.

Lemma settled_send_removes_pending_of_session_witness :
  let st' := onSettled 1 helloAgain in
  send_phase <$> sends helloAgain !! 3%nat = Some InvokingAgent ∧
  pendingRequests st' !! "s1" = None ∧ 3%nat ∈ disposed st' ∧
  send_phase <$> sends st' !! 3%nat = Some InvokingAgent ∧
  ¬ 3%nat ∈ cancelled st'.
Proof.
  intros st'.
  destruct (settled_send_removes_pending_of_session svc0 helloAgain 1 3
              {| send_model := 0; send_session := "s1"; send_parsed := send_parsed helloSend;
                 send_attempt := 0; send_request := Some 2%nat; send_gotProgress := true;
                 send_phase := Settled |}
              {| send_model := 0; send_session := "s1"; send_parsed := send_parsed helloSend;
                 send_attempt := 0; send_request := Some 4%nat; send_gotProgress := false;
                 send_phase := InvokingAgent |}
              helloAgain_reachable ltac:(vm_compute; reflexivity) ltac:(reflexivity)
              ltac:(vm_compute; reflexivity) ltac:(vm_compute; reflexivity) ltac:(lia))
    as (Hgone & _ & Hdisposed & Hsend & Hcancelled & _).
  split; [vm_compute; reflexivity |].
  split; [exact Hgone |]. split; [exact Hdisposed |].
  split; [fold st' in Hsend; by rewrite Hsend |].
  intros Hc. pose proof (proj1 Hcancelled Hc) as Hc0.
  assert (Hl : cancelled helloAgain = [1%nat]) by (vm_compute; reflexivity).
  rewrite Hl in Hc0. apply list_elem_of_singleton in Hc0. discriminate Hc0.
Defined.

(** ** Accepting and rejecting a request *)

Lemma sameSessions_trace (method msg : string) (st : State) :
  sameSessions st (trace method msg st).
Proof. unfold sameSessions. by repeat split. Qed.

(** [sendRequest] either accepts the request, and then the session had no
    pending request, a new token source is created and entered as the one
    pending request of the session, or it leaves everything but the log as it
    was: a rejected or failed call creates no token source, no send and no
    request. *)
Theorem sendRequest_accepts_or_changes_nothing (svc : Services) (st st' : State)
    (sid : string) (request : jsString) (options : option SendRequestOptions)
    (r : Completion (option SendRequestData)) :
  reachable svc st ->
  sendRequest svc sid request options st = Some (st', r) ->
  match r with
  | Returned (Some data) =>
      pendingRequests st !! sid = None ∧
      responseCompletePromise data = nextId st ∧
      tokenSources st' = (nextId st, sid) :: tokenSources st ∧
      pendingRequests st' = <[sid := nextId st]> (pendingRequests st) ∧
      pendingOperations st' sid = [nextId st] ∧
      disposed st' = disposed st
  | _ => sameSessions st st'
  end.
Proof.
  intros Hreach. pose proof (TokensInv_reachable svc st Hreach) as Hinv.
  unfold sendRequest, sendRequest_begin.
  destruct (jsStringFalsy (trim request)).
  { intros [= <- <-]. unfold sameSessions. by repeat split. }
  change (sessionModels (trace "sendRequest" "sessionId, message" st)) with (sessionModels st).
  destruct (om_get sid (sessionModels st)) as [model |].
  2: { intros [= <- <-]. unfold sameSessions. by repeat split. }
  unfold sendRequest_continue.
  change (heap (trace "sendRequest" "sessionId, message" st)) with (heap st).
  cbn [call_model].
  destruct (heap st !! model) as [m |]; [| done].
  destruct (initState m); try done.
  2: { intros [= <- <-]. unfold sameSessions. by repeat split. }
  unfold sendRequest_resume. cbn [call_sessionId call_options call_request call_model].
  change (pendingRequests (trace "sendRequest" "sessionId, message" st))
    with (pendingRequests st).
  destruct (pendingRequests st !! sid) as [t |] eqn:Hp.
  { intros [= <- <-]. unfold sameSessions. by repeat split. }
  destruct (parseChatRequest _ _ _ _ _) as [parsedRequest | err].
  2: { intros [= <- <-]. unfold sameSessions. by repeat split. }
  set (st0 := trace "sendRequest" "sessionId, message" st).
  match goal with
  | |- context [_sendRequestAsync ?a ?b ?c ?d ?e ?f ?g] =>
      pose proof (sendRequestAsync_effect a b c d e f g) as Heffect;
      pose proof (TokensInv_sendRequestAsync a b c d e f g) as Hinv';
      destruct (_sendRequestAsync a b c d e f g) as [source st1]
  end.
  cbn zeta in Heffect. simpl in Heffect.
  destruct Heffect as (-> & Htokens & Hpending & Hdisposed & _ & _).
  intros [= <- <-]. cbn [responseCompletePromise].
  rewrite Hp in Hdisposed.
  split; [done |]. split; [done |]. split; [done |]. split; [done |].
  split; [| done].
  rewrite pendingOperations_entry by (apply Hinv'; by apply TokensInv_trace).
  simpl. rewrite Hpending. by rewrite lookup_insert_eq.
Qed.

(** Session [s1] is started and initialized. *)
Definition helloReady : State :=
  run svc0 initialState [EStartSession "s1" 100 Panel; EInitialized 0].

Lemma helloReady_reachable : reachable svc0 helloReady.
Proof. unfold reachable, helloReady. eexists [], _. reflexivity. Qed.

Lemma sendRequest_accepts_or_changes_nothing_witness :
  ∃ st' data,
    sendRequest svc0 "s1" hello None helloReady = Some (st', Returned (Some data)) ∧
    responseCompletePromise data = 1%nat ∧ pendingOperations st' "s1" = [1%nat].
Proof.
  destruct (sendRequest svc0 "s1" hello None helloReady) as [[st' r] |] eqn:Hsend.
  2: { vm_compute in Hsend. discriminate. }
  assert (Hr : ∃ data, r = Returned (Some data)).
  { pose proof Hsend as Hrun. vm_compute in Hrun. injection Hrun as _ <-. eauto. }
  destruct Hr as [data ->].
  destruct (sendRequest_accepts_or_changes_nothing svc0 helloReady st' "s1" hello None _
              helloReady_reachable Hsend) as (_ & Hpromise & _ & _ & Hops & _).
  exists st', data. split; [reflexivity |]. split; [exact Hpromise | exact Hops].
Defined.

(** Whether a request names an agent that is not registered. *)
Definition namesUnknownAgent (svc : Services) (options : option SendRequestOptions) : bool :=
  match options ≫= opt_agentId with
  | Some (String c rest) =>
      match getAgent svc (String c rest) with None => true | Some _ => false end
  | _ => false
  end.

(** A request with text for a session that is initialized and has no pending
    request is accepted, unless it names an agent that is not registered: then
    [sendRequest] throws and the session stays without pending request. *)
Theorem sendRequest_on_idle_session (svc : Services) (st : State) (sid : string) (ref : nat)
    (m : ChatModel) (request : jsString) (options : option SendRequestOptions) :
  reachable svc st ->
  jsStringFalsy (trim request) = false ->
  om_get sid (sessionModels st) = Some ref ->
  heap st !! ref = Some m ->
  initState m = Ready ->
  pendingRequests st !! sid = None ->
  ∃ st' r,
    sendRequest svc sid request options st = Some (st', r) ∧
    if namesUnknownAgent svc options
    then r = Thrown "Unknown agent" ∧ pendingRequests st' !! sid = None
    else ∃ data, r = Returned (Some data) ∧
                 pendingRequests st' !! sid = Some (responseCompletePromise data) ∧
                 send_session <$> sends st' !! responseCompletePromise data = Some sid ∧
                 (∀ sid', sid' ≠ sid -> pendingRequests st' !! sid' = pendingRequests st !! sid').
Proof.
  intros Hreach Htext Hget Hm Hready Hp.
  unfold sendRequest, sendRequest_begin. rewrite Htext.
  change (sessionModels (trace "sendRequest" "sessionId, message" st)) with (sessionModels st).
  rewrite Hget. unfold sendRequest_continue.
  change (heap (trace "sendRequest" "sessionId, message" st)) with (heap st).
  cbn [call_model]. rewrite Hm, Hready.
  unfold sendRequest_resume. cbn [call_sessionId call_options call_request call_model].
  change (pendingRequests (trace "sendRequest" "sessionId, message" st))
    with (pendingRequests st).
  rewrite Hp. unfold namesUnknownAgent, parseChatRequest.
  destruct (options ≫= opt_agentId) as [[| c rest] |].
  2: destruct (getAgent svc (String c rest)) as [agent |].
  3: { eexists _, _. split; [reflexivity |]. by split. }
  all: match goal with
       | |- context [_sendRequestAsync ?a ?b ?c ?d ?e ?f ?g] =>
           pose proof (sendRequestAsync_effect a b c d e f g) as Heffect;
           destruct (_sendRequestAsync a b c d e f g) as [source st']
       end.
  all: cbn zeta in Heffect; cbn [fst snd] in Heffect;
       destruct Heffect as (-> & _ & Hpending & _ & _ & send & Hsends & Hsession & _);
       eexists _, _; (split; [reflexivity |]); eexists; (split; [reflexivity |]);
       cbn [responseCompletePromise]; rewrite Hpending, Hsends, !lookup_insert_eq;
       (split; [done |]); (split; [by rewrite <- Hsession |]);
       intros sid' Hne; by rewrite lookup_insert_ne.
Qed.

Lemma sendRequest_on_idle_session_witness :
  ∃ st' data, sendRequest svc0 "s1" hello None helloReady = Some (st', Returned (Some data)) ∧
              pendingRequests st' !! "s1" = Some (responseCompletePromise data).
Proof.
  destruct (sendRequest_on_idle_session svc0 helloReady "s1" 0
              {| sessionId := "s1"; initialLocation := Panel; creationDate := 100;
                 requests := []; initState := Ready |}
              hello None helloReady_reachable
              ltac:(vm_compute; reflexivity) ltac:(vm_compute; reflexivity)
              ltac:(vm_compute; reflexivity) ltac:(reflexivity)
              ltac:(vm_compute; reflexivity))
    as (st' & r & Hsend & Hcase).
  change (namesUnknownAgent svc0 None) with false in Hcase. cbv iota in Hcase.
  destruct Hcase as (data & -> & Hpending & _).
  exists st', data. split; [exact Hsend | exact Hpending].
Defined.

(** ** Failed initialization *)

(** When the initialization of a session fails, the session leaves the
    session table: a [sendRequest] that was waiting for the initialization is
    rejected, a later one finds no session, and neither creates a pending
    request. *)
Theorem failed_initialization_removes_session (svc : Services) (st : State) (ref : nat)
    (m : ChatModel) :
  reachable svc st ->
  heap st !! ref = Some m ->
  initState m = Initializing ->
  let st' := onInitializationFailed ref st in
  om_get (sessionId m) (sessionModels st') = None ∧
  initState <$> heap st' !! ref = Some Failed ∧
  (∀ sid', sid' ≠ sessionId m ->
     om_get sid' (sessionModels st') = om_get sid' (sessionModels st)) ∧
  (∀ call, call_model call = ref ->
     ∃ err, sendRequest_continue svc call st' = Some (st', Thrown err)) ∧
  (∀ request options,
     jsStringFalsy (trim request) = false ->
     ∃ st'', sendRequest svc (sessionId m) request options st' =
               Some (st'', Thrown "Unknown session") ∧
             sameSessions st' st'').
Proof.
  intros Hreach Hm Hinit st'.
  pose proof (sessionModels_NoDup svc st Hreach) as Hnd.
  assert (Hst' : st' = upd_sessionModels (om_delete (sessionId m))
                         (onModel ref (withInitState Failed)
                            (trace "startSession" "initializeSession failed" st))).
  { subst st'. unfold onInitializationFailed. by rewrite Hm, Hinit. }
  assert (Hheap : heap st' !! ref = Some (withInitState Failed m)).
  { rewrite Hst'. simpl. by rewrite lookup_alter_eq, Hm. }
  assert (Hgone : om_get (sessionId m) (sessionModels st') = None).
  { rewrite Hst'. simpl. by apply om_get_delete_eq. }
  split; [exact Hgone |]. split; [by rewrite Hheap |]. split; [| split].
  - intros sid' Hne. rewrite Hst'. simpl. by apply om_get_delete_ne.
  - intros call Hcall. unfold sendRequest_continue. rewrite Hcall, Hheap. simpl. eauto.
  - intros request options Htext. unfold sendRequest, sendRequest_begin. rewrite Htext.
    change (sessionModels (trace "sendRequest" "sessionId, message" st'))
      with (sessionModels st').
    rewrite Hgone. eexists. split; [reflexivity |]. apply sameSessions_trace.
Qed.

(** Session [s1] is started and a request is sent that waits for the
    initialization. *)
Definition helloWaiting : State :=
  run svc0 initialState [EStartSession "s1" 100 Panel; ESendRequest "s1" hello None].

Lemma helloWaiting_reachable : reachable svc0 helloWaiting.
Proof. unfold reachable, helloWaiting. eexists [], _. reflexivity. Qed.

Lemma failed_initialization_removes_session_witness :
  let st' := onInitializationFailed 0 helloWaiting in
  awaiting helloWaiting !! 0%nat =
    Some {| call_model := 0; call_sessionId := "s1"; call_request := hello;
            call_options := None |} ∧
  om_get "s1" (sessionModels st') = None ∧
  ∃ err, sendRequest_continue svc0
           {| call_model := 0; call_sessionId := "s1"; call_request := hello;
              call_options := None |} st' = Some (st', Thrown err).
Proof.
  intros st'.
  destruct (failed_initialization_removes_session svc0 helloWaiting 0
              {| sessionId := "s1"; initialLocation := Panel; creationDate := 100;
                 requests := []; initState := Initializing |}
              helloWaiting_reachable ltac:(vm_compute; reflexivity) ltac:(reflexivity))
    as (Hgone & _ & _ & Hcall & _).
  split; [vm_compute; reflexivity |]. split; [exact Hgone |].
  apply Hcall. reflexivity.
Defined.

(** ** Sending a request again *)

(** Modelled from the spec: [removeRequest] of the ChatModel class (section
    4.1, [removeRequest(id, reason)]) excises the request. *)
Definition removeRequest (rid : nat) : ChatModel -> ChatModel :=
  withRequests (filter (fun r => id r ≠ rid)).

(** A [resendRequest] call suspended at [await model.waitForInitialization()];
    [resend_sessionId] is [request.session.sessionId]. *)
Record ResendRequestCall := {
  resend_model : nat;
  resend_sessionId : string;
  resend_request : ChatRequestModel;
  resend_options : option SendRequestOptions;
}.

Section Resend.
Context (svc : Services).

(** [resendRequest], from the call to [await model.waitForInitialization()];
    [sessionIdOfRequest] is [request.session.sessionId]. *)
Definition resendRequest_begin (sessionIdOfRequest : string) (request : ChatRequestModel)
    (options : option SendRequestOptions) (st : State) : Completion ResendRequestCall :=
  match om_get sessionIdOfRequest (sessionModels st) with
  | None => Thrown "Unknown session"
  | Some model =>
      Returned {| resend_model := model; resend_sessionId := sessionIdOfRequest;
                  resend_request := request; resend_options := options |}
  end.

(** [resendRequest], after [await model.waitForInitialization()] has
    resolved, up to [await ... .responseCompletePromise]; the result is the
    token source that names that promise. *)
Definition resendRequest_resume (call : ResendRequestCall) (m : ChatModel) (st : State)
  : nat * State :=
  let st :=
    match pendingRequests st !! resend_sessionId call with
    | Some cts =>
        cancelTokenSource cts
          (trace "resendRequest" "Session already has a pending request, cancelling..." st)
    | None => st
    end in
  let options := resend_options call in
  let location := default (initialLocation m) (options ≫= opt_location) in
  let att := default 0 (options ≫= opt_attempt) in
  let defaultAgent := getDefaultAgent svc location in
  let st := onModel (resend_model call) (removeRequest (id (resend_request call))) st in
  _sendRequestAsync svc (resend_model call) (sessionId m) (parsed (resend_request call))
    att defaultAgent st.

(** The continuation runs once the initialization has settled. *)
Definition resendRequest_continue (call : ResendRequestCall) (st : State)
  : option (Completion nat * State) :=
  match heap st !! resend_model call with
  | Some m =>
      match initState m with
      | Ready => let '(source, st) := resendRequest_resume call m st in
                 Some (Returned source, st)
      | Failed => Some (Thrown "No default agent", st)
      | _ => None
      end
  | None => None
  end.

End Resend.

(** Sending a request again for an initialized session cancels the pending
    request of the session, if there is one, and puts a new one in its place:
    afterwards the session has exactly one pending operation, the new token
    source, the token source that was pending is cancelled and disposed, and
    the pending requests of the other sessions are as before. *)
Theorem resendRequest_replaces_pending (svc : Services) (st : State) (sid : string)
    (ref : nat) (m : ChatModel) (request : ChatRequestModel)
    (options : option SendRequestOptions) :
  reachable svc st ->
  om_get sid (sessionModels st) = Some ref ->
  heap st !! ref = Some m ->
  initState m = Ready ->
  ∃ call st',
    resendRequest_begin sid request options st = Returned call ∧
    resendRequest_continue svc call st = Some (Returned (nextId st), st') ∧
    pendingRequests st' !! sid = Some (nextId st) ∧
    pendingOperations st' sid = [nextId st] ∧
    (∀ old, pendingRequests st !! sid = Some old ->
            old ≠ nextId st ∧ old ∈ cancelled st' ∧ old ∈ disposed st') ∧
    (∀ sid', sid' ≠ sid ->
       pendingRequests st' !! sid' = pendingRequests st !! sid' ∧
       pendingOperations st' sid' = pendingOperations st sid').
Proof.
  intros Hreach Hget Hm Hready.
  pose proof (TokensInv_reachable svc st Hreach) as Hinv.
  destruct (SessionsInv_reachable svc st Hreach) as [_ _ Hkeyed].
  destruct (Hkeyed sid ref Hget) as (m' & Hm' & Hid).
  rewrite Hm in Hm'. injection Hm' as <-.
  unfold resendRequest_begin. rewrite Hget.
  exists {| resend_model := ref; resend_sessionId := sid;
            resend_request := request; resend_options := options |}.
  unfold resendRequest_continue. cbn [resend_model]. rewrite Hm, Hready.
  unfold resendRequest_resume.
  cbn [resend_model resend_sessionId resend_request resend_options]. rewrite Hid.
  set (st0 := match pendingRequests st !! sid with
              | Some cts => cancelTokenSource cts _
              | None => st
              end).
  assert (Hst0 : TokensInv st0 ∧ pendingRequests st0 = pendingRequests st ∧
                 disposed st0 = disposed st ∧ nextId st0 = nextId st ∧
                 tokenSources st0 = tokenSources st ∧
                 (∀ old, pendingRequests st !! sid = Some old -> old ∈ cancelled st0)).
  { subst st0. destruct (pendingRequests st !! sid) as [old |]; [| done].
    destruct (cancelTokenSource_frame old
                (trace "resendRequest" "Session already has a pending request, cancelling..." st))
      as (_ & _ & Hp & Hd & Hn & Hc).
    split; [by apply TokensInv_cancelTokenSource, TokensInv_trace |].
    split; [exact Hp |]. split; [exact Hd |]. split; [exact Hn |]. split.
    - unfold cancelTokenSource. repeat (case_match; simpl); done.
    - by intros ? [= <-]. }
  destruct Hst0 as (Hinv0 & Hp0 & Hd0 & Hn0 & Hts0 & Hc0).
  set (st1 := onModel ref (removeRequest (id request)) st0).
  assert (Hinv1 : TokensInv st1) by (by apply TokensInv_onModel).
  match goal with
  | |- context [_sendRequestAsync ?a ?b ?c ?d ?e ?f ?g] =>
      pose proof (sendRequestAsync_effect a b c d e f g) as Heffect;
      pose proof (sendRequestAsync_frame a b c d e f g) as Hframe;
      pose proof (TokensInv_sendRequestAsync a b c d e f g Hinv1) as Hinv';
      destruct (_sendRequestAsync a b c d e f g) as [source st']
  end.
  cbn zeta in Heffect, Hframe. cbn [fst snd] in Heffect, Hframe, Hinv'.
  change (nextId st1) with (nextId st0) in Heffect.
  change (tokenSources st1) with (tokenSources st0) in Heffect.
  change (pendingRequests st1) with (pendingRequests st0) in Heffect.
  change (disposed st1) with (disposed st0) in Heffect.
  change (cancelled st1) with (cancelled st0) in Hframe.
  rewrite Hn0, Hts0, Hp0, Hd0 in Heffect.
  destruct Heffect as (-> & Htokens & Hpending & Hdisposed & _ & _).
  destruct Hframe as (_ & _ & Hcancelled & _).
  exists st'. split; [reflexivity |]. split; [reflexivity |].
  assert (Hnew : pendingRequests st' !! sid = Some (nextId st))
    by (by rewrite Hpending, lookup_insert_eq).
  split; [exact Hnew |]. split.
  { rewrite (pendingOperations_entry _ _ Hinv'). by rewrite Hnew. }
  split.
  - intros old Hold. rewrite Hold in Hdisposed.
    destruct (inv_pending st Hinv sid old Hold) as [Hin _].
    pose proof (inv_fresh st Hinv old sid Hin) as Hlt.
    split; [lia |]. split; [rewrite Hcancelled; by apply Hc0 |].
    rewrite Hdisposed. by left.
  - intros sid' Hne.
    assert (Hsame : pendingRequests st' !! sid' = pendingRequests st !! sid')
      by (by rewrite Hpending, lookup_insert_ne).
    split; [exact Hsame |].
    rewrite (pendingOperations_entry _ _ Hinv'), (pendingOperations_entry _ _ Hinv).
    by rewrite Hsame.
Qed.

Lemma resendRequest_replaces_pending_witness :
  ∃ call st',
    resendRequest_begin "s1" helloRequest None helloInFlight = Returned call ∧
    resendRequest_continue svc0 call helloInFlight = Some (Returned 3%nat, st') ∧
    pendingOperations st' "s1" = [3%nat] ∧
    1%nat ∈ cancelled st' ∧ 1%nat ∈ disposed st'.
Proof.
  destruct (resendRequest_replaces_pending svc0 helloInFlight "s1" 0
              {| sessionId := "s1"; initialLocation := Panel; creationDate := 100;
                 requests := [ {| id := 2; parsed := send_parsed helloSend; attempt := 0;
                     response := {| fragments := [MarkdownContent "hi"]; result := None;
                                    isComplete := false; isCanceled := false |} |} ];
                 initState := Ready |}
              helloRequest None
              helloInFlight_reachable ltac:(vm_compute; reflexivity)
              ltac:(vm_compute; reflexivity) ltac:(reflexivity))
    as (call & st' & Hbegin & Hcontinue & _ & Hops & Hold & _).
  exists call, st'. split; [exact Hbegin |]. split; [exact Hcontinue |].
  split; [exact Hops |].
  destruct (Hold 1%nat ltac:(vm_compute; reflexivity)) as (_ & Hc & Hd). by split.
Defined.

(** ** Moving a request to another session *)

Section Adopt.
Context (svc : Services).
(** [ChatModel.adoptRequest] is not among the sources; [model_adoptRequest
    target rid] is what [target.adoptRequest(request)] does to the models. *)
Context (model_adoptRequest : nat -> nat -> gmap nat ChatModel -> gmap nat ChatModel).


(** [adoptRequest], after the [await]: [oldOwner] is [request.session], [rid]
    the request.  The request object keeps its response when it changes its
    owner, so whether the response is complete is read off the old owner.
    [deleteAndLeak] takes the entry out of the map without disposing it. *)
Definition adoptRequest_resume (target oldOwner rid : nat) (st : State) : State :=
  match heap st !! target, heap st !! oldOwner with
  | Some targetModel, Some oldOwnerModel =>
      let incomplete :=
        match getRequest rid oldOwnerModel with
        | Some request => negb (isComplete (response request))
        | None => false
        end in
      let st := upd_heap (model_adoptRequest target rid) st in
      if incomplete then
        match pendingRequests st !! sessionId oldOwnerModel with
        | Some cts =>
            pending_set (sessionId targetModel) cts
              (upd_pendingRequests (delete (sessionId oldOwnerModel)) st)
        | None => st
        end
      else st
  | _, _ => st
  end.

End Adopt.

(** What the rest of a send does to the pending requests: only the callback
    that ends it touches them, and it removes the entry of the session the
    send was made for. *)
Lemma completeRequest_pending (t : nat) (rawResult : option AgentResult) (st : State) :
  pendingRequests (completeRequest t rawResult st) = pendingRequests st ∧
  disposed (completeRequest t rawResult st) = disposed st.
Proof.
  unfold completeRequest. repeat (case_match; simpl);
    repeat match goal with
           | Heq : (_, _) = (_, _) |- _ => injection Heq as ? ?
           end; subst; done.
Qed.

Lemma onAgentReturned_pending (t : nat) (agentResult : option AgentResult) (st : State) :
  pendingRequests (onAgentReturned t agentResult st) = pendingRequests st ∧
  disposed (onAgentReturned t agentResult st) = disposed st.
Proof.
  unfold onAgentReturned. repeat (case_match; simpl); try done; apply completeRequest_pending.
Qed.

Lemma onAgentThrew_pending (t : nat) (errMessage : string) (st : State) :
  pendingRequests (onAgentThrew t errMessage st) = pendingRequests st ∧
  disposed (onAgentThrew t errMessage st) = disposed st.
Proof. unfold onAgentThrew. repeat (case_match; simpl); done. Qed.

Lemma onAgentReturned_send (t : nat) (agentResult : option AgentResult) (st : State) (s : Send) :
  sends st !! t = Some s ->
  ∃ s', sends (onAgentReturned t agentResult st) !! t = Some s' ∧
        send_session s' = send_session s ∧
        (send_phase s = InvokingAgent ∨ send_phase s = ExecutingCommand ->
         send_phase s' = Settled).
Proof.
  intros Hs. unfold onAgentReturned. rewrite Hs.
  destruct (send_phase s) eqn:Hphase;
    try (exists s; split; [done |]; split; [done |]; intros [? | ?]; congruence).
  - exists (withPhase Settled s). split; [by apply sends_completeRequest | by split].
  - exists (withPhase Settled s). split; [by apply sends_completeRequest | by split].
Qed.

Lemma onAgentThrew_send (t : nat) (errMessage : string) (st : State) (s : Send) :
  sends st !! t = Some s ->
  ∃ s', sends (onAgentThrew t errMessage st) !! t = Some s' ∧
        send_session s' = send_session s ∧
        (send_phase s ≠ Finished -> send_phase s' = Settled).
Proof.
  intros Hs. unfold onAgentThrew. rewrite Hs.
  destruct (send_phase s) eqn:Hphase.
  1-3: exists (withPhase Settled s); (split; [| by split]);
       destruct (send_request s); simpl; by rewrite lookup_alter_eq, Hs.
  - exists s. by rewrite Hphase.
  - exists s. split; [done |]. split; [done |]. by intros [].
Qed.

Lemma onSettled_absent (t : nat) (st : State) (s : Send) :
  sends st !! t = Some s -> send_phase s = Settled ->
  pendingRequests st !! send_session s = None ->
  pendingRequests (onSettled t st) = pendingRequests st ∧
  disposed (onSettled t st) = disposed st ∧
  sends (onSettled t st) !! t = Some (withPhase Finished s).
Proof.
  intros Hs Hphase Hp. unfold onSettled, pending_deleteAndDispose.
  rewrite Hs, Hphase, Hp. simpl. by rewrite lookup_alter_eq, Hs.
Qed.

(** When a request whose response is not complete is moved to another
    session, the pending request of its old session moves with it, without
    being cancelled or disposed.  The callback that ends the send still
    removes the entry of the old session only: once the send has finished,
    the token source is still the pending request of the new session and is
    never disposed by the send, and [sendRequest] keeps turning requests for
    that session down. *)
Theorem adopted_request_stays_pending (svc : Services)
    (model_adoptRequest : nat -> nat -> gmap nat ChatModel -> gmap nat ChatModel)
    (st : State) (target oldOwner rid t : nat) (targetModel oldOwnerModel : ChatModel)
    (request : ChatRequestModel) (s : Send) :
  reachable svc st ->
  heap st !! target = Some targetModel ->
  heap st !! oldOwner = Some oldOwnerModel ->
  sessionId targetModel ≠ sessionId oldOwnerModel ->
  getRequest rid oldOwnerModel = Some request ->
  isComplete (response request) = false ->
  pendingRequests st !! sessionId oldOwnerModel = Some t ->
  sends st !! t = Some s ->
  let st1 := adoptRequest_resume model_adoptRequest target oldOwner rid st in
  pendingRequests st1 !! sessionId oldOwnerModel = None ∧
  pendingRequests st1 !! sessionId targetModel = Some t ∧
  ¬ (t ∈ disposed st1) ∧
  (t ∈ cancelled st1 ↔ t ∈ cancelled st) ∧
  (∀ o : Outcome, canSettle o s ->
     let st2 := run svc st1 (settling t o) in
     send_phase <$> sends st2 !! t = Some Finished ∧
     pendingRequests st2 !! sessionId targetModel = Some t ∧
     ¬ (t ∈ disposed st2) ∧
     (∀ call st3 r,
        call_sessionId call = sessionId targetModel ->
        sendRequest_continue svc call st2 = Some (st3, r) ->
        sameSessions st2 st3 ∧ ∀ d, r ≠ Returned (Some d))).
Proof.
  intros Hreach Htarget Hold Hne Hreq Hincomplete Hp Hs st1.
  pose proof (TokensInv_reachable svc st Hreach) as Hinv.
  assert (Hsession : send_session s = sessionId oldOwnerModel).
  { destruct (inv_sends st Hinv t s Hs) as [Hin1 _].
    destruct (inv_pending st Hinv _ t Hp) as [Hin2 _].
    pose proof (inv_nodup st Hinv) as Hnd.
    apply list_elem_of_lookup in Hin1 as [i Hi], Hin2 as [j Hj].
    assert (i = j) as ->.
    { eapply NoDup_lookup; [exact Hnd | |]; rewrite list_lookup_fmap.
      - by rewrite Hi.
      - by rewrite Hj. }
    congruence. }
  assert (Hfresh : t ∉ disposed st) by (by destruct (inv_pending st Hinv _ t Hp)).
  assert (Hst1 : pendingRequests st1 =
                   <[sessionId targetModel := t]>
                     (delete (sessionId oldOwnerModel) (pendingRequests st)) ∧
                 disposed st1 = match pendingRequests st !! sessionId targetModel with
                                | Some old => old :: disposed st
                                | None => disposed st
                                end ∧
                 sends st1 = sends st ∧ cancelled st1 = cancelled st).
  { subst st1. unfold adoptRequest_resume, pending_set.
    rewrite Htarget, Hold, Hreq, Hincomplete. simpl. rewrite Hp. simpl.
    rewrite lookup_delete_ne by done.
    by destruct (pendingRequests st !! sessionId targetModel). }
  destruct Hst1 as (Hp1 & Hd1 & Hs1 & Hc1).
  assert (Hgone : pendingRequests st1 !! sessionId oldOwnerModel = None).
  { rewrite Hp1, lookup_insert_ne by done. apply lookup_delete_eq. }
  assert (Hmoved : pendingRequests st1 !! sessionId targetModel = Some t)
    by (by rewrite Hp1, lookup_insert_eq).
  assert (Hlive : t ∉ disposed st1).
  { rewrite Hd1. destruct (pendingRequests st !! sessionId targetModel) as [old |] eqn:Hpt;
      [| done].
    apply not_elem_of_cons. split; [| done]. intros <-.
    apply Hne. eapply pending_inj; eauto. }
  split; [exact Hgone |]. split; [exact Hmoved |]. split; [exact Hlive |].
  split; [by rewrite Hc1 |].
  intros o Hsettle st2.
  assert (Hs1t : sends st1 !! t = Some s) by (by rewrite Hs1).
  assert (Hsettled : ∃ stA sA, st2 = onSettled t stA ∧ sends stA !! t = Some sA ∧
                               send_session sA = send_session s ∧ send_phase sA = Settled ∧
                               pendingRequests stA = pendingRequests st1 ∧
                               disposed stA = disposed st1).
  { subst st2. destruct o as [agentResult | errMessage |]; simpl in Hsettle; simpl.
    - destruct (onAgentReturned_send t agentResult st1 s Hs1t) as (sA & HsA & Hsess & Hphase).
      destruct (onAgentReturned_pending t agentResult st1) as [HpA HdA].
      exists (onAgentReturned t agentResult st1), sA. repeat split; try done.
      apply Hphase. destruct (send_phase s); try done; auto.
    - destruct (onAgentThrew_send t errMessage st1 s Hs1t) as (sA & HsA & Hsess & Hphase).
      destruct (onAgentThrew_pending t errMessage st1) as [HpA HdA].
      exists (onAgentThrew t errMessage st1), sA. repeat split; try done.
      apply Hphase. destruct (send_phase s); try done.
    - exists st1, s. repeat split; try done. by destruct (send_phase s). }
  destruct Hsettled as (stA & sA & Hst2 & HsA & Hsess & Hphase & HpA & HdA).
  destruct (onSettled_absent t stA sA HsA Hphase) as (Hp2 & Hd2 & Hs2).
  { by rewrite Hsess, Hsession, HpA. }
  rewrite <- Hst2 in Hp2, Hd2, Hs2.
  split; [by rewrite Hs2 |].
  assert (Hstill : pendingRequests st2 !! sessionId targetModel = Some t)
    by (by rewrite Hp2, HpA).
  split; [exact Hstill |]. split; [by rewrite Hd2, HdA |].
  intros call st3 r Hcall Hcontinue.
  eapply sendRequest_continue_pending; [| exact Hcontinue].
  rewrite Hcall, Hstill. eauto.
Qed.

(** Two sessions are live; [s1] has a request in flight. *)
Definition twoSessions : State :=
  run svc0 helloInFlight [EStartSession "s2" 200 Panel; EInitialized 3].

Lemma twoSessions_reachable : reachable svc0 twoSessions.
Proof.
  unfold reachable, twoSessions, helloInFlight, run. eexists [], _.
  rewrite <- foldl_app. reflexivity.
Qed.

Lemma adopted_request_stays_pending_witness :
  let st1 := adoptRequest_resume (fun _ _ heap => heap) 3 0 2 twoSessions in
  let st2 := run svc0 st1 (settling 1 (AgentReturns (Some okResult))) in
  pendingRequests st1 !! "s1" = None ∧ pendingRequests st1 !! "s2" = Some 1%nat ∧
  send_phase <$> sends st2 !! 1%nat = Some Finished ∧
  pendingRequests st2 !! "s2" = Some 1%nat ∧ ¬ (1%nat ∈ disposed st2).
Proof.
  intros st1 st2.
  destruct (adopted_request_stays_pending svc0 (fun _ _ heap => heap) twoSessions 3 0 2 1
              {| sessionId := "s2"; initialLocation := Panel; creationDate := 200;
                 requests := []; initState := Ready |}
              {| sessionId := "s1"; initialLocation := Panel; creationDate := 100;
                 requests := [ {| id := 2; parsed := send_parsed helloSend; attempt := 0;
                     response := {| fragments := [MarkdownContent "hi"]; result := None;
                                    isComplete := false; isCanceled := false |} |} ];
                 initState := Ready |}
              {| id := 2; parsed := send_parsed helloSend; attempt := 0;
                 response := {| fragments := [MarkdownContent "hi"]; result := None;
                                isComplete := false; isCanceled := false |} |}
              helloSend
              twoSessions_reachable ltac:(vm_compute; reflexivity)
              ltac:(vm_compute; reflexivity) ltac:(discriminate)
              ltac:(vm_compute; reflexivity) ltac:(reflexivity)
              ltac:(vm_compute; reflexivity) ltac:(vm_compute; reflexivity))
    as (Hgone & Hmoved & _ & _ & Hlater).
  destruct (Hlater (AgentReturns (Some okResult)) I) as (Hfinished & Hstill & Hlive & _).
  split; [exact Hgone |]. split; [exact Hmoved |]. split; [exact Hfinished |].
  split; [exact Hstill | exact Hlive].
Defined.


(** ** Transferring a session to another workspace *)

(** [IChatTransfer]; the workspace is held as [URI.revive(...).toString()]
    gives it. *)
Record ChatTransfer := {
  toWorkspace : string;
  timestampInMilliseconds : Z;
  chat : SerializableChatData;
  inputValue : string;
}.

Definition SESSION_TRANSFER_EXPIRATION_IN_MILLISECONDS : Z := 1000 * 60.

(** [getTransferredSessionData]: [workspaceUri] is the first folder of the
    workspace, [data] what is stored under [globalChatKey]; the result is what
    the method returns and what is stored afterwards. *)
Definition getTransferredSessionData (workspaceUri : option string) (currentTime : Z)
    (data : list ChatTransfer) : option ChatTransfer * list ChatTransfer :=
  match workspaceUri with
  | None => (None, data)
  | Some thisWorkspace =>
      (* Only use transferred data if it was created recently *)
      let transferred :=
        List.find (fun item =>
                     bool_decide (toWorkspace item = thisWorkspace) &&
                     (currentTime - timestampInMilliseconds item
                        <? SESSION_TRANSFER_EXPIRATION_IN_MILLISECONDS)) data in
      (* Keep data that isn't for the current workspace and that hasn't expired yet *)
      let filtered :=
        List.filter (fun item =>
                       negb (bool_decide (toWorkspace item = thisWorkspace)) &&
                       (currentTime - timestampInMilliseconds item
                          <? SESSION_TRANSFER_EXPIRATION_IN_MILLISECONDS)) data in
      (transferred, filtered)
  end.

(** [transferChatSession]: what is stored under [globalChatKey] afterwards. *)
Definition transferChatSession (transferredSessionId transferredInputValue : string)
    (toWorkspaceUri : string) (now : Z) (data : list ChatTransfer) (st : State)
  : Completion (list ChatTransfer * State) :=
  match List.find (fun model => bool_decide (sessionId model = transferredSessionId))
                  (liveModels st) with
  | None => Thrown "Failed to transfer session. Unknown session ID"
  | Some model =>
      let existingRaw :=
        data ++ [ {| toWorkspace := toWorkspaceUri; timestampInMilliseconds := now;
                     chat := toJSON model; inputValue := transferredInputValue |} ] in
      Returned (existingRaw, trace "transferChatSession" "Transferred session" st)
  end.

(** The part of the constructor that takes a transferred session in: the
    state, [_transferredSessionData] and what is stored under
    [globalChatKey]. *)
Definition acceptTransferredSession (workspaceUri : option string) (now : Z)
    (data : list ChatTransfer) (st : State)
  : State * option (string * string) * list ChatTransfer :=
  let '(transferredData, data) := getTransferredSessionData workspaceUri now data in
  match transferredData with
  | Some transfer =>
      let transferredChat := chat transfer in
      let st := trace "constructor" "Transferred session" st in
      (upd_persistedSessions (om_set (p_sessionId transferredChat) transferredChat) st,
       Some (p_sessionId transferredChat, inputValue transfer), data)
  | None => (st, None, data)
  end.

Lemma find_none_all {A} (f : A -> bool) (l : list A) :
  (∀ x, x ∈ l -> f x = false) -> List.find f l = None.
Proof.
  induction l as [| a l IH]; [done |]. intros Hall. simpl.
  rewrite (Hall a) by (by left). apply IH. intros x Hx. apply Hall. by right.
Qed.

(** Reading the transferred data returns the oldest transfer to this
    workspace that is less than a minute old, if there is one, and keeps
    exactly the transfers to other workspaces that are less than a minute old,
    in their order: a second read finds nothing, whatever the time.  Without a
    workspace folder nothing is read and nothing is purged. *)
Theorem getTransferredSessionData_reads_once (thisWorkspace : string) (currentTime : Z)
    (data : list ChatTransfer) :
  let transferred := (getTransferredSessionData (Some thisWorkspace) currentTime data).1 in
  let stored := (getTransferredSessionData (Some thisWorkspace) currentTime data).2 in
  (∀ item, transferred = Some item ->
     ∃ older newer, data = older ++ item :: newer ∧
       toWorkspace item = thisWorkspace ∧
       currentTime - timestampInMilliseconds item < 60000 ∧
       ∀ x, x ∈ older -> toWorkspace x = thisWorkspace ->
            60000 <= currentTime - timestampInMilliseconds x) ∧
  (transferred = None ->
     ∀ x, x ∈ data -> toWorkspace x = thisWorkspace ->
          60000 <= currentTime - timestampInMilliseconds x) ∧
  stored `sublist_of` data ∧
  (∀ x, x ∈ stored ↔
        x ∈ data ∧ toWorkspace x ≠ thisWorkspace ∧
        currentTime - timestampInMilliseconds x < 60000) ∧
  (∀ later, (getTransferredSessionData (Some thisWorkspace) later stored).1 = None) ∧
  getTransferredSessionData None currentTime data = (None, data).
Proof.
  simpl. unfold SESSION_TRANSFER_EXPIRATION_IN_MILLISECONDS.
  change (1000 * 60) with 60000.
  split; [| split; [| split; [| split; [| split]]]].
  - induction data as [| d data IH]; [done |]. simpl.
    case_bool_decide as Hw; simpl.
    + destruct (currentTime - timestampInMilliseconds d <? 60000) eqn:Hfresh.
      * intros item [= <-]. exists [], data. apply Z.ltb_lt in Hfresh.
        repeat split; try done. by intros x ?%elem_of_nil.
      * intros item Hfind. destruct (IH item Hfind) as (older & newer & -> & Hiw & Hit & Hold).
        exists (d :: older), newer. repeat split; try done.
        intros x [-> | Hx]%elem_of_cons; [intros _; by apply Z.ltb_ge | by apply Hold].
    + intros item Hfind. destruct (IH item Hfind) as (older & newer & -> & Hiw & Hit & Hold).
      exists (d :: older), newer. repeat split; try done.
      intros x [-> | Hx]%elem_of_cons; [done | by apply Hold].
  - induction data as [| d data IH]; [by intros _ x ?%elem_of_nil |]. simpl.
    case_bool_decide as Hw; simpl.
    + destruct (currentTime - timestampInMilliseconds d <? 60000) eqn:Hfresh; [done |].
      intros Hfind x [-> | Hx]%elem_of_cons; [intros _; by apply Z.ltb_ge | by apply IH].
    + intros Hfind x [-> | Hx]%elem_of_cons; [done | by apply IH].
  - induction data as [| d data IH]; [done |]. simpl.
    destruct (_ && _); [by apply sublist_skip | by apply sublist_cons].
  - intros x. rewrite list_elem_of_In, List.filter_In, <- list_elem_of_In.
    rewrite andb_true_iff, negb_true_iff, bool_decide_eq_false, Z.ltb_lt. tauto.
  - intros later. apply find_none_all.
    intros x [_ Hx]%list_elem_of_In%List.filter_In.
    apply andb_true_iff in Hx as [Hx _]. apply negb_true_iff in Hx. by rewrite Hx.
  - done.
Qed.

Lemma find_app_none {A} (f : A -> bool) (l l' : list A) :
  List.find f l = None -> List.find f (l ++ l') = List.find f l'.
Proof.
  induction l as [| a l IH]; [done |]. simpl. destruct (f a); [done | exact IH].
Qed.

(** The live model that [transferChatSession] finds for a session id is the
    one the session table has under that id. *)
Lemma find_live_model (svc : Services) (st : State) (sid : string) (ref : nat) (m : ChatModel) :
  reachable svc st ->
  om_get sid (sessionModels st) = Some ref ->
  heap st !! ref = Some m ->
  List.find (fun model => bool_decide (sessionId model = sid)) (liveModels st) = Some m.
Proof.
  intros Hreach Hget Hm.
  destruct (SessionsInv_reachable svc st Hreach) as [Hnd _ Hkeyed].
  assert (Hin : m ∈ liveModels st).
  { unfold liveModels. apply list_elem_of_omap. exists ref. split; [| done].
    apply list_elem_of_fmap. exists (sid, ref). split; [done |].
    by apply om_get_Some_elem_of. }
  assert (Hid : sessionId m = sid).
  { destruct (Hkeyed sid ref Hget) as (m' & Hm' & Hid). congruence. }
  destruct (List.find _ (liveModels st)) as [m' |] eqn:Hfind.
  - apply List.find_some in Hfind as [Hin' Hid'].
    apply bool_decide_eq_true in Hid'. apply list_elem_of_In in Hin'.
    unfold liveModels in Hin'. apply list_elem_of_omap in Hin' as (ref' & Href' & Hm').
    apply list_elem_of_fmap in Href' as ([sid' ref''] & -> & Hentry). simpl in Hm'.
    pose proof (om_get_elem_of _ _ _ Hnd Hentry) as Hget'.
    destruct (Hkeyed sid' ref'' Hget') as (m'' & Hm'' & Hid'').
    assert (m'' = m') as -> by congruence.
    assert (sid' = sid) as -> by congruence.
    congruence.
  - exfalso. apply list_elem_of_In in Hin.
    pose proof (List.find_none _ _ Hfind m Hin) as Hno. simpl in Hno.
    by rewrite bool_decide_eq_true_2 in Hno.
Qed.

(** A live session that is transferred to a workspace arrives there when a
    window of that workspace starts within a minute and no older transfer to
    the workspace is waiting: the snapshot of the session is entered into the
    persisted sessions under its id, together with the input text, and the
    transfer is removed from the store.  After a minute the transfer is
    dropped unread. *)
Theorem transferred_session_arrives (svc : Services) (st : State) (sid : string) (ref : nat)
    (m : ChatModel) (input workspace : string) (now later : Z) (data : list ChatTransfer)
    (window : State) :
  reachable svc st ->
  om_get sid (sessionModels st) = Some ref ->
  heap st !! ref = Some m ->
  (∀ x, x ∈ data -> toWorkspace x = workspace ->
        60000 <= later - timestampInMilliseconds x) ->
  ∃ data' st',
    transferChatSession sid input workspace now data st = Returned (data', st') ∧
    sameSessions st st' ∧
    let '(window', transferredSessionData, stored) :=
      acceptTransferredSession (Some workspace) later data' window in
    (∀ x, x ∈ stored -> toWorkspace x ≠ workspace) ∧
    if decide (later - now < 60000)
    then transferredSessionData = Some (sid, input) ∧
         om_get sid (persistedSessions window') = Some (toJSON m) ∧
         (∀ sid', sid' ≠ sid ->
            om_get sid' (persistedSessions window') = om_get sid' (persistedSessions window))
    else transferredSessionData = None ∧ persistedSessions window' = persistedSessions window.
Proof.
  intros Hreach Hget Hm Hdata.
  destruct (SessionsInv_reachable svc st Hreach) as [_ _ Hkeyed].
  assert (Hid : sessionId m = sid).
  { destruct (Hkeyed sid ref Hget) as (m' & Hm' & Hid). congruence. }
  unfold transferChatSession. rewrite (find_live_model svc st sid ref m Hreach Hget Hm).
  eexists _, _. split; [reflexivity |]. split; [apply sameSessions_trace |].
  unfold acceptTransferredSession, getTransferredSessionData,
    SESSION_TRANSFER_EXPIRATION_IN_MILLISECONDS.
  change (1000 * 60) with 60000.
  rewrite find_app_none.
  2: { apply find_none_all. intros x Hx. case_bool_decide as Hw; [| done]. simpl.
       apply Z.ltb_ge. by apply Hdata. }
  simpl. rewrite bool_decide_eq_true_2 by done. simpl.
  destruct (decide (later - now < 60000)) as [Hfresh | Hexpired].
  - rewrite (proj2 (Z.ltb_lt _ _) Hfresh). cbn [chat p_sessionId toJSON inputValue].
    rewrite Hid. split; [| split; [done | split]].
    + intros x [_ Hx]%list_elem_of_In%List.filter_In.
      apply andb_true_iff in Hx as [Hx _]. apply negb_true_iff in Hx.
      by apply bool_decide_eq_false in Hx.
    + simpl. apply om_get_set_eq.
    + intros sid' Hne. simpl. by apply om_get_set_ne.
  - rewrite (proj2 (Z.ltb_ge _ _)) by lia. split; [| done].
    intros x [_ Hx]%list_elem_of_In%List.filter_In.
    apply andb_true_iff in Hx as [Hx _]. apply negb_true_iff in Hx.
    by apply bool_decide_eq_false in Hx.
Qed.

Lemma transferred_session_arrives_witness :
  ∃ data' st',
    transferChatSession "s1" "draft" "file:///w" 1000 [] helloInFlight = Returned (data', st') ∧
    let '(window', transferredSessionData, stored) :=
      acceptTransferredSession (Some "file:///w") 30000 data' initialState in
    transferredSessionData = Some ("s1", "draft") ∧
    (p_requests <$> om_get "s1" (persistedSessions window')) =
      (requests <$> heap helloInFlight !! 0%nat).
Proof.
  destruct (transferred_session_arrives svc0 helloInFlight "s1" 0
              {| sessionId := "s1"; initialLocation := Panel; creationDate := 100;
                 requests := [ {| id := 2; parsed := send_parsed helloSend; attempt := 0;
                     response := {| fragments := [MarkdownContent "hi"]; result := None;
                                    isComplete := false; isCanceled := false |} |} ];
                 initState := Ready |}
              "draft" "file:///w" 1000 30000 [] initialState
              helloInFlight_reachable ltac:(vm_compute; reflexivity)
              ltac:(vm_compute; reflexivity)
              ltac:(intros x Hx; by apply elem_of_nil in Hx))
    as (data' & st' & Htransfer & _ & Haccept).
  exists data', st'. split; [exact Htransfer |].
  destruct (acceptTransferredSession (Some "file:///w") 30000 data' initialState)
    as [[window' transferredSessionData] stored].
  destruct Haccept as (_ & Hfresh).
  rewrite decide_True in Hfresh by lia.
  destruct Hfresh as (Hdata & Hpersisted & _).
  split; [exact Hdata |]. by rewrite Hpersisted.
Defined.

(* ===================================================================== *)
(** * Further properties of the edit session                               *)
(* ===================================================================== *)

Module EditSession.
Import Editing.

(** ** The summary of a diff *)

(** [LineRange] and [DetailedLineRangeMapping], as far as
    [_updateSummaryMessage] reads them.  Line numbers and line counts are
    integers in the range in which JavaScript numbers are exact. *)
Record LineRange := { lr_startLineNumber : Z; endLineNumberExclusive : Z }.
Record LineRangeMapping := { changedLineCount : Z; modified : LineRange }.

(** [IChatEditSummary] *)
Record ChatEditSummary := {
  location_uri : string;
  location_range : Range;
  summary : string;
}.

(** [_updateSummaryMessage]: the summary it records with
    [this._response.recordEdits], [None] if it records nothing.  [diff] is
    [diff?.changes], [None] for a null diff. *)
Definition _updateSummaryMessage (uri : string) (diff : option (list LineRangeMapping))
  : option ChatEditSummary :=
  let mappings := default [] diff in
  match mappings with
  | [] => None
  | _ =>
      let linesChanged := foldl (fun n change => n + changedLineCount change) 0 mappings in
      let message :=
        if linesChanged =? 0 then "Nothing changed"
        else if linesChanged =? 1 then "Changed 1 line"
        else "Changed " +:+ pretty linesChanged +:+ " lines" in
      (* Get editSummary with range containing the whole codeblock *)
      let range :=
        foldl (fun prev curr =>
                 {| startLineNumber := Z.min (startLineNumber prev) (lr_startLineNumber curr);
                    startColumn := 1;
                    endLineNumber := Z.max (endLineNumber prev) (endLineNumberExclusive curr);
                    endColumn := 1 |})
              {| startLineNumber := Number_MAX_VALUE; startColumn := 1;
                 endLineNumber := 0; endColumn := 1 |}
              (modified <$> mappings) in
      Some {| location_uri := uri; location_range := range; summary := message |}
  end.

Lemma summary_range_fold (ranges : list LineRange) (init : Range) :
  let range :=
    foldl (fun prev curr =>
             {| startLineNumber := Z.min (startLineNumber prev) (lr_startLineNumber curr);
                startColumn := 1;
                endLineNumber := Z.max (endLineNumber prev) (endLineNumberExclusive curr);
                endColumn := 1 |}) init ranges in
  startLineNumber range <= startLineNumber init ∧
  endLineNumber init <= endLineNumber range ∧
  (∀ r, r ∈ ranges -> startLineNumber range <= lr_startLineNumber r ∧
                      endLineNumberExclusive r <= endLineNumber range) ∧
  (startLineNumber range = startLineNumber init ∨
   ∃ r, r ∈ ranges ∧ startLineNumber range = lr_startLineNumber r) ∧
  (endLineNumber range = endLineNumber init ∨
   ∃ r, r ∈ ranges ∧ endLineNumber range = endLineNumberExclusive r) ∧
  (ranges ≠ [] -> startColumn range = 1 ∧ endColumn range = 1).
Proof.
  revert init. induction ranges as [| r ranges IH]; intros init; simpl.
  - split; [lia |]. split; [lia |]. split; [by intros r ?%elem_of_nil |].
    split; [by left |]. split; [by left | done].
  - specialize (IH {| startLineNumber := Z.min (startLineNumber init) (lr_startLineNumber r);
                      startColumn := 1;
                      endLineNumber := Z.max (endLineNumber init) (endLineNumberExclusive r);
                      endColumn := 1 |}).
    simpl in IH. destruct IH as (Hstart & Hend & Hall & Hs & He & Hcol).
    split; [lia |]. split; [lia |]. split; [| split; [| split]].
    + intros r' [-> | Hr']%elem_of_cons; [lia | by apply Hall].
    + destruct Hs as [Hs | (r' & Hr' & Hs)].
      * destruct (Z.min_spec (startLineNumber init) (lr_startLineNumber r)) as [[_ Hm] | [_ Hm]].
        -- left. lia.
        -- right. exists r. split; [by left | lia].
      * right. exists r'. split; [by right | done].
    + destruct He as [He | (r' & Hr' & He)].
      * destruct (Z.max_spec (endLineNumber init) (endLineNumberExclusive r)) as [[_ Hm] | [_ Hm]].
        -- right. exists r. split; [by left | lia].
        -- left. lia.
      * right. exists r'. split; [by right | done].
    + intros _. destruct ranges as [| r' ranges]; [done |]. by apply Hcol.
Qed.

Lemma linesChanged_sum (l : list LineRangeMapping) (n : Z) :
  foldl (fun n change => n + changedLineCount change) n l =
    n + foldr Z.add 0 (changedLineCount <$> l).
Proof.
  revert n. induction l as [| c l IH]; intros n; [simpl; lia |].
  rewrite fmap_cons. cbn [foldl foldr]. rewrite IH. lia.
Qed.

(** For a diff with changes the recorded summary names a range of whole
    lines that encloses the modified range of every change and is no wider
    than the changes need, and its text goes by the sum of the changed line
    counts; for a null diff and for a diff without changes nothing is
    recorded. *)
Theorem updateSummaryMessage_encloses_changes (uri : string) (change : LineRangeMapping)
    (changes : list LineRangeMapping) :
  _updateSummaryMessage uri None = None ∧
  _updateSummaryMessage uri (Some []) = None ∧
  ∃ s, _updateSummaryMessage uri (Some (change :: changes)) = Some s ∧
       location_uri s = uri ∧
       startColumn (location_range s) = 1 ∧ endColumn (location_range s) = 1 ∧
       (∀ m, m ∈ change :: changes ->
          startLineNumber (location_range s) <= lr_startLineNumber (modified m) ∧
          endLineNumberExclusive (modified m) <= endLineNumber (location_range s)) ∧
       (startLineNumber (location_range s) = Number_MAX_VALUE ∨
        ∃ m, m ∈ change :: changes ∧
             startLineNumber (location_range s) = lr_startLineNumber (modified m)) ∧
       (endLineNumber (location_range s) = 0 ∨
        ∃ m, m ∈ change :: changes ∧
             endLineNumber (location_range s) = endLineNumberExclusive (modified m)) ∧
       let linesChanged := foldr Z.add 0 (changedLineCount <$> change :: changes) in
       summary s = (if linesChanged =? 0 then "Nothing changed"
                    else if linesChanged =? 1 then "Changed 1 line"
                    else "Changed " +:+ pretty linesChanged +:+ " lines").
Proof.
  split; [done |]. split; [done |].
  unfold _updateSummaryMessage. cbn [default]. eexists. split; [reflexivity |].
  cbn [location_uri location_range summary].
  pose proof (summary_range_fold (modified <$> change :: changes)
                {| startLineNumber := Number_MAX_VALUE; startColumn := 1;
                   endLineNumber := 0; endColumn := 1 |}) as Hfold.
  cbv zeta in Hfold. destruct Hfold as (_ & _ & Hall & Hs & He & Hcol).
  destruct (Hcol ltac:(done)) as [Hsc Hec].
  split; [done |]. split; [exact Hsc |]. split; [exact Hec |].
  split; [| split; [| split]].
  - intros m Hm. apply Hall. apply list_elem_of_fmap. by exists m.
  - destruct Hs as [Hs | (r & Hr & Hs)]; [by left | right].
    apply list_elem_of_fmap in Hr as (m & -> & Hm). by exists m.
  - destruct He as [He | (r & Hr & He)]; [by left | right].
    apply list_elem_of_fmap in Hr as (m & -> & Hm). by exists m.
  - cbv zeta. rewrite linesChanged_sum. by rewrite Z.add_0_l.
Qed.

(** ** The edit session service *)

(** [IWorkspaceTextEdit]: the resource and the text edit.  A URI is
    identified with its string form: the text models, the strategy and the
    document of a resource are found under this one key. *)
Record WorkspaceTextEdit := { resource : string; textEdit : SingleEditOperation }.

(** [Location] *)
Record Location := { loc_uri : string; loc_range : Range }.

(** [renderChanges] and [getEditRangeInProgress] of the live strategy *)
Definition renderChanges (s : LiveStrategy) : Completion unit :=
  Thrown "Method not implemented.".

Definition getEditRangeInProgress (s : LiveStrategy) : Completion (list Location) :=
  Thrown "Method not implemented.".

Section Service.
Context {D : Type} `{TextModel D}.
(** Whether the code editor service has or can open an editor for a
    resource: [listCodeEditors().find(...)], and [openCodeEditor] otherwise. *)
Context (codeEditorAvailable : string -> bool).

Definition withTextModels (f : gmap string (D * Z) -> gmap string (D * Z))
    (st : @ServiceState D) : @ServiceState D :=
  {| activeResponse := activeResponse st; editResponseIdInProgress := editResponseIdInProgress st;
     editCodeblockInProgress := editCodeblockInProgress st; pendingRequests := pendingRequests st;
     textModels := f (textModels st); editStrategies := editStrategies st;
     documents := documents st; recordedEdits := recordedEdits st; log := log st;
     nextPromise := nextPromise st |}.

Definition withEditStrategies (f : gmap string LiveStrategy -> gmap string LiveStrategy)
    (st : @ServiceState D) : @ServiceState D :=
  {| activeResponse := activeResponse st; editResponseIdInProgress := editResponseIdInProgress st;
     editCodeblockInProgress := editCodeblockInProgress st; pendingRequests := pendingRequests st;
     textModels := textModels st; editStrategies := f (editStrategies st);
     documents := documents st; recordedEdits := recordedEdits st; log := log st;
     nextPromise := nextPromise st |}.

Definition withDocuments (f : gmap string D -> gmap string D)
    (st : @ServiceState D) : @ServiceState D :=
  {| activeResponse := activeResponse st; editResponseIdInProgress := editResponseIdInProgress st;
     editCodeblockInProgress := editCodeblockInProgress st; pendingRequests := pendingRequests st;
     textModels := textModels st; editStrategies := editStrategies st;
     documents := f (documents st); recordedEdits := recordedEdits st; log := log st;
     nextPromise := nextPromise st |}.

(** [recordEdits] on a response view model *)
Definition recordEdits (responseId : string) (codeblockNumber : Z) (withSummary : bool)
    (st : @ServiceState D) : @ServiceState D :=
  {| activeResponse := activeResponse st; editResponseIdInProgress := editResponseIdInProgress st;
     editCodeblockInProgress := editCodeblockInProgress st; pendingRequests := pendingRequests st;
     textModels := textModels st; editStrategies := editStrategies st;
     documents := documents st;
     recordedEdits := (responseId, codeblockNumber, withSummary) :: recordedEdits st;
     log := log st; nextPromise := nextPromise st |}.

(** The getters *)
Definition isEditing (st : @ServiceState D) : bool :=
  bool_decide (0 < size (pendingRequests st))%nat.

Definition activeEditResponseId (st : @ServiceState D) : option string :=
  let responseId := editResponseIdInProgress st in
  if decide (responseId = EmptyString) then None else Some responseId.

Definition activeEditCodeblockNumber (st : @ServiceState D) : option Z :=
  let codeblockNumber := editCodeblockInProgress st in
  if decide (codeblockNumber = -1) then None else Some codeblockNumber.

(** [getTextModels]: [textModel0] is the copy made from the snapshot of
    [textModelN], and [textModelN] is the document of the resource. *)
Definition getTextModels (uri : string) (st : @ServiceState D)
  : @ServiceState D * Completion (D * Z) :=
  match textModels st !! uri with
  | Some textModel => (st, Returned textModel)
  | None =>
      match documents st !! uri with
      | None =>
          (withLog (LogError "getTextModels" ("Text model for " +:+ uri +:+ " not found")) st,
           Thrown ("Text model for " +:+ uri +:+ " not found"))
      | Some textModelN =>
          let model := (textModelN, getAlternativeVersionId textModelN) in
          (withTextModels (insert uri model) st, Returned model)
      end
  end.

(** [new LiveStrategy(...)] for the text models that [getTextModels] gave *)
Definition createLiveStrategy (models : D * Z) : LiveStrategy :=
  {| textModelNAltVersion := models.2; textModelNSnapshotAltVersion := None;
     _editCount := 0; _progressiveEditingDecorations := [] |}.

(** [_makeChanges] of the service, with the edit operations of a response.
    (A text model that the service has seen stays in [documents], so the last
    case is never reached.) *)
Fixpoint _makeChanges (editOperations : list WorkspaceTextEdit)
    (opts : option ProgressingEditsOptions) (st : @ServiceState D)
  : @ServiceState D * Completion unit :=
  match editOperations with
  | [] => (st, Returned ())
  | editOp :: rest =>
      let uri := resource editOp in
      let edit := textEdit editOp in
      match getTextModels uri st with
      | (st, Thrown err) => (st, Thrown err)
      | (st, Returned models) =>
          if codeEditorAvailable uri then
            let editStrategy :=
              match editStrategies st !! uri with
              | Some editStrategy => editStrategy
              | None => createLiveStrategy models
              end in
            match documents st !! uri with
            | Some textModelN =>
                let '(editStrategy, textModelN) :=
                  Editing._makeChanges [edit] opts editStrategy textModelN in
                let st := withEditStrategies (insert uri editStrategy) st in
                let st := withDocuments (insert uri textModelN) st in
                match renderChanges editStrategy with
                | Thrown err => (st, Thrown err)
                | Returned _ => _makeChanges rest opts st
                end
            | None => (st, Returned ())
            end
          else
            (withLog (LogError "sendRequest" ("Failed to find code editor for " +:+ uri)) st,
             Returned ())
      end
  end.

(** [getEditRangesInProgress] *)
Definition getEditRangesInProgress (forUri : option string) (st : @ServiceState D)
  : Completion (list Location) :=
  match forUri with
  | Some uri =>
      match editStrategies st !! uri with
      | Some editStrategy =>
          editRanges ← getEditRangeInProgress editStrategy; Returned ([] ++ editRanges)
      | None => Returned []
      end
  | None =>
      foldl (fun locations entry =>
               locations ← locations;
               editRanges ← getEditRangeInProgress entry.2;
               Returned (locations ++ editRanges))
            (Returned []) (map_to_list (editStrategies st))
  end.

(** [dispose]; [appliedEdits] tells whether the active response has applied
    edits for the codeblock ([activeResponse.appliedEdits.get(...)]).  The
    maps [_pendingEdits] and [_receivedProgress], which the service only
    writes, are not part of the state. *)
Definition dispose (appliedEdits : bool) (st : @ServiceState D) : @ServiceState D :=
  let codeblockNumber := editCodeblockInProgress st in
  let st := withEditStrategies (fun _ => ∅) st in
  let st := withTextModels (fun _ => ∅) st in
  {| activeResponse := None; editResponseIdInProgress := EmptyString;
     editCodeblockInProgress := -1; pendingRequests := pendingRequests st;
     textModels := textModels st; editStrategies := editStrategies st;
     documents := documents st;
     recordedEdits :=
       match activeResponse st with
       | Some responseVM => (vm_id responseVM, codeblockNumber, appliedEdits) :: recordedEdits st
       | None => recordedEdits st
       end;
     log := log st; nextPromise := nextPromise st |}.

(** [confirmEdits] *)
Definition confirmEdits (appliedEdits : bool) (uri : string) (st : @ServiceState D)
  : @ServiceState D :=
  match editStrategies st !! uri with
  | None =>
      withLog (LogError "confirmEdits" ("Edit strategy for " +:+ uri +:+ " not found")) st
  | Some editStrategy =>
      let st :=
        match documents st !! uri with
        | Some textModelN => withDocuments (insert uri (apply editStrategy textModelN).2) st
        | None => st
        end in
      dispose appliedEdits st
  end.

(** [cancelEdits], with the rollbacks it starts run to their end *)
Definition cancelEdits (appliedEdits : bool) (st : @ServiceState D) : @ServiceState D :=
  let rolledBack :=
    map_fold (fun uri editStrategy docs =>
                match docs !! uri with
                | Some textModelN => <[uri := (cancel editStrategy textModelN).2]> docs
                | None => docs
                end)
             (documents st) (editStrategies st) in
  let st := withDocuments (fun _ => rolledBack) st in
  let st :=
    match activeResponse st with
    | Some responseVM => recordEdits (vm_id responseVM) (editCodeblockInProgress st) false st
    | None => st
    end in
  dispose appliedEdits st.

End Service.

Section ServiceFacts.
Context {D : Type} `{TextModel D}.
Context (codeEditorAvailable : string -> bool).

(** With the live strategy the service applies the first edit of a response
    and then fails, because the strategy cannot render: whatever edits follow
    in the response are never applied. *)
Theorem makeChanges_stops_after_first_edit (editOp : WorkspaceTextEdit)
    (rest : list WorkspaceTextEdit) (opts : option ProgressingEditsOptions)
    (st : @ServiceState D) (textModelN : D) :
  documents st !! resource editOp = Some textModelN ->
  codeEditorAvailable (resource editOp) = true ->
  let uri := resource editOp in
  let models := default (textModelN, getAlternativeVersionId textModelN) (textModels st !! uri) in
  let editStrategy := default (createLiveStrategy models) (editStrategies st !! uri) in
  let st' := (_makeChanges codeEditorAvailable (editOp :: rest) opts st).1 in
  (_makeChanges codeEditorAvailable (editOp :: rest) opts st).2 =
    Thrown "Method not implemented." ∧
  _makeChanges codeEditorAvailable (editOp :: rest) opts st =
    _makeChanges codeEditorAvailable [editOp] opts st ∧
  documents st' !! uri =
    Some (Editing._makeChanges [textEdit editOp] opts editStrategy textModelN).2 ∧
  editStrategies st' !! uri =
    Some (Editing._makeChanges [textEdit editOp] opts editStrategy textModelN).1 ∧
  textModels st' !! uri = Some models ∧
  (∀ uri', uri' ≠ uri ->
     documents st' !! uri' = documents st !! uri' ∧
     editStrategies st' !! uri' = editStrategies st !! uri' ∧
     textModels st' !! uri' = textModels st !! uri').
Proof.
  intros Hdoc Heditor uri models editStrategy st'.
  subst st'. cbn [_makeChanges]. fold uri in Hdoc, Heditor |- *. unfold getTextModels.
  subst editStrategy models.
  destruct (textModels st !! uri) as [textModel |] eqn:Hmodels;
    rewrite ?Hdoc, ?Heditor; cbn [default documents withTextModels editStrategies];
    rewrite ?Hdoc;
    (destruct (editStrategies st !! uri) as [s |] eqn:Hs; cbn [default];
     destruct (Editing._makeChanges _ _ _ _) as [s' d']; simpl;
     rewrite ?lookup_insert_eq; repeat split; try done;
     by rewrite lookup_insert_ne).
Qed.

Lemma getEditRanges_fold_Thrown (err : string) (entries : list (string * LiveStrategy)) :
  foldl (fun locations entry =>
           locations ← locations;
           editRanges ← getEditRangeInProgress entry.2;
           Returned (locations ++ editRanges))
        (Thrown err) entries = Thrown err.
Proof. induction entries as [| e entries IH]; [done | exact IH]. Qed.

(** With the live strategy [getEditRangesInProgress] never names a location:
    it answers with the empty list when no strategy is consulted, and throws
    as soon as there is one. *)
Theorem getEditRangesInProgress_names_no_location (forUri : option string)
    (st : @ServiceState D) :
  let consulted :=
    match forUri with
    | Some uri => bool_decide (is_Some (editStrategies st !! uri))
    | None => bool_decide (editStrategies st ≠ ∅)
    end in
  getEditRangesInProgress forUri st =
    if consulted then Thrown "Method not implemented." else Returned [].
Proof.
  destruct forUri as [uri |]; simpl.
  - destruct (editStrategies st !! uri) as [s |] eqn:Hs.
    + by rewrite bool_decide_eq_true_2 by eauto.
    + rewrite bool_decide_eq_false_2; [done |]. by intros [? ?].
  - destruct (map_to_list (editStrategies st)) as [| e entries] eqn:Hlist.
    + apply map_to_list_empty_iff in Hlist. by rewrite bool_decide_eq_false_2 by auto.
    + rewrite bool_decide_eq_true_2.
      * simpl. apply getEditRanges_fold_Thrown.
      * intros Hempty. rewrite Hempty, map_to_list_empty in Hlist. discriminate.
Qed.

End ServiceFacts.

(** ** Edit sessions on documents with an undo stack *)

Section DocumentSession.
Context (codeEditorAvailable : string -> bool).

(** The responses of an agent, each with its edit operations, applied in
    order; a response that fails leaves the state it has reached. *)
Definition applyResponses
    (responses : list (list WorkspaceTextEdit * option ProgressingEditsOptions))
    (st : @ServiceState Document) : @ServiceState Document :=
  foldl (fun st '(editOperations, opts) =>
           (_makeChanges codeEditorAvailable editOperations opts st).1) st responses.

(** How the state of the service hangs together with the documents as they
    were when the service first looked at them. *)
Definition EditInv (st0 st : @ServiceState Document) : Prop :=
  pendingRequests st = pendingRequests st0 ∧
  ∀ uri,
    match documents st0 !! uri with
    | None =>
        documents st !! uri = None ∧ editStrategies st !! uri = None ∧
        textModels st !! uri = None
    | Some d0 =>
        match textModels st !! uri with
        | Some models => models.2 = alternativeVersionId d0
        | None => editStrategies st !! uri = None
        end ∧
        match editStrategies st !! uri with
        | Some s => ∃ d, documents st !! uri = Some d ∧ sinceCheckpoint d0 s d
        | None => documents st !! uri = Some d0
        end
    end.

Definition liveDocuments (st0 : @ServiceState Document) : Prop :=
  ∀ uri d, documents st0 !! uri = Some d ->
           disposed d = false ∧ alternativeVersionId d <= versionId d.

Lemma EditInv_withLog (st0 st : @ServiceState Document) (e : LogEntry) :
  EditInv st0 st -> EditInv st0 (withLog e st).
Proof. done. Qed.

Lemma EditInv_makeChanges (st0 st : @ServiceState Document)
    (editOperations : list WorkspaceTextEdit) (opts : option ProgressingEditsOptions) :
  liveDocuments st0 -> EditInv st0 st ->
  EditInv st0 (_makeChanges codeEditorAvailable editOperations opts st).1.
Proof.
  intros Hlive [Hpending Hinv].
  destruct editOperations as [| editOp rest]; [done |].
  cbn [_makeChanges]. set (uri := resource editOp). unfold getTextModels.
  pose proof (Hinv uri) as Huri.
  destruct (documents st0 !! uri) as [d0 |] eqn:Hd0.
  2: { destruct Huri as (Hdoc & Hs & Hmodels). rewrite Hmodels, Hdoc. by split. }
  destruct Huri as [Hmodels Hstrategy].
  assert (Hgood : untouched d0 d0).
  { destruct (Hlive uri d0 Hd0) as [Hdisp Hver]. by repeat split. }
  assert (Hstep : ∀ (st1 : @ServiceState Document) models s d,
            pendingRequests st1 = pendingRequests st ->
            editStrategies st1 = editStrategies st ->
            documents st1 = documents st ->
            textModels st1 !! uri = Some models ->
            (∀ uri', uri' ≠ uri -> textModels st1 !! uri' = textModels st !! uri') ->
            models.2 = alternativeVersionId d0 ->
            documents st !! uri = Some d ->
            sinceCheckpoint d0 s d ->
            EditInv st0
              (let '(editStrategy, textModelN) :=
                 Editing._makeChanges [textEdit editOp] opts s d in
               match renderChanges editStrategy with
               | Returned _ =>
                   _makeChanges codeEditorAvailable rest opts
                     (withDocuments (insert uri textModelN)
                        (withEditStrategies (insert uri editStrategy) st1))
               | Thrown err =>
                   (withDocuments (insert uri textModelN)
                      (withEditStrategies (insert uri editStrategy) st1), Thrown err)
               end).1).
  { intros st1 models s d Hp1 Hs1 Hd1 Hm1 Hother Hver Hd Hsince.
    pose proof (makeChanges_sinceCheckpoint d0 [textEdit editOp] opts s d Hsince) as Hsince'.
    destruct (Editing._makeChanges [textEdit editOp] opts s d) as [s' d']. simpl in *.
    split; [simpl; by rewrite Hp1 |]. intros uri'. simpl.
    destruct (decide (uri' = uri)) as [-> | Hne].
    - rewrite Hd0, Hm1, !lookup_insert_eq. split; [done |]. eauto.
    - rewrite !lookup_insert_ne by done. rewrite Hs1, Hd1, Hother by done. apply Hinv. }
  destruct (textModels st !! uri) as [models |] eqn:Hm.
  - destruct (codeEditorAvailable uri); [| by split].
    destruct (editStrategies st !! uri) as [s |] eqn:Hs.
    + destruct Hstrategy as (d & Hd & Hsince). rewrite Hd.
      by apply (Hstep st models s d).
    + rewrite Hstrategy. apply (Hstep st models (createLiveStrategy models) d0); try done.
      split; [done |]. split; [done |]. left. split; [done | by left].
  - rewrite Hmodels in Hstrategy. rewrite Hstrategy.
    destruct (codeEditorAvailable uri).
    + cbn [editStrategies withTextModels documents]. rewrite Hmodels, Hstrategy.
      apply (Hstep _ (d0, getAlternativeVersionId d0) _ d0); try done.
      * simpl. by rewrite lookup_insert_eq.
      * intros uri' Hne. simpl. by rewrite lookup_insert_ne.
      * split; [done |]. split; [done |]. left. split; [done | by left].
    + split; [done |]. intros uri'. simpl.
      destruct (decide (uri' = uri)) as [-> | Hne].
      * rewrite Hd0, lookup_insert_eq, Hmodels, Hstrategy. by split.
      * rewrite lookup_insert_ne by done. apply Hinv.
Qed.

Lemma EditInv_applyResponses
    (responses : list (list WorkspaceTextEdit * option ProgressingEditsOptions))
    (st0 st : @ServiceState Document) :
  liveDocuments st0 -> EditInv st0 st -> EditInv st0 (applyResponses responses st).
Proof.
  intros Hlive. revert st. induction responses as [| [ops opts] responses IH]; intros st Hinv;
    [done |].
  simpl. apply IH. by apply EditInv_makeChanges.
Qed.

Lemma EditInv_init (st0 : @ServiceState Document) :
  editStrategies st0 = ∅ -> textModels st0 = ∅ -> EditInv st0 st0.
Proof.
  intros Hs Hm. split; [done |]. intros uri. rewrite Hs, Hm, !lookup_empty.
  by destruct (documents st0 !! uri).
Qed.

Lemma cancel_fold_lookup {D : Type} `{TextModel D} (strategies : gmap string LiveStrategy)
    (docs : gmap string D) (uri : string) :
  map_fold (fun uri editStrategy docs =>
              match docs !! uri with
              | Some textModelN => <[uri := (cancel editStrategy textModelN).2]> docs
              | None => docs
              end) docs strategies !! uri =
  match strategies !! uri, docs !! uri with
  | Some s, Some d => Some (cancel s d).2
  | _, d => d
  end.
Proof.
  revert uri. apply (map_fold_weak_ind (fun r m => ∀ uri, r !! uri =
    match m !! uri, docs !! uri with Some s, Some d => Some (cancel s d).2 | _, d => d end)).
  - intros uri. by rewrite lookup_empty.
  - intros i s m r Hnone IH uri.
    destruct (decide (uri = i)) as [-> | Hne].
    + rewrite lookup_insert_eq. rewrite (IH i), Hnone.
      destruct (docs !! i) as [d |] eqn:Hd.
      * by rewrite lookup_insert_eq.
      * rewrite IH, Hnone. done.
    + rewrite lookup_insert_ne by done.
      destruct (r !! i); [rewrite lookup_insert_ne by done |]; apply IH.
Qed.

(** Whatever responses the service has applied to documents that it found
    live, [cancelEdits] brings every document back to the text and the
    alternate-version id it had when the session started, and drops the
    strategies, the text models and the active response.  It leaves the
    pending requests alone: the service goes on editing for a request that is
    in flight. *)
Theorem cancelEdits_restores_documents
    (responses : list (list WorkspaceTextEdit * option ProgressingEditsOptions))
    (st0 : @ServiceState Document) (appliedEdits : bool) :
  editStrategies st0 = ∅ ->
  textModels st0 = ∅ ->
  (∀ uri d, documents st0 !! uri = Some d ->
            disposed d = false ∧ alternativeVersionId d <= versionId d) ->
  let st := applyResponses responses st0 in
  let st' := cancelEdits appliedEdits st in
  (∀ uri d0, documents st0 !! uri = Some d0 ->
     ∃ d', documents st' !! uri = Some d' ∧ lines d' = lines d0 ∧
           alternativeVersionId d' = alternativeVersionId d0) ∧
  (∀ uri, documents st0 !! uri = None -> documents st' !! uri = None) ∧
  editStrategies st' = ∅ ∧ textModels st' = ∅ ∧ activeResponse st' = None ∧
  activeEditResponseId st' = None ∧ activeEditCodeblockNumber st' = None ∧
  pendingRequests st' = pendingRequests st0 ∧ isEditing st' = isEditing st0.
Proof.
  intros Hs0 Hm0 Hlive st st'.
  destruct (EditInv_applyResponses responses st0 st0 Hlive (EditInv_init st0 Hs0 Hm0))
    as [Hpending Hinv].
  fold st in Hpending, Hinv.
  assert (Hdocs : ∀ uri, documents st' !! uri =
            match editStrategies st !! uri, documents st !! uri with
            | Some s, Some d => Some (cancel s d).2
            | _, d => d
            end).
  { intros uri. subst st'. unfold cancelEdits, dispose.
    destruct (activeResponse _); simpl; apply cancel_fold_lookup. }
  assert (Hrest : editStrategies st' = ∅ ∧ textModels st' = ∅ ∧ activeResponse st' = None ∧
                  editResponseIdInProgress st' = EmptyString ∧
                  editCodeblockInProgress st' = -1 ∧
                  pendingRequests st' = pendingRequests st).
  { subst st'. unfold cancelEdits, dispose. by destruct (activeResponse _). }
  destruct Hrest as (Hs' & Hm' & Ha' & Hr' & Hc' & Hp').
  split; [| split].
  - intros uri d0 Hd0. specialize (Hinv uri). rewrite Hd0 in Hinv.
    destruct Hinv as [_ Hstrategy]. rewrite Hdocs.
    destruct (editStrategies st !! uri) as [s |].
    + destruct Hstrategy as (d & -> & Hsince).
      destruct (cancel_sinceCheckpoint d0 s d Hsince) as (Hl & Hv & _).
      eauto.
    + rewrite Hstrategy. eauto.
  - intros uri Hd0. specialize (Hinv uri). rewrite Hd0 in Hinv.
    destruct Hinv as (Hd & Hs & _). by rewrite Hdocs, Hs, Hd.
  - unfold activeEditResponseId, activeEditCodeblockNumber, isEditing.
    rewrite Hr', Hc', Hp', Hpending. by repeat split.
Qed.

End DocumentSession.

Section DocumentSessionConfirm.
Context (codeEditorAvailable : string -> bool).

(** Whatever responses the service has applied to documents that it found
    live, confirming the edits of a resource changes the text of no document
    and drops all strategies and text models; the document of the resource
    either still has the text it had when the session started, or one undo
    brings that text back: the edits of the session form one undo step, and an
    edit made afterwards starts a new one. *)
Theorem confirmEdits_keeps_edits_as_one_undo_step
    (responses : list (list WorkspaceTextEdit * option ProgressingEditsOptions))
    (st0 : @ServiceState Document) (appliedEdits : bool) (uri : string) (d0 : Document) :
  editStrategies st0 = ∅ ->
  textModels st0 = ∅ ->
  (∀ uri d, documents st0 !! uri = Some d ->
            disposed d = false ∧ alternativeVersionId d <= versionId d) ->
  documents st0 !! uri = Some d0 ->
  is_Some (editStrategies (applyResponses codeEditorAvailable responses st0) !! uri) ->
  let st := applyResponses codeEditorAvailable responses st0 in
  let st' := confirmEdits appliedEdits uri st in
  (∀ uri', lines <$> documents st' !! uri' = lines <$> documents st !! uri' ∧
           alternativeVersionId <$> documents st' !! uri' =
             alternativeVersionId <$> documents st !! uri') ∧
  (∃ d', documents st' !! uri = Some d' ∧
         (lines d' = lines d0 ∨ undoStackOpen d' = false ∧ lines (undo d') = lines d0)) ∧
  editStrategies st' = ∅ ∧ textModels st' = ∅ ∧ activeResponse st' = None ∧
  pendingRequests st' = pendingRequests st0.
Proof.
  intros Hs0 Hm0 Hlive Hd0 [s Hs] st st'. fold st in Hs.
  destruct (EditInv_applyResponses codeEditorAvailable responses st0 st0 Hlive
              (EditInv_init st0 Hs0 Hm0)) as [Hpending Hinv].
  fold st in Hpending, Hinv.
  pose proof (Hinv uri) as Huri. rewrite Hd0, Hs in Huri.
  destruct Huri as (_ & d & Hd & Hsince).
  assert (Hst' : documents st' = <[uri := (apply s d).2]> (documents st) ∧
                 editStrategies st' = ∅ ∧ textModels st' = ∅ ∧ activeResponse st' = None ∧
                 pendingRequests st' = pendingRequests st).
  { subst st'. unfold confirmEdits. rewrite Hs, Hd. done. }
  destruct Hst' as (Hdocs & Hs' & Hm' & Ha' & Hp').
  assert (Happly : lines (apply s d).2 = lines d ∧
                   alternativeVersionId (apply s d).2 = alternativeVersionId d).
  { unfold apply. simpl. by destruct (decide _). }
  split; [| split].
  - intros uri'. destruct (decide (uri' = uri)) as [-> | Hne].
    + rewrite Hdocs, lookup_insert_eq, Hd. cbn [fmap option_fmap option_map].
      destruct Happly as [Hl Hv]. by rewrite Hl, Hv.
    + by rewrite Hdocs, lookup_insert_ne.
  - exists (apply s d).2. rewrite Hdocs, lookup_insert_eq. split; [done |].
    destruct Hsince as (_ & _ & [[(Hl & _) _] | [(Hstack & _) Hcount]]).
    + left. destruct Happly as [-> _]. exact Hl.
    + right. unfold apply. simpl. rewrite decide_True by done.
      split; [done |]. cbn [undo Document_TextModel pushUndoStop].
      unfold doc_undo, doc_pushUndoStop. simpl. by rewrite Hstack.
  - by rewrite Hp', Hpending.
Qed.

End DocumentSessionConfirm.

(** ** The life of an edit request *)

(** An edit request with one context for a session without pending edit
    request is accepted: the service is editing, the response and the
    codeblock of the request are the active ones (an empty response id and the
    codeblock number -1 read as none), and the edits recorded for the codeblock
    are reset.  When the request has settled, the pending requests are as
    before.  A request for a session that has a pending request is turned down
    and still becomes the active one. *)
Theorem sendEditRequest_life_cycle {D : Type} (responseVM : ResponseViewModel)
    (ctx : CodeblockContext) (st : @ServiceState D) :
  let request := {| context := [ctx] |} in
  let st' := (sendEditRequest responseVM request st).1 in
  activeResponse st' = Some responseVM ∧
  activeEditResponseId st' =
    (if decide (vm_id responseVM = EmptyString) then None else Some (vm_id responseVM)) ∧
  activeEditCodeblockNumber st' =
    (if decide (codeBlockIndex ctx = -1) then None else Some (codeBlockIndex ctx)) ∧
  head (recordedEdits st') = Some (vm_id responseVM, codeBlockIndex ctx, false) ∧
  match pendingRequests st !! vm_sessionId responseVM with
  | None =>
      (sendEditRequest responseVM request st).2 = Some (nextPromise st) ∧
      pendingRequests st' !! vm_sessionId responseVM = Some (nextPromise st) ∧
      isEditing st' = true ∧
      pendingRequests (onEditRequestSettled responseVM st') = pendingRequests st ∧
      isEditing (onEditRequestSettled responseVM st') = isEditing st
  | Some _ =>
      (sendEditRequest responseVM request st).2 = None ∧
      pendingRequests st' = pendingRequests st
  end.
Proof.
  intros request st'. subst st' request. unfold sendEditRequest. cbn [context pendingRequests].
  destruct (pendingRequests st !! vm_sessionId responseVM) as [p |] eqn:Hp.
  - by repeat split.
  - unfold _sendEditRequestAsync, onEditRequestSettled, isEditing. simpl.
    rewrite lookup_insert_eq, delete_insert_id by done.
    repeat split; try done.
    rewrite map_size_insert_None by done. apply bool_decide_eq_true. lia.
Qed.

(** ** A session on one document *)

(** The service with the document [editedBefore] under [file:///a]. *)
Definition oneDocument : @ServiceState Document :=
  withDocuments (fun _ => {["file:///a" := editedBefore]}) emptyEditService.

(** Replace [one] by [two], and put [zero ] in front of the line. *)
Definition editOneToTwo : WorkspaceTextEdit :=
  {| resource := "file:///a"; textEdit := oneToTwo |}.

Definition editPrepend : WorkspaceTextEdit :=
  {| resource := "file:///a";
     textEdit := {| range := {| startLineNumber := 1; startColumn := 1;
                                endLineNumber := 1; endColumn := 1 |};
                    text := Some "zero " |} |}.

Lemma oneDocument_live (uri : string) (d : Document) :
  documents oneDocument !! uri = Some d ->
  disposed d = false ∧ alternativeVersionId d <= versionId d.
Proof.
  intros Hd. change (documents oneDocument) with ({["file:///a" := editedBefore]} : gmap string Document) in Hd.
  apply lookup_singleton_Some in Hd as [_ <-]. split; [reflexivity |].
  simpl. lia.
Qed.

Lemma makeChanges_stops_after_first_edit_witness :
  let result := _makeChanges (fun _ => true) [editOneToTwo; editPrepend] None oneDocument in
  result.2 = Thrown "Method not implemented." ∧
  lines <$> documents result.1 !! "file:///a" = Some ["two"].
Proof.
  intros result.
  destruct (makeChanges_stops_after_first_edit (fun _ => true) editOneToTwo [editPrepend] None
              oneDocument editedBefore ltac:(reflexivity) ltac:(reflexivity))
    as (Hthrown & _ & Hdoc & _).
  split; [exact Hthrown |].
  subst result. cbv zeta in Hdoc. change "file:///a" with (resource editOneToTwo).
  rewrite Hdoc. reflexivity.
Defined.

Lemma cancelEdits_restores_documents_witness :
  let st := applyResponses (fun _ => true)
              [([editOneToTwo], None); ([editPrepend], Some {| duration := 10 |})]
              oneDocument in
  lines <$> documents st !! "file:///a" = Some ["zero two"] ∧
  ∃ d', documents (cancelEdits false st) !! "file:///a" = Some d' ∧ lines d' = ["one"].
Proof.
  intros st.
  destruct (cancelEdits_restores_documents (fun _ => true)
              [([editOneToTwo], None); ([editPrepend], Some {| duration := 10 |})]
              oneDocument false ltac:(reflexivity) ltac:(reflexivity) oneDocument_live)
    as (Hrestored & _).
  split; [vm_compute; reflexivity |].
  destruct (Hrestored "file:///a" editedBefore ltac:(reflexivity)) as (d' & Hd' & Hlines & _).
  exists d'. split; [exact Hd' | exact Hlines].
Defined.

Lemma confirmEdits_keeps_edits_as_one_undo_step_witness :
  let st := applyResponses (fun _ => true) [([editOneToTwo], None)] oneDocument in
  ∃ d', documents (confirmEdits false "file:///a" st) !! "file:///a" = Some d' ∧
        (lines d' = ["one"] ∨ undoStackOpen d' = false ∧ lines (undo d') = ["one"]).
Proof.
  intros st.
  destruct (confirmEdits_keeps_edits_as_one_undo_step (fun _ => true)
              [([editOneToTwo], None)] oneDocument false "file:///a" editedBefore
              ltac:(reflexivity) ltac:(reflexivity) oneDocument_live ltac:(reflexivity)
              ltac:(vm_compute; eauto))
    as (_ & Hundo & _).
  exact Hundo.
Defined.

End EditSession.

(* ===================================================================== *)
(** * ChatAccessibilityService                                             *)
(* ===================================================================== *)

Module ChatAccessibility.

(** [AccessibilitySignal], the two signals the service plays *)
Inductive Signal := chatRequestSent | chatResponseReceived.

(** What [acceptResponse] is given: a string, a response view model (the
    text [response.asString()] and the message of its [errorDetails]), or
    [undefined]. *)
Inductive Response :=
  | ResponseString (s : string)
  | ResponseViewModel (asString : string) (errorDetails : option string)
  | ResponseUndefined.

Record AccessibilityState := {
  _requestId : Z;
  (** [_pendingSignalMap]: request id to progress-signal scheduler *)
  _pendingSignalMap : gmap Z nat;
  (** the schedulers the map has disposed, newest first *)
  disposedSchedulers : list nat;
  (** the signals played and the texts announced with [status], newest first *)
  played : list Signal;
  announced : list string;
  (** next fresh scheduler *)
  nextScheduler : nat;
}.

Definition initialAccessibility : AccessibilityState :=
  {| _requestId := 0; _pendingSignalMap := ∅; disposedSchedulers := []; played := [];
     announced := []; nextScheduler := 0 |}.

(** [n++] on a JavaScript number that holds a non-negative integer: from
    [2^53] on, adding one no longer changes the number. *)
Definition increment (n : Z) : Z := if n <? 2 ^ 53 then n + 1 else n.

(** [acceptRequest] *)
Definition acceptRequest (st : AccessibilityState) : Z * AccessibilityState :=
  let requestId := increment (_requestId st) in
  let scheduler := nextScheduler st in
  (requestId,
   {| _requestId := requestId;
      _pendingSignalMap := <[requestId := scheduler]> (_pendingSignalMap st);
      disposedSchedulers :=
        match _pendingSignalMap st !! requestId with
        | Some old => old :: disposedSchedulers st
        | None => disposedSchedulers st
        end;
      played := chatRequestSent :: played st;
      announced := announced st;
      nextScheduler := S (nextScheduler st) |}).

Section AcceptResponse.
(** [renderStringAsPlaintext(new MarkdownString(...))] *)
Context (renderStringAsPlaintext : string -> string).

(** [acceptResponse] *)
Definition acceptResponse (response : Response) (requestId : Z) (st : AccessibilityState)
  : AccessibilityState :=
  let responseContent :=
    match response with
    | ResponseString s => Some s
    | ResponseViewModel asString _ => Some asString
    | ResponseUndefined => None
    end in
  let announcement :=
    match response, responseContent with
    | ResponseString (String _ _), Some content => Some (renderStringAsPlaintext content)
    | ResponseViewModel _ errorDetails, Some (String c rest) =>
        let errorDetails :=
          match errorDetails with
          | Some message => " " +:+ message
          | None => EmptyString
          end in
        Some (renderStringAsPlaintext (String c rest) +:+ errorDetails)
    | _, _ => None
    end in
  {| _requestId := _requestId st;
     _pendingSignalMap := delete requestId (_pendingSignalMap st);
     disposedSchedulers :=
       match _pendingSignalMap st !! requestId with
       | Some old => old :: disposedSchedulers st
       | None => disposedSchedulers st
       end;
     played := chatResponseReceived :: played st;
     announced := match announcement with
                  | Some text => text :: announced st
                  | None => announced st
                  end;
     nextScheduler := nextScheduler st |}.

(** The calls of the two methods *)
Inductive Call :=
  | AcceptRequest
  | AcceptResponse (response : Response) (requestId : Z).

Definition call (st : AccessibilityState) (c : Call) : AccessibilityState :=
  match c with
  | AcceptRequest => (acceptRequest st).2
  | AcceptResponse response requestId => acceptResponse response requestId st
  end.

Record AccessibilityInv (n : nat) (st : AccessibilityState) : Prop := {
  ainv_count : 0 <= _requestId st <= Z.of_nat n;
  ainv_keys : ∀ requestId scheduler, _pendingSignalMap st !! requestId = Some scheduler ->
                0 < requestId <= _requestId st ∧ (scheduler < nextScheduler st)%nat ∧
                scheduler ∉ disposedSchedulers st;
  ainv_inj : ∀ id1 id2 scheduler, _pendingSignalMap st !! id1 = Some scheduler ->
               _pendingSignalMap st !! id2 = Some scheduler -> id1 = id2;
  ainv_disposed : NoDup (disposedSchedulers st) ∧
                  ∀ scheduler, scheduler ∈ disposedSchedulers st ->
                               (scheduler < nextScheduler st)%nat;
}.

Lemma increment_fresh (n : nat) (st : AccessibilityState) :
  Z.of_nat n < 2 ^ 53 -> AccessibilityInv n st ->
  increment (_requestId st) = _requestId st + 1 ∧
  _pendingSignalMap st !! increment (_requestId st) = None.
Proof.
  intros Hn [Hcount Hkeys _ _]. unfold increment.
  rewrite (proj2 (Z.ltb_lt _ _)) by lia. split; [done |].
  destruct (_pendingSignalMap st !! (_requestId st + 1)) as [scheduler |] eqn:Hin; [| done].
  destruct (Hkeys _ _ Hin) as [Hle _]. lia.
Qed.

Lemma AccessibilityInv_call (n : nat) (st : AccessibilityState) (c : Call) :
  Z.of_nat (S n) < 2 ^ 53 -> AccessibilityInv n st -> AccessibilityInv (S n) (call st c).
Proof.
  intros Hn Hinv. destruct c as [| response requestId]; cbn [call].
  - destruct (increment_fresh n st ltac:(lia) Hinv) as [Hincr Hfresh].
    destruct Hinv as [Hcount Hkeys Hinj [Hnd Hdisp]].
    unfold acceptRequest. cbn [snd]. rewrite Hfresh, Hincr.
    constructor; cbn.
    + lia.
    + intros id scheduler Hid. destruct (decide (id = _requestId st + 1)) as [-> | Hne].
      * rewrite lookup_insert_eq in Hid. injection Hid as <-.
        split; [lia |]. split; [lia |]. intros Hd. apply Hdisp in Hd. lia.
      * rewrite lookup_insert_ne in Hid by done.
        destruct (Hkeys _ _ Hid) as (Hr & Hs & Hd). split; [lia |]. split; [lia | done].
    + intros id1 id2 scheduler H1 H2.
      destruct (decide (id1 = _requestId st + 1)) as [-> | Hne1],
               (decide (id2 = _requestId st + 1)) as [-> | Hne2]; [done | | |].
      * rewrite lookup_insert_eq in H1. rewrite lookup_insert_ne in H2 by done.
        injection H1 as <-. destruct (Hkeys _ _ H2) as (_ & Hs & _). lia.
      * rewrite lookup_insert_eq in H2. rewrite lookup_insert_ne in H1 by done.
        injection H2 as <-. destruct (Hkeys _ _ H1) as (_ & Hs & _). lia.
      * rewrite lookup_insert_ne in H1, H2 by done. by eapply Hinj.
    + split; [done |]. intros scheduler Hd. apply Hdisp in Hd. lia.
  - destruct Hinv as [Hcount Hkeys Hinj [Hnd Hdisp]].
    constructor; cbn.
    + lia.
    + intros id scheduler Hid. apply lookup_delete_Some in Hid as [Hne Hid].
      destruct (Hkeys _ _ Hid) as (Hr & Hs & Hd). split; [done |]. split; [done |].
      destruct (_pendingSignalMap st !! requestId) as [old |] eqn:Hold; [| done].
      apply not_elem_of_cons. split; [| done]. intros ->. apply Hne. by eapply Hinj.
    + intros id1 id2 scheduler [_ H1]%lookup_delete_Some [_ H2]%lookup_delete_Some.
      by eapply Hinj.
    + destruct (_pendingSignalMap st !! requestId) as [old |] eqn:Hold; [| done].
      destruct (Hkeys _ _ Hold) as (_ & Hs & Hd). split.
      * by constructor.
      * intros scheduler [-> | Hin]%elem_of_cons; [done | by apply Hdisp].
Qed.

Lemma AccessibilityInv_run (calls : list Call) :
  Z.of_nat (length calls) < 2 ^ 53 ->
  AccessibilityInv (length calls) (foldl call initialAccessibility calls).
Proof.
  induction calls as [| c calls IH] using rev_ind; intros Hn.
  - constructor; cbn.
    + lia.
    + intros requestId scheduler Hin. by rewrite lookup_empty in Hin.
    + intros id1 id2 scheduler Hin. by rewrite lookup_empty in Hin.
    + split; [constructor | by intros scheduler ?%elem_of_nil].
  - rewrite foldl_app, length_app in *. cbn [foldl length] in *.
    replace (length calls + 1)%nat with (S (length calls)) in * by lia.
    apply AccessibilityInv_call; [done |]. apply IH. lia.
Qed.

(** After any calls of the service (fewer than [2^53]), [acceptRequest]
    answers with a request id that is new and registers a new scheduler under
    it without disposing one; the schedulers of the other requests stay
    registered, and [acceptResponse] for the new id disposes exactly the new
    scheduler.  No scheduler is ever disposed twice. *)
Theorem acceptRequest_gives_fresh_id (calls : list Call) :
  Z.of_nat (length calls) < 2 ^ 53 - 1 ->
  let st := foldl call initialAccessibility calls in
  let requestId := (acceptRequest st).1 in
  let st' := (acceptRequest st).2 in
  requestId = _requestId st + 1 ∧
  _pendingSignalMap st !! requestId = None ∧
  disposedSchedulers st' = disposedSchedulers st ∧
  NoDup (disposedSchedulers st) ∧
  (∀ id scheduler, _pendingSignalMap st !! id = Some scheduler ->
                   _pendingSignalMap st' !! id = Some scheduler) ∧
  ∃ scheduler,
    _pendingSignalMap st' !! requestId = Some scheduler ∧
    (∀ id, _pendingSignalMap st !! id ≠ Some scheduler) ∧
    ¬ (scheduler ∈ disposedSchedulers st') ∧
    ∀ response,
      disposedSchedulers (acceptResponse response requestId st') =
        scheduler :: disposedSchedulers st ∧
      _pendingSignalMap (acceptResponse response requestId st') = _pendingSignalMap st.
Proof.
  intros Hn st requestId st'.
  pose proof (AccessibilityInv_run calls ltac:(lia)) as Hinv. fold st in Hinv.
  destruct (increment_fresh (length calls) st ltac:(lia) Hinv) as [Hincr Hfresh].
  destruct Hinv as [Hcount Hkeys Hinj [Hnd Hdisp]].
  subst requestId st'. unfold acceptRequest. cbn [fst snd]. rewrite Hfresh, Hincr. cbn.
  rewrite Hincr in Hfresh.
  split; [done |]. split; [done |]. split; [done |]. split; [done |].
  split.
  - intros id scheduler Hid. rewrite lookup_insert_ne; [done |].
    intros <-. congruence.
  - exists (nextScheduler st). rewrite lookup_insert_eq. split; [done |].
    split; [| split].
    + intros id Hid. destruct (Hkeys _ _ Hid) as (_ & Hs & _). lia.
    + intros Hd. apply Hdisp in Hd. lia.
    + intros response. unfold acceptResponse. cbn. rewrite ?lookup_insert_eq.
      split; [done |]. by apply delete_insert_id.
Qed.

End AcceptResponse.

Lemma acceptRequest_gives_fresh_id_witness :
  let st := foldl (call (fun s => s)) initialAccessibility
              [AcceptRequest; AcceptRequest; AcceptResponse (ResponseString "done") 1] in
  (acceptRequest st).1 = 3 ∧
  ∃ scheduler, _pendingSignalMap (acceptRequest st).2 !! 3 = Some scheduler ∧
               ∀ id, _pendingSignalMap st !! id ≠ Some scheduler.
Proof.
  intros st.
  destruct (acceptRequest_gives_fresh_id (fun s => s)
              [AcceptRequest; AcceptRequest; AcceptResponse (ResponseString "done") 1]
              ltac:(vm_compute; reflexivity))
    as (Hid & _ & _ & _ & _ & scheduler & Hscheduler & Hnew & _).
  fold st in Hid, Hscheduler, Hnew.
  assert (H3 : (acceptRequest st).1 = 3) by (rewrite Hid; reflexivity).
  split; [exact H3 |]. exists scheduler. rewrite <- H3. by split.
Defined.

End ChatAccessibility.

(* ===================================================================== *)
(** * Rolling back in steps                                                *)
(* ===================================================================== *)

Section RollbackComposition.
Import Editing.
Context {D : Type} `{TextModel D}.

Lemma keepsUndoing_false (target : Z) (model : D) :
  keepsUndoing target model = false ↔
  getAlternativeVersionId model <= target ∨ canUndo model = false.
Proof.
  unfold keepsUndoing. rewrite andb_false_iff, Z.ltb_ge. done.
Qed.

Lemma undoModelUntil_min (model : D) (a b : Z) :
  undoModelUntil (undoModelUntil model a) b = undoModelUntil model (Z.min a b).
Proof.
  remember (undoStackDepth model) as k eqn:Hk.
  revert model Hk. induction (lt_wf k) as [k _ IH]. intros model ->.
  rewrite (undoModelUntil_step model a), (undoModelUntil_step model (Z.min a b)).
  destruct (keepsUndoing a model) eqn:Ha.
  - assert (Hmin : keepsUndoing (Z.min a b) model = true).
    { unfold keepsUndoing in *. apply andb_true_iff in Ha as [Ha ->].
      apply Z.ltb_lt in Ha. rewrite andb_true_r. apply Z.ltb_lt. lia. }
    rewrite Hmin. eapply IH; [| reflexivity].
    apply undo_pops. unfold keepsUndoing in Ha. apply andb_true_iff in Ha. tauto.
  - rewrite (undoModelUntil_step model b).
    destruct (Z.min_spec a b) as [[Hlt ->] | [Hle ->]].
    + rewrite Ha. apply keepsUndoing_false in Ha.
      assert (Hb : keepsUndoing b model = false).
      { apply keepsUndoing_false. destruct Ha as [Ha | Ha]; [left; lia | by right]. }
      by rewrite Hb.
    + done.
Qed.

(** Rolling a document back to one version and then to another ends where
    rolling it back to the lower of the two ends, in either order; a rollback
    only undoes, and it stops at a document that is at or below the version
    asked for or has nothing left to undo. *)
Theorem undoChanges_to_lower_version (a b : Z) (s : LiveStrategy) (textModelN : D) :
  (undoChanges b s (undoChanges a s textModelN).2).2 =
    (undoChanges (Z.min a b) s textModelN).2 ∧
  (undoChanges a s (undoChanges b s textModelN).2).2 =
    (undoChanges b s (undoChanges a s textModelN).2).2 ∧
  (undoChanges a s textModelN).1 = s ∧
  let rolledBack := (undoChanges a s textModelN).2 in
  (getAlternativeVersionId rolledBack <= a ∨ canUndo rolledBack = false) ∧
  ∃ n : nat, rolledBack = Nat.iter n undo textModelN ∧
             ∀ i : nat, (i < n)%nat ->
               a < getAlternativeVersionId (Nat.iter i undo textModelN) ∧
               canUndo (Nat.iter i undo textModelN) = true.
Proof.
  unfold undoChanges. cbn [fst snd].
  split; [apply undoModelUntil_min |].
  split; [by rewrite !undoModelUntil_min, Z.min_comm |].
  split; [done |]. cbv zeta.
  destruct (undoModelUntil_iter textModelN a) as (n & Heq & Hbefore & Hstop).
  rewrite Heq. split; [by apply keepsUndoing_false |].
  exists n. split; [done |]. intros i Hi. specialize (Hbefore i Hi).
  unfold keepsUndoing in Hbefore. apply andb_true_iff in Hbefore as [Hlt Hcan].
  by apply Z.ltb_lt in Hlt.
Qed.

End RollbackComposition.

(* ===================================================================== *)
(** * Labels of code symbols                                               *)
(* ===================================================================== *)

Module VariableInfo.

(** [\w] *)
Definition isWordCharacter (c : N) : bool :=
  ((48 <=? c) && (c <=? 57) || (65 <=? c) && (c <=? 90) ||
   (97 <=? c) && (c <=? 122) || (c =? 95))%N.

(** [[^)]*\)] at the start of [s]: the characters in front of the first
    closing parenthesis, and what follows it. *)
Fixpoint untilParen (s : jsString) : option (jsString * jsString) :=
  match s with
  | [] => None
  | c :: s' =>
      if (c =? 41)%N then Some ([], s')
      else match untilParen s' with
           | Some (group, rest) => Some (c :: group, rest)
           | None => None
           end
  end.

(** [\w*] at the start of [s], as much as there is *)
Fixpoint wordCharacters (s : jsString) : jsString :=
  match s with
  | c :: s' => if isWordCharacter c then c :: wordCharacters s' else []
  | [] => []
  end.

(** The pattern [/\$\(([^)]+)\)\s*(\w+)/] matched at the start of [s]: its two
    groups.  Each of its quantifiers is followed by something that the
    quantified class excludes, so taking as much as there is is the only way
    to match. *)
Definition matchPatternAt (s : jsString) : option (jsString * jsString) :=
  match s with
  | c1 :: c2 :: s' =>
      if ((c1 =? 36) && (c2 =? 40))%N then
        match untilParen s' with
        | Some (c :: group, rest) =>
            match wordCharacters (trimStart rest) with
            | [] => None
            | name => Some (c :: group, name)
            end
        | _ => None
        end
      else None
  | _ => None
  end.

(** [input.match(pattern)]: the groups of the leftmost match *)
Fixpoint matchPattern (input : jsString) : option (jsString * jsString) :=
  match matchPatternAt input with
  | Some groups => Some groups
  | None =>
      match input with
      | [] => None
      | _ :: input' => matchPattern input'
      end
  end.

(** [symbol-] *)
Definition symbolPrefix : jsString := [115; 121; 109; 98; 111; 108; 45]%N.

(** [variableType.replace(/^symbol-/, '')] *)
Definition removeSymbolPrefix (variableType : jsString) : jsString :=
  if decide (take 7 variableType = symbolPrefix) then drop 7 variableType else variableType.

(** [parseVariableInfo]: [[variableName, variableType]], or [None] for [null] *)
Definition parseVariableInfo (input : jsString) : option (jsString * jsString) :=
  match matchPattern input with
  | Some (group1, group2) =>
      let variableType := group1 in
      let variableName := group2 in
      let variableType := removeSymbolPrefix variableType in
      Some (variableName, variableType)
  | None => None
  end.

Definition startsWithWordCharacter (s : jsString) : bool :=
  match s with
  | c :: _ => isWordCharacter c
  | [] => false
  end.

Lemma untilParen_app (group rest : jsString) :
  Forall (fun c => c ≠ 41%N) group ->
  untilParen (group ++ 41%N :: rest) = Some (group, rest).
Proof.
  induction 1 as [| c group Hc Hgroup IH]; simpl; [done |].
  rewrite (proj2 (N.eqb_neq _ _) Hc). by rewrite IH.
Qed.

Lemma untilParen_Some (s group rest : jsString) :
  untilParen s = Some (group, rest) ->
  s = group ++ 41%N :: rest ∧ Forall (fun c => c ≠ 41%N) group.
Proof.
  revert group. induction s as [| c s IH]; intros group; simpl; [done |].
  destruct (c =? 41)%N eqn:Hc.
  - apply N.eqb_eq in Hc as ->. intros [= <- <-]. by split.
  - apply N.eqb_neq in Hc. destruct (untilParen s) as [[group' rest'] |]; [| done].
    intros [= <- <-]. destruct (IH group' eq_refl) as [-> Hgroup].
    split; [done |]. by constructor.
Qed.

Lemma wordCharacter_not_whiteSpace (c : N) :
  isWordCharacter c = true -> isWhiteSpaceOrLineTerminator c = false.
Proof.
  intros Hword.
  assert (Hrange : (48 <= c <= 122)%N).
  { unfold isWordCharacter in Hword.
    rewrite !orb_true_iff, !andb_true_iff, !N.leb_le, N.eqb_eq in Hword. lia. }
  destruct (isWhiteSpaceOrLineTerminator c) eqn:Hspace; [| done].
  unfold isWhiteSpaceOrLineTerminator in Hspace.
  rewrite !orb_true_iff, !andb_true_iff, !N.leb_le, !N.eqb_eq in Hspace. lia.
Qed.

Lemma trimStart_app (ws s : jsString) :
  Forall (fun c => isWhiteSpaceOrLineTerminator c = true) ws ->
  startsWithWordCharacter s = true ->
  trimStart (ws ++ s) = s.
Proof.
  intros Hws Hs. induction Hws as [| c ws Hc Hws IH]; simpl.
  - destruct s as [| c s]; [done |]. simpl in Hs. simpl.
    by rewrite (wordCharacter_not_whiteSpace c Hs).
  - by rewrite Hc.
Qed.

Lemma trimStart_split (s : jsString) :
  ∃ ws, s = ws ++ trimStart s ∧ Forall (fun c => isWhiteSpaceOrLineTerminator c = true) ws.
Proof.
  induction s as [| c s (ws & Heq & Hws)]; [by exists [] |]. simpl.
  destruct (isWhiteSpaceOrLineTerminator c) eqn:Hc.
  - exists (c :: ws). split; [by rewrite <- app_comm_cons, <- Heq | by constructor].
  - by exists [].
Qed.

Lemma wordCharacters_app (name rest : jsString) :
  Forall (fun c => isWordCharacter c = true) name ->
  startsWithWordCharacter rest = false ->
  wordCharacters (name ++ rest) = name.
Proof.
  intros Hname Hrest. induction Hname as [| c name Hc Hname IH]; simpl.
  - destruct rest as [| c rest]; [done |]. simpl in Hrest. simpl. by rewrite Hrest.
  - by rewrite Hc, IH.
Qed.

Lemma wordCharacters_split (s : jsString) :
  ∃ rest, s = wordCharacters s ++ rest ∧
          Forall (fun c => isWordCharacter c = true) (wordCharacters s) ∧
          startsWithWordCharacter rest = false.
Proof.
  induction s as [| c s (rest & Heq & Hword & Hrest)]; [by exists [] |]. simpl.
  destruct (isWordCharacter c) eqn:Hc.
  - exists rest. split; [by rewrite <- app_comm_cons, <- Heq |]. split; [by constructor | done].
  - exists (c :: s). split; [done |]. split; [constructor | done].
Qed.

Lemma parseVariableInfo_label (icon ws name rest : jsString) :
  icon ≠ [] ->
  Forall (fun c => c ≠ 41%N) icon ->
  Forall (fun c => isWhiteSpaceOrLineTerminator c = true) ws ->
  name ≠ [] ->
  Forall (fun c => isWordCharacter c = true) name ->
  startsWithWordCharacter rest = false ->
  parseVariableInfo ([36; 40]%N ++ icon ++ [41%N] ++ ws ++ name ++ rest) =
    Some (name, removeSymbolPrefix icon).
Proof.
  intros Hicon Hparen Hws Hname Hword Hrest.
  unfold parseVariableInfo. cbn [matchPattern app]. unfold matchPatternAt.
  cbn [N.eqb Pos.eqb andb].
  change (icon ++ 41%N :: ws ++ name ++ rest) with (icon ++ 41%N :: (ws ++ name ++ rest)).
  rewrite untilParen_app by done.
  destruct icon as [| c icon]; [done |].
  rewrite trimStart_app; [| done |].
  - rewrite wordCharacters_app by done. by destruct name.
  - destruct name as [| c' name]; [done |]. simpl. by inversion Hword.
Qed.

(** The label of a symbol as the symbol picker writes it, an icon name in
    [$(...)] followed by the name of the symbol, is taken apart into the name
    and the icon name; an icon name that begins with [symbol-] is given
    without this prefix. *)
Theorem parseVariableInfo_of_label (icon ws name rest : jsString) :
  Forall (fun c => c ≠ 41%N) icon ->
  Forall (fun c => isWhiteSpaceOrLineTerminator c = true) ws ->
  name ≠ [] ->
  Forall (fun c => isWordCharacter c = true) name ->
  startsWithWordCharacter rest = false ->
  parseVariableInfo ([36; 40]%N ++ symbolPrefix ++ icon ++ [41%N] ++ ws ++ name ++ rest) =
    Some (name, icon) ∧
  (icon ≠ [] ->
   parseVariableInfo ([36; 40]%N ++ icon ++ [41%N] ++ ws ++ name ++ rest) =
     Some (name, if decide (take 7 icon = symbolPrefix) then drop 7 icon else icon)).
Proof.
  intros Hparen Hws Hname Hword Hrest. split.
  - assert (Hprefix : Forall (fun c => c ≠ 41%N) (symbolPrefix ++ icon)).
    { apply Forall_app. split; [| done]. unfold symbolPrefix. repeat constructor; discriminate. }
    assert (Hstrip : removeSymbolPrefix (symbolPrefix ++ icon) = icon).
    { unfold removeSymbolPrefix, symbolPrefix. cbn [app take drop]. by rewrite decide_True. }
    rewrite (app_assoc symbolPrefix).
    by rewrite (parseVariableInfo_label (symbolPrefix ++ icon) ws name rest), Hstrip.
  - intros Hicon. by apply parseVariableInfo_label.
Qed.

Lemma parseVariableInfo_of_label_witness :
  parseVariableInfo
    ([36; 40]%N ++ symbolPrefix ++ [107; 101; 121]%N ++ [41%N] ++ [32%N]
       ++ [102; 111; 111]%N ++ [46; 98]%N) =
    Some ([102; 111; 111]%N, [107; 101; 121]%N).
Proof.
  destruct (parseVariableInfo_of_label [107; 101; 121]%N [32%N] [102; 111; 111]%N [46; 98]%N
              ltac:(repeat constructor; discriminate) ltac:(repeat constructor)
              ltac:(discriminate) ltac:(repeat constructor) ltac:(reflexivity))
    as [Hlabel _].
  exact Hlabel.
Defined.

Lemma matchPatternAt_Some (s group1 group2 : jsString) :
  matchPatternAt s = Some (group1, group2) ->
  ∃ ws rest, s = [36; 40]%N ++ group1 ++ [41%N] ++ ws ++ group2 ++ rest ∧
             group1 ≠ [] ∧ Forall (fun c => c ≠ 41%N) group1 ∧
             Forall (fun c => isWhiteSpaceOrLineTerminator c = true) ws ∧
             group2 ≠ [] ∧ Forall (fun c => isWordCharacter c = true) group2 ∧
             startsWithWordCharacter rest = false.
Proof.
  unfold matchPatternAt. destruct s as [| c1 [| c2 s]]; try done.
  destruct ((c1 =? 36) && (c2 =? 40))%N eqn:Hlead; [| done].
  apply andb_true_iff in Hlead as [->%N.eqb_eq ->%N.eqb_eq].
  destruct (untilParen s) as [[[| c group] after] |] eqn:Hparen; try done.
  apply untilParen_Some in Hparen as [-> Hgroup].
  destruct (trimStart_split after) as (ws & Hafter & Hws).
  destruct (wordCharacters_split (trimStart after)) as (rest & Hsplit & Hword & Hrest).
  destruct (wordCharacters (trimStart after)) as [| n name] eqn:Hname; [done |].
  intros [= <- <-]. exists ws, rest.
  split; [| by repeat split].
  rewrite Hafter at 1. rewrite Hsplit. reflexivity.
Qed.

(** Whatever [parseVariableInfo] answers comes from an occurrence of the
    pattern in the input: an icon name in [$(...)] that is not empty and has
    no closing parenthesis, then white space, then the name, which is a
    non-empty run of word characters that ends where the word ends; the
    answer is the name and the icon name without one prefix [symbol-]. *)
Theorem parseVariableInfo_sound (input variableName variableType : jsString) :
  parseVariableInfo input = Some (variableName, variableType) ->
  ∃ before icon ws rest,
    input = before ++ [36; 40]%N ++ icon ++ [41%N] ++ ws ++ variableName ++ rest ∧
    variableType = removeSymbolPrefix icon ∧
    icon ≠ [] ∧ Forall (fun c => c ≠ 41%N) icon ∧
    Forall (fun c => isWhiteSpaceOrLineTerminator c = true) ws ∧
    variableName ≠ [] ∧ Forall (fun c => isWordCharacter c = true) variableName ∧
    startsWithWordCharacter rest = false ∧
    Forall (fun c => c ≠ 41%N) variableType.
Proof.
  unfold parseVariableInfo.
  destruct (matchPattern input) as [[group1 group2] |] eqn:Hmatch; [| done].
  intros [= <- <-].
  assert (Hocc : ∃ before s, input = before ++ s ∧ matchPatternAt s = Some (group1, group2)).
  { revert Hmatch. induction input as [| c input IH].
    - simpl. done.
    - cbn [matchPattern]. destruct (matchPatternAt (c :: input)) as [groups |] eqn:Hat.
      + intros [= ->]. by exists [], (c :: input).
      + intros Hrest. destruct (IH Hrest) as (before & s & -> & Hs).
        by exists (c :: before), s. }
  destruct Hocc as (before & s & -> & Hs).
  apply matchPatternAt_Some in Hs
    as (ws & rest & -> & Hicon & Hparen & Hws & Hname & Hword & Hrest).
  exists before, group1, ws, rest. repeat split; try done.
  unfold removeSymbolPrefix. destruct (decide _); [by apply Forall_drop | done].
Qed.

Lemma parseVariableInfo_sound_witness :
  ∃ before icon ws rest,
    [120; 36; 40; 97; 41; 32; 98]%N =
      before ++ [36; 40]%N ++ icon ++ [41%N] ++ ws ++ [98%N] ++ rest ∧
    [97%N] = removeSymbolPrefix icon.
Proof.
  destruct (parseVariableInfo_sound [120; 36; 40; 97; 41; 32; 98]%N [98%N] [97%N]
              ltac:(vm_compute; reflexivity))
    as (before & icon & ws & rest & Hinput & Htype & _).
  by exists before, icon, ws, rest.
Defined.

End VariableInfo.

(* ===================================================================== *)
(** * Loading a session from content                                       *)
(* ===================================================================== *)






